(** * The Ising engine of [ising_model.ipynb]: lattice, energy, Metropolis sweep,
    temperature orchestration.

    The notebook is imperative numpy code: arrays are objects that are
    mutated in place, the random generator is process-wide state, floats are
    IEEE 754 doubles, numpy reports float exceptions as RuntimeWarnings, and
    Python raises exceptions.  The embedding keeps all five: a [world] holds
    the object store, the generator and the log of emitted warnings, every
    operation is a computation in a state-and-exception monad over it, and
    float arithmetic is the Standard Library's specification of binary64. *)

From Stdlib Require Import ZArith QArith Qpower Qround Lia SpecFloat.
From stdpp Require Import base list.

Local Open Scope Z_scope.

(** ** Values *)

(** A two-dimensional ndarray, as its rows.  The cells are the spins; the
    integer array of the random initializer and the float array of the
    deterministic one both hold only the values 1 and -1 (exactly
    representable), so one cell type serves both.  Sums and products of
    cells are taken in [Z]: on such arrays they stay far inside the range
    of numpy's 64-bit integers. *)
Abbreviation ndarray := (list (list Z)).

(** A reference to an array object in the store. *)
Abbreviation loc := nat (only parsing).

(** Python's float and numpy's float64: IEEE 754 binary64 with signed
    zeros, infinities, NaN and the finite numbers (-1)^s * m * 2^e. *)
Abbreviation float64 := spec_float.

(** The number a float64 stands for, the sign of a zero forgotten.  This is
    all that [np.exp] and [<] depend on. *)
Inductive float :=
  | Finite (q : Q)
  | PInf
  | NInf
  | NaN.

Inductive exn :=
  | IndexError
  | ValueError
  | OverflowError
  | ZeroDivisionError
  | NameError
  | NoSuchObject.  (* a reference outside the store; references are only
                      made by allocation, so this is never raised *)

Inductive warning :=
  | DivideByZero      (* "divide by zero encountered" *)
  | InvalidValue      (* "invalid value encountered" *)
  | Overflow.         (* "overflow encountered" *)

Inductive event :=
  | RuntimeWarning (k : warning).

Record world := World {
  heap : list ndarray;       (* the array objects, addressed by position *)
  tape : nat -> N;           (* the raw output stream of np.random *)
  cursor : nat;              (* how much of the stream has been consumed *)
  log : list event           (* the warnings numpy has issued, latest last *)
}.

Inductive result (A : Type) :=
  | Ok (a : A)
  | Raise (e : exn).
Arguments Ok {A} a.
Arguments Raise {A} e.

(** ** The monad *)

Definition M (A : Type) : Type := world -> result (A * world).

#[global] Instance M_ret : MRet M := fun A a w => Ok (a, w).
#[global] Instance M_bind : MBind M := fun A B f m w =>
  match m w with
  | Ok (a, w') => f a w'
  | Raise e => Raise e
  end.

Definition raise {A} (e : exn) : M A := fun _ => Raise e.

Definition emit (ev : event) : M unit := fun w =>
  Ok (tt, World (heap w) (tape w) (cursor w) (log w ++ [ev])).

(** [for x in xs: s = body(x, s)] with the loop-carried variables [s]. *)
Fixpoint foldM {A S : Type} (body : A -> S -> M S) (xs : list A) (s : S) : M S :=
  match xs with
  | [] => mret s
  | x :: xs' => s' ← body x s; foldM body xs' s'
  end.

(** Python's [range(n)]: empty when [n <= 0]. *)
Definition range (n : Z) : list Z := map Z.of_nat (seq 0 (Z.to_nat n)).

(** ** The random generator *)

Definition next_raw : M N := fun w =>
  Ok (tape w (cursor w), World (heap w) (tape w) (S (cursor w)) (log w)).

(** [np.random.randint(low, high)]: an integer of [low, high). *)
Definition randint (low high : Z) : M Z :=
  if high <=? low then raise ValueError
  else r ← next_raw; mret (low + Z.of_N r mod (high - low)).

(** [np.random.randint(low, high, size=2)], unpacked into two names. *)
Definition randint_pair (low high : Z) : M (Z * Z) :=
  i ← randint low high;
  j ← randint low high;
  mret (i, j).

(** [np.random.rand()]: 53 random bits scaled into [0, 1); every such
    number is a float64, given here by its value. *)
Definition rand : M Q :=
  r ← next_raw; mret (Qmake (Z.of_N r mod 2 ^ 53) (2 ^ 53)).

Definition swap (xs : list Z) (i j : nat) : list Z :=
  match xs !! i, xs !! j with
  | Some a, Some b => <[i := b]> (<[j := a]> xs)
  | _, _ => xs
  end.

(** [np.random.shuffle]: Fisher-Yates from the last index down to 1, each
    index exchanged with a random one not above it. *)
Fixpoint shuffle_from (i : nat) (xs : list Z) : M (list Z) :=
  match i with
  | O => mret xs
  | S i' => r ← next_raw;
            shuffle_from i' (swap xs i (N.to_nat r mod S i))
  end.

Definition shuffle (xs : list Z) : M (list Z) :=
  shuffle_from (length xs - 1) xs.

(** ** The object store *)

Definition alloc (a : ndarray) : M loc := fun w =>
  Ok (length (heap w), World (heap w ++ [a]) (tape w) (cursor w) (log w)).

Definition load (l : loc) : M ndarray := fun w =>
  match heap w !! l with
  | Some a => Ok (a, w)
  | None => Raise NoSuchObject
  end.

Definition store (l : loc) (a : ndarray) : M unit := fun w =>
  Ok (tt, World (<[l := a]> (heap w)) (tape w) (cursor w) (log w)).

(** [lattice.shape[0]] *)
Definition shape0 (l : loc) : M Z :=
  a ← load l; mret (Z.of_nat (length a)).

(** numpy index normalisation along an axis of length [n]: negative indices
    count from the end, anything outside [-n, n) is an IndexError. *)
Definition norm_index (n : nat) (i : Z) : option nat :=
  if (0 <=? i) && (i <? Z.of_nat n) then Some (Z.to_nat i)
  else if (- Z.of_nat n <=? i) && (i <? 0) then Some (Z.to_nat (i + Z.of_nat n))
  else None.

Definition cell_of (a : ndarray) (i j : Z) : option Z :=
  r ← norm_index (length a) i;
  row ← a !! r;
  c ← norm_index (length row) j;
  row !! c.

Definition set_cell (a : ndarray) (i j : Z) (v : Z) : option ndarray :=
  r ← norm_index (length a) i;
  row ← a !! r;
  c ← norm_index (length row) j;
  Some (<[r := <[c := v]> row]> a).

(** [lattice[i, j]] *)
Definition getitem (l : loc) (i j : Z) : M Z :=
  a ← load l;
  match cell_of a i j with
  | Some v => mret v
  | None => raise IndexError
  end.

(** [lattice[i, j] = v] *)
Definition setitem (l : loc) (i j : Z) (v : Z) : M unit :=
  a ← load l;
  match set_cell a i j v with
  | Some a' => store l a'
  | None => raise IndexError
  end.

(** [np.copy(lattice)]: a new object with the same contents. *)
Definition np_copy (l : loc) : M loc :=
  a ← load l; alloc a.

(** ** Floats *)

(** The conversion of an integer, the product and the quotient of two
    floats, each rounded to nearest, ties to even, as IEEE 754 has them. *)
Definition f64_of_int (z : Z) : float64 := binary_normalize 53 1024 z 0 false.

Definition f64_mul (x y : float64) : float64 := SFmul 53 1024 x y.

Definition f64_div (x y : float64) : float64 := SFdiv 53 1024 x y.

Definition value_of (x : float64) : float :=
  match x with
  | S754_zero _ => Finite 0
  | S754_finite s m e => Finite (inject_Z (cond_Zopp s (Z.pos m)) * 2 ^ e)
  | S754_infinity false => PInf
  | S754_infinity true => NInf
  | S754_nan => NaN
  end.

(** [n * x] with a Python int [n] and a float [x]: the int is converted
    first, and Python refuses an int beyond the float range. *)
Definition py_float (n : Z) : M float64 :=
  match f64_of_int n with
  | S754_infinity _ => raise OverflowError
  | x => mret x
  end.

(** Python's [int(x)] on a float: truncation toward zero; NaN and the
    infinities are refused. *)
Definition py_int (x : float64) : M Z :=
  match x with
  | S754_zero _ => mret 0
  | S754_finite s m e =>
      mret (cond_Zopp s (if 0 <=? e then Z.pos m * 2 ^ e else Z.pos m / 2 ^ (- e)))
  | S754_infinity _ => raise OverflowError
  | S754_nan => raise ValueError
  end.

(** Python's [round(x)] on a float, to an integer: nearest, ties to even. *)
Definition py_round (x : float64) : M Z :=
  match value_of x with
  | Finite q =>
      let f := Qfloor q in
      mret match Qcompare (q - inject_Z f) (1 # 2) with
           | Lt => f
           | Gt => f + 1
           | Eq => if Z.even f then f else f + 1
           end
  | PInf | NInf => raise OverflowError
  | NaN => raise ValueError
  end.

(** [a % b] on Python integers. *)
Definition py_mod (a b : Z) : M Z :=
  if b =? 0 then raise ZeroDivisionError else mret (a mod b).

(** What numpy warns about when it divides [a] by [t] and gets [y]: a zero
    divisor under a finite non-zero number, an undefined quotient, a finite
    quotient beyond the float range.  (Underflow goes unreported.) *)
Definition division_warning (a t y : float64) : option warning :=
  match a, t with
  | S754_finite _ _ _, S754_zero _ => Some DivideByZero
  | S754_zero _, S754_zero _ => Some InvalidValue
  | S754_infinity _, S754_infinity _ => Some InvalidValue
  | S754_finite _ _ _, S754_finite _ _ _ =>
      match y with
      | S754_infinity _ => Some Overflow
      | _ => None
      end
  | _, _ => None
  end.

(** [x / t] with a numpy integer scalar [x] and a float [t]: a float64
    division; numpy does not raise on a zero divisor, it warns and returns
    an infinity or NaN. *)
Definition true_divide (x : Z) (t : float64) : M float64 :=
  let a := f64_of_int x in
  let y := f64_div a t in
  _ ← match division_warning a t y with
      | Some k => emit (RuntimeWarning k)
      | None => mret tt
      end;
  mret y.

(** [u < y] for a finite [u]; every comparison with NaN is false. *)
Definition float_lt (u : Q) (y : float) : bool :=
  match y with
  | Finite q => match (u ?= q)%Q with Lt => true | _ => false end
  | PInf => true
  | NInf => false
  | NaN => false
  end.

(** [spins.reshape((r, c))] of a one-dimensional array. *)
Fixpoint rows_of (r c : nat) (xs : list Z) : ndarray :=
  match r with
  | O => []
  | S r' => take c xs :: rows_of r' c (drop c xs)
  end.

Definition reshape (xs : list Z) (r c : Z) : M ndarray :=
  if (r <? 0) || (c <? 0) then raise ValueError
  else if r * c =? Z.of_nat (length xs)
       then mret (rows_of (Z.to_nat r) (Z.to_nat c) xs)
       else raise ValueError.

(** [np.ones((r, c))] *)
Definition np_ones (r c : Z) : M ndarray :=
  if (r <? 0) || (c <? 0) then raise ValueError
  else mret (replicate (Z.to_nat r) (replicate (Z.to_nat c) 1)).

(** [row[:k] = v] for [k >= 0]. *)
Definition fill_prefix (k : Z) (v : Z) (row : list Z) : list Z :=
  replicate (Nat.min (Z.to_nat k) (length row)) v ++ drop (Z.to_nat k) row.

(** A Python dict with float keys: insertion-ordered, a key equal to one
    already there ([0.0 == -0.0]) overwrites its value in place.  A NaN
    equals no key; the temperatures of a list are taken to be distinct
    objects. *)
Fixpoint dict_set {V} (d : list (float64 * V)) (k : float64) (v : V)
    : list (float64 * V) :=
  match d with
  | [] => [(k, v)]
  | (k', v') :: d' =>
      if SFeqb k' k then (k', v) :: d' else (k', v') :: dict_set d' k v
  end.

(** ** The program *)

Section Engine.

(** [np.exp] on finite arguments (a float: it can overflow to infinity). *)
Variable np_exp_finite : Q -> float.

(** [np.exp]: numpy warns when a finite argument overflows. *)
Definition np_exp (x : float) : M float :=
  match x with
  | Finite q =>
      match np_exp_finite q with
      | PInf => _ ← emit (RuntimeWarning Overflow); mret PInf
      | y => mret y
      end
  | PInf => mret PInf
  | NInf => mret (Finite 0)
  | NaN => mret NaN
  end.

Definition initialize_lattice (N : Z) (ratio : float64) (randomize : bool) : M loc :=
  if randomize then
    let num_spins := N * N in
    x ← py_float num_spins;
    num_blue ← py_int (f64_mul x ratio);
    let num_red := num_spins - num_blue in
    spins ← shuffle (replicate (Z.to_nat num_blue) 1 ++ replicate (Z.to_nat num_red) (-1));
    lattice ← reshape spins N N;
    alloc lattice
  else
    lattice ← np_ones N N;
    alloc (map (fill_prefix (N / 2) (-1)) lattice).

(** [neighbors] of cell [(i, j)] as the two loops and the sweep compute it. *)
Definition neighbors_at (lattice : loc) (N i j : Z) : M Z :=
  a ← getitem lattice ((i + 1) mod N) j;
  b ← getitem lattice ((i - 1) mod N) j;
  c ← getitem lattice i ((j + 1) mod N);
  d ← getitem lattice i ((j - 1) mod N);
  mret (a + b + c + d).

Definition calculate_energy (lattice : loc) : M Q :=
  N ← shape0 lattice;
  energy ← foldM (fun i energy =>
              foldM (fun j energy =>
                 spin ← getitem lattice i j;
                 neighbors ← neighbors_at lattice N i j;
                 mret (energy + - spin * neighbors))
                (range N) energy)
            (range N) 0;
  mret (inject_Z energy / 2)%Q.

(** The body of the sweep's loop: one trial flip. *)
Definition metropolis_trial (lattice : loc) (N : Z) (temperature : float64) : M unit :=
  '(i, j) ← randint_pair 0 N;
  spin ← getitem lattice i j;
  neighbors ← neighbors_at lattice N i j;
  let delta_E := 2 * spin * neighbors in
  accept ← (if delta_E <? 0 then mret true
            else u ← rand;
                 x ← true_divide (- delta_E) temperature;
                 y ← np_exp (value_of x);
                 mret (float_lt u y));
  if accept : bool then
    s ← getitem lattice i j;
    setitem lattice i j (s * -1)
  else mret tt.

Definition metropolis_step (lattice : loc) (temperature : float64) : M loc :=
  N ← shape0 lattice;
  _ ← foldM (fun _ _ => metropolis_trial lattice N temperature) (range (N ^ 2)) tt;
  mret lattice.

(** One pass of the step loop.  The name [clear_output] is neither imported
    nor defined in the notebook, so the call on the first line of the
    display branch raises NameError; [plot_lattice], on the next line, is
    never reached. *)
Definition simulate_step (temperature : float64) (output_interval : Z) (step : Z)
    (vars : loc * list Q * list loc) : M (loc * list Q * list loc) :=
  let '(lattice, energy, lattice_states) := vars in
  lattice ← metropolis_step lattice temperature;
  e ← calculate_energy lattice;
  snapshot ← np_copy lattice;
  r ← py_mod step output_interval;
  _ ← (if r =? 0 then raise NameError else mret tt);
  mret (lattice, energy ++ [e], lattice_states ++ [snapshot]).

Definition results : Type :=
  list (float64 * loc) * list (float64 * list loc) * list (float64 * list Q).

Definition simulate_temperature (N : Z) (steps output_interval : Z) (ratio : float64)
    (temperature : float64) (dicts : results) : M results :=
  let '(final_states, animations, energies) := dicts in
  lattice ← initialize_lattice N ratio true;
  '(lattice, energy, lattice_states) ←
     foldM (simulate_step temperature output_interval) (range steps) (lattice, [], []);
  mret (dict_set final_states temperature lattice,
        dict_set animations temperature lattice_states,
        dict_set energies temperature energy).

Definition simulate_phase_separation (N : Z) (temperatures : list float64)
    (steps output_interval : Z) (ratio : float64) : M results :=
  foldM (simulate_temperature N steps output_interval ratio) temperatures ([], [], []).

End Engine.

(** * Vocabulary of the statements *)

(** ** Lattices as values *)

(** [n] rows of [n] cells. *)
Definition square (n : nat) (a : ndarray) : Prop :=
  length a = n /\ Forall (fun row => length row = n) a.

(** [r] rows of [c] cells. *)
Definition rectangular (r c : nat) (a : ndarray) : Prop :=
  length a = r /\ Forall (fun row => length row = c) a.

Definition is_spin (s : Z) : Prop := s = 1 \/ s = -1.

(** The lattice invariant of the data model. *)
Definition lattice_ok (n : nat) (a : ndarray) : Prop :=
  square n a /\ Forall (Forall is_spin) a.

(** The cell at [(i, j)], for reasoning about cells that exist. *)
Definition cell (a : ndarray) (i j : Z) : Z := default 0 (cell_of a i j).

(** The lattice with the spin at [(i, j)] negated. *)
Definition negate_cell (a : ndarray) (i j : Z) : ndarray :=
  default a (set_cell a i j (- cell a i j)).

(** The number of cells of the grid that hold [v]. *)
Definition count_spin (v : Z) (a : ndarray) : nat :=
  count_occ Z.eq_dec (concat a) v.

Definition hit (a x : Z) : nat := if Z.eq_dec a x then 1%nat else 0%nat.

(** The grid of the deterministic mode: every row is [N/2] cells of -1
    followed by cells of +1. *)
Definition split_grid (N : Z) : ndarray :=
  replicate (Z.to_nat N)
    (replicate (Z.to_nat (N / 2)) (-1) ++ replicate (Z.to_nat (N - N / 2)) 1).

(** ** Floats in the statements *)

(** Python's [p / q] on two ints: the float nearest to the fraction. *)
Definition fraction (p q : Z) : float64 := f64_div (f64_of_int p) (f64_of_int q).

(** [0 <= x <= 1], by the value of [x]. *)
Definition within_unit (x : float64) : Prop :=
  exists q, value_of x = Finite q /\ (0 <= q)%Q /\ (q <= 1)%Q.

(** [x > 0] and [x < 0], as floats compare. *)
Definition above_zero (x : float64) : Prop := SFltb (S754_zero false) x = true.

Definition below_zero (x : float64) : Prop := SFltb x (S754_zero false) = true.

(** The exponent binary64 gives a number of magnitude [2 ^ e]. *)
Definition fexp64 (e : Z) : Z := Z.max (e - 53) (-1074).

(** Neither NaN nor an infinity. *)
Definition is_finite (x : float64) : bool :=
  match x with
  | S754_zero _ | S754_finite _ _ _ => true
  | S754_infinity _ | S754_nan => false
  end.

(** [int(x)] without a world: the integer or the exception. *)
Definition int_of (x : float64) : result Z :=
  match x with
  | S754_zero _ => Ok 0
  | S754_finite s m e =>
      Ok (cond_Zopp s (if 0 <=? e then Z.pos m * 2 ^ e else Z.pos m / 2 ^ (- e)))
  | S754_infinity _ => Raise OverflowError
  | S754_nan => Raise ValueError
  end.

(** [int(num_spins * ratio)] for [num_spins = N * N], as the random mode
    computes it: the float64 product, truncated toward zero. *)
Definition num_blue_of (N : Z) (ratio : float64) : result Z :=
  match f64_of_int (N * N) with
  | S754_infinity _ => Raise OverflowError
  | x => int_of (f64_mul x ratio)
  end.

(** The one-dimensional array the random mode builds before shuffling. *)
Definition unshuffled (N num_blue : Z) : list Z :=
  replicate (Z.to_nat num_blue) 1 ++ replicate (Z.to_nat (N * N - num_blue)) (-1).

(** ** The energy as a sum *)

(** The sum of the four toroidal neighbours of [(i, j)]. *)
Definition nbsum (a : ndarray) (N i j : Z) : Z :=
  cell a ((i + 1) mod N) j + cell a ((i - 1) mod N) j +
  cell a i ((j + 1) mod N) + cell a i ((j - 1) mod N).

Definition sumZ (f : Z -> Z) (xs : list Z) : Z :=
  fold_right (fun x acc => f x + acc) 0 xs.

(** The contribution of cell [(i, j)] to the running total of the two loops. *)
Definition energy_term (a : ndarray) (N i j : Z) : Z :=
  - cell a i j * nbsum a N i j.

(** Twice the energy: the sum of every cell's contribution. *)
Definition energy_sum (n : nat) (a : ndarray) : Z :=
  sumZ (fun i => sumZ (fun j => energy_term a (Z.of_nat n) i j) (range (Z.of_nat n)))
       (range (Z.of_nat n)).

(** Sums over the grid of a function of the two indices, and the same
    neighbour sum for such a function. *)
Definition ind (x y : Z) : Z := if x =? y then 1 else 0.

Definition sum2 (N : Z) (g : Z -> Z -> Z) : Z :=
  sumZ (fun i => sumZ (fun j => g i j) (range N)) (range N).

Definition nb4 (N : Z) (g : Z -> Z -> Z) (i j : Z) : Z :=
  g ((i + 1) mod N) j + g ((i - 1) mod N) j + g i ((j + 1) mod N) + g i ((j - 1) mod N).

(** The bonds of the torus, each once: every cell with the cell below it
    and with the cell to its right, indices wrapping around. *)
Definition bond_sum (n : nat) (a : ndarray) : Z :=
  sum2 (Z.of_nat n) (fun i j =>
    cell a i j * cell a ((i + 1) mod Z.of_nat n) j +
    cell a i j * cell a i ((j + 1) mod Z.of_nat n)).

(** ** Worlds *)

(** Two runs, started in [w1] and in [w2], end alike: same value and both
    worlds untouched, or the same exception. *)
Definition agree (w1 w2 : world) {A} (m1 m2 : M A) : Prop :=
  match m1 w1, m2 w2 with
  | Ok (a1, w1'), Ok (a2, w2') => a1 = a2 /\ w1' = w1 /\ w2' = w2
  | Raise e1, Raise e2 => e1 = e2
  | _, _ => False
  end.

Definition advance (k : nat) (w : world) : world :=
  World (heap w) (tape w) (cursor w + k) (log w).

Definition with_array (l : loc) (a : ndarray) (w : world) : world :=
  World (<[l := a]> (heap w)) (tape w) (cursor w) (log w).

Definition with_log (evs : list event) (w : world) : world :=
  World (heap w) (tape w) (cursor w) (log w ++ evs).

(** [w'] differs from [w] at most in the array behind [l], in how much of
    the random stream is consumed, and in a longer log. *)
Definition frame_at (l : loc) (w w' : world) : Prop :=
  length (heap w') = length (heap w) /\
  (forall l', l' <> l -> heap w' !! l' = heap w !! l') /\
  tape w' = tape w /\
  (cursor w <= cursor w')%nat /\
  exists evs, log w' = log w ++ evs.

(** ** The generator's outcomes *)

(** The values the generator hands out at a given raw draw. *)
Definition pick (n : nat) (r : N) : Z := Z.of_N r mod Z.of_nat n.

Definition unit_of (r : N) : Q := Qmake (Z.of_N r mod 2 ^ 53) (2 ^ 53).

(** The world in which the generator's next two outputs are [x] and [y]. *)
Definition with_draws (x y : N) (w : world) : world :=
  World (heap w)
        (fun k => if (k =? cursor w)%nat then x
                  else if (k =? S (cursor w))%nat then y else tape w k)
        (cursor w) (log w).

(** The outcomes of [randint(0, n, size=2)] that numpy's contract makes
    equally likely: every pair of values below [n]. *)
Definition draw_pairs (n : nat) : list (N * N) :=
  list_prod (map N.of_nat (seq 0 n)) (map N.of_nat (seq 0 n)).

(** The cell that the sweep's call of the generator selects. *)
Definition selected (n : nat) (w : world) : option (Z * Z) :=
  match randint_pair 0 (Z.of_nat n) w with
  | Ok (c, _) => Some c
  | Raise _ => None
  end.

(** Whether the outcome [xy] of the generator makes the sweep's call select
    the cell [(i, j)]. *)
Definition selects (n : nat) (w : world) (i j : Z) (xy : N * N) : bool :=
  match selected n (with_draws (fst xy) (snd xy) w) with
  | Some (i', j') => (i' =? i) && (j' =? j)
  | None => false
  end.

(** The share of the outcomes of [space] on which [event] holds. *)
Definition chance {A} (event : A -> bool) (space : list A) : Q :=
  Qmake (Z.of_nat (length (List.filter event space))) (Pos.of_nat (length space)).

(** ** Trials *)

(** What [true_divide] returns and what it appends to the log. *)
Definition quotient (x : Z) (t : float64) : float64 * list event :=
  let a := f64_of_int x in
  let y := f64_div a t in
  (y, match division_warning a t y with
      | Some k => [RuntimeWarning k]
      | None => []
      end).

(** What [np.exp] returns and what it appends to the log. *)
Definition exponential (np_exp_finite : Q -> float) (x : float) : float * list event :=
  match x with
  | Finite q =>
      match np_exp_finite q with
      | PInf => (PInf, [RuntimeWarning Overflow])
      | y => (y, [])
      end
  | PInf => (PInf, [])
  | NInf => (Finite 0, [])
  | NaN => (NaN, [])
  end.

(** [np.exp(-delta_E / temperature)]: its value and the warnings of
    computing it. *)
Definition acceptance (np_exp_finite : Q -> float) (delta_E : Z) (T : float64)
    : float * list event :=
  let q := quotient (- delta_E) T in
  let e := exponential np_exp_finite (value_of (fst q)) in
  (fst e, snd q ++ snd e).

(** The world after one trial on the array [a] behind [l]. *)
Definition trial_outcome (np_exp_finite : Q -> float) (l : loc) (n : nat) (T : float64)
    (a : ndarray) (w : world) : world :=
  let i := pick n (tape w (cursor w)) in
  let j := pick n (tape w (cursor w + 1)) in
  let delta_E := 2 * cell a i j * nbsum a (Z.of_nat n) i j in
  if delta_E <? 0 then with_array l (negate_cell a i j) (advance 2 w)
  else
    let u := unit_of (tape w (cursor w + 2)) in
    let p := acceptance np_exp_finite delta_E T in
    let w' := with_log (snd p) (advance 3 w) in
    if float_lt u (fst p) then with_array l (negate_cell a i j) w' else w'.

(** [k] trials in a row. *)
Inductive trials (np_exp_finite : Q -> float) (l : loc) (n : nat) (T : float64) :
    nat -> world -> world -> Prop :=
  | trials_O w : trials np_exp_finite l n T O w w
  | trials_S k w a w' :
      heap w !! l = Some a ->
      trials np_exp_finite l n T k (trial_outcome np_exp_finite l n T a w) w' ->
      trials np_exp_finite l n T (S k) w w'.

(** One trial flip as the updater's contract words it: the cell [(i, j)] is
    what [randint(0, N, size=2)] returns on fresh draws; a negative
    [delta_E] is accepted without a further draw; otherwise a fresh uniform
    draw [u] decides, the flip being accepted exactly when [u] is below
    [exp(-delta_E / T)]; acceptance negates that cell in the array behind
    [l].  The warnings of the division and of the exponential go to the
    log. *)
Inductive flip_trial (np_exp_finite : Q -> float) (l : loc) (n : nat) (T : float64)
    (w : world) : world -> Prop :=
  | flip_downhill a i j delta_E :
      heap w !! l = Some a ->
      selected n w = Some (i, j) ->
      delta_E = 2 * cell a i j * nbsum a (Z.of_nat n) i j ->
      delta_E < 0 ->
      flip_trial np_exp_finite l n T w
        (with_array l (negate_cell a i j) (advance 2 w))
  | flip_accepted a i j delta_E u :
      heap w !! l = Some a ->
      selected n w = Some (i, j) ->
      delta_E = 2 * cell a i j * nbsum a (Z.of_nat n) i j ->
      0 <= delta_E ->
      u = unit_of (tape w (cursor w + 2)) ->
      float_lt u (fst (acceptance np_exp_finite delta_E T)) = true ->
      flip_trial np_exp_finite l n T w
        (with_array l (negate_cell a i j)
           (with_log (snd (acceptance np_exp_finite delta_E T)) (advance 3 w)))
  | flip_rejected a i j delta_E u :
      heap w !! l = Some a ->
      selected n w = Some (i, j) ->
      delta_E = 2 * cell a i j * nbsum a (Z.of_nat n) i j ->
      0 <= delta_E ->
      u = unit_of (tape w (cursor w + 2)) ->
      float_lt u (fst (acceptance np_exp_finite delta_E T)) = false ->
      flip_trial np_exp_finite l n T w
        (with_log (snd (acceptance np_exp_finite delta_E T)) (advance 3 w)).

(** [k] trial flips, one after the other. *)
Inductive sweep (np_exp_finite : Q -> float) (l : loc) (n : nat) (T : float64) :
    nat -> world -> world -> Prop :=
  | sweep_O w : sweep np_exp_finite l n T O w w
  | sweep_S k w w1 w2 :
      flip_trial np_exp_finite l n T w w1 ->
      sweep np_exp_finite l n T k w1 w2 ->
      sweep np_exp_finite l n T (S k) w w2.

(** The exponential is at least 1 on non-negative arguments (or has
    overflowed to infinity). *)
Definition exp_at_least_one (np_exp_finite : Q -> float) : Prop :=
  forall q, (0 <= q)%Q ->
    np_exp_finite q = PInf \/ exists e, np_exp_finite q = Finite e /\ (1 <= e)%Q.

(** ** Results of the orchestrator *)

(** What stops the step loop at its first pass: [step % output_interval]
    divides by zero, or is 0 and the display branch calls the undefined
    name [clear_output]. *)
Definition first_step_error (output_interval : Z) : exn :=
  if output_interval =? 0 then ZeroDivisionError else NameError.

(** Every trajectory and every snapshot sequence is empty. *)
Definition nothing_recorded (dicts : results) : Prop :=
  let '(final, animations, energies) := dicts in
  Forall (fun entry => snd entry = []) animations /\
  Forall (fun entry => snd entry = []) energies.

(** ** An exponential for closed examples *)

(** A rational approximation of the exponential, to run closed examples:
    the Taylor polynomial of degree 20 for a non-negative argument, its
    reciprocal at the opposite argument for a negative one. *)
Fixpoint taylor (fuel : nat) (x : Q) (k : Z) (term : Q) : Q :=
  match fuel with
  | O => term
  | S fuel' => (term + taylor fuel' x (k + 1) (Qred (term * x / inject_Z (k + 1))))%Q
  end.

Definition exp_approx (x : Q) : float :=
  if Qle_bool 0 x then Finite (Qred (taylor 20 x 0 1))
  else Finite (Qred (/ taylor 20 (- x) 0 1)).
(** * Reasoning about computations *)

Lemma bind_unfold {A B} (m : M A) (f : A -> M B) (w : world) :
  (m ≫= f) w = match m w with Ok (a, w') => f a w' | Raise e => Raise e end.
Proof. reflexivity. Qed.

Lemma bind_run {A B} (m : M A) (f : A -> M B) (w w1 : world) (a : A) :
  m w = Ok (a, w1) -> (m ≫= f) w = f a w1.
Proof. intros H. rewrite bind_unfold, H. reflexivity. Qed.

Lemma bind_ok {A B} (m : M A) (f : A -> M B) (w : world) (r : B * world) :
  (m ≫= f) w = Ok r -> exists a w1, m w = Ok (a, w1) /\ f a w1 = Ok r.
Proof.
  rewrite bind_unfold. destruct (m w) as [[a w1]|e]; [eauto | discriminate].
Qed.

Lemma ret_unfold {A} (a : A) (w : world) : (mret a : M A) w = Ok (a, w).
Proof. reflexivity. Qed.

(** A loop whose body neither fails nor touches the world on the elements it
    visits computes a left fold. *)
Lemma foldM_pure {A S} (body : A -> S -> M S) (g : S -> A -> S) (w : world) :
  forall (xs : list A) (s : S),
    (forall x s', In x xs -> body x s' w = Ok (g s' x, w)) ->
    foldM body xs s w = Ok (fold_left g xs s, w).
Proof.
  induction xs as [|x xs IH]; intros s Hb; simpl.
  - reflexivity.
  - rewrite (bind_run _ _ _ _ _ (Hb x s (or_introl eq_refl))).
    apply IH. intros y s' Hy. apply Hb. now right.
Qed.

Lemma in_range (n i : Z) : In i (range n) <-> 0 <= i < n.
Proof.
  unfold range. rewrite in_map_iff. split.
  - intros (k & <- & Hk). apply in_seq in Hk. lia.
  - intros Hi. exists (Z.to_nat i). split; [lia|]. apply in_seq. lia.
Qed.

Lemma length_range (n : Z) : length (range n) = Z.to_nat n.
Proof. unfold range. now rewrite length_map, length_seq. Qed.

(** * Cells of a square lattice *)

Lemma norm_index_in (n : nat) (i : Z) :
  0 <= i < Z.of_nat n -> norm_index n i = Some (Z.to_nat i).
Proof.
  intros H. unfold norm_index.
  destruct (Z.leb_spec 0 i), (Z.ltb_spec i (Z.of_nat n)); simpl; try lia; reflexivity.
Qed.

Lemma cell_of_square (n : nat) (a : ndarray) (i j : Z) :
  square n a -> 0 <= i < Z.of_nat n -> 0 <= j < Z.of_nat n ->
  exists row, a !! Z.to_nat i = Some row /\ length row = n /\
              cell_of a i j = row !! Z.to_nat j /\ is_Some (row !! Z.to_nat j).
Proof.
  intros [Hl Hr] Hi Hj.
  destruct (lookup_lt_is_Some_2 a (Z.to_nat i)) as [row Hrow]; [lia|].
  assert (Hlen : length row = n).
  { rewrite Forall_forall in Hr. apply Hr.
    eapply list_elem_of_lookup_2; eauto. }
  exists row. repeat split; auto.
  - unfold cell_of. rewrite norm_index_in by lia. simpl. rewrite Hrow. simpl.
    rewrite norm_index_in by lia. reflexivity.
  - apply lookup_lt_is_Some_2. lia.
Qed.

Lemma cell_of_cell (n : nat) (a : ndarray) (i j : Z) :
  square n a -> 0 <= i < Z.of_nat n -> 0 <= j < Z.of_nat n ->
  cell_of a i j = Some (cell a i j).
Proof.
  intros Hs Hi Hj. unfold cell.
  destruct (cell_of_square n a i j Hs Hi Hj) as (row & _ & _ & -> & [v ->]).
  reflexivity.
Qed.

Lemma load_ok (l : loc) (a : ndarray) (w : world) :
  heap w !! l = Some a -> load l w = Ok (a, w).
Proof. intros H. unfold load. now rewrite H. Qed.

Lemma getitem_ok (l : loc) (a : ndarray) (w : world) (i j v : Z) :
  heap w !! l = Some a -> cell_of a i j = Some v -> getitem l i j w = Ok (v, w).
Proof.
  intros Hl Hc. unfold getitem. rewrite (bind_run _ _ _ _ _ (load_ok _ _ _ Hl)).
  now rewrite Hc.
Qed.

Lemma getitem_square (n : nat) (l : loc) (a : ndarray) (w : world) (i j : Z) :
  heap w !! l = Some a -> square n a ->
  0 <= i < Z.of_nat n -> 0 <= j < Z.of_nat n ->
  getitem l i j w = Ok (cell a i j, w).
Proof.
  intros Hl Hs Hi Hj. eapply getitem_ok; eauto. eapply cell_of_cell; eauto.
Qed.

Lemma neighbors_at_square (n : nat) (l : loc) (a : ndarray) (w : world) (i j : Z) :
  heap w !! l = Some a -> square n a ->
  0 <= i < Z.of_nat n -> 0 <= j < Z.of_nat n ->
  neighbors_at l (Z.of_nat n) i j w = Ok (nbsum a (Z.of_nat n) i j, w).
Proof.
  intros Hl Hs Hi Hj. unfold neighbors_at, nbsum.
  assert (Hn : 0 < Z.of_nat n) by lia.
  pose proof (Z.mod_pos_bound (i + 1) _ Hn). pose proof (Z.mod_pos_bound (i - 1) _ Hn).
  pose proof (Z.mod_pos_bound (j + 1) _ Hn). pose proof (Z.mod_pos_bound (j - 1) _ Hn).
  repeat (erewrite bind_run; [| eapply getitem_square; eauto]).
  reflexivity.
Qed.

(** ** The evaluator's loops as sums *)

Lemma fold_left_sumZ (f : Z -> Z) (xs : list Z) (e : Z) :
  fold_left (fun e x => e + f x) xs e = e + sumZ f xs.
Proof.
  revert e. induction xs as [|x xs IH]; intros e; simpl; [lia|].
  rewrite IH. lia.
Qed.

Lemma sumZ_ext (f g : Z -> Z) (xs : list Z) :
  (forall x, In x xs -> f x = g x) -> sumZ f xs = sumZ g xs.
Proof.
  induction xs as [|x xs IH]; intros H; simpl; [reflexivity|].
  rewrite (H x (or_introl eq_refl)), IH; [reflexivity|].
  intros y Hy. apply H. now right.
Qed.

Lemma sumZ_const (c : Z) (xs : list Z) :
  sumZ (fun _ => c) xs = c * Z.of_nat (length xs).
Proof. induction xs as [|x xs IH]; simpl length; simpl sumZ; [lia|]. rewrite IH. lia. Qed.

Lemma sumZ_add (f g : Z -> Z) (xs : list Z) :
  sumZ (fun x => f x + g x) xs = sumZ f xs + sumZ g xs.
Proof. induction xs as [|x xs IH]; simpl; [reflexivity|]. rewrite IH. lia. Qed.

Lemma sumZ_scale (c : Z) (f : Z -> Z) (xs : list Z) :
  sumZ (fun x => c * f x) xs = c * sumZ f xs.
Proof. induction xs as [|x xs IH]; simpl; [lia|]. rewrite IH. lia. Qed.

Lemma shape0_ok (l : loc) (a : ndarray) (w : world) :
  heap w !! l = Some a -> shape0 l w = Ok (Z.of_nat (length a), w).
Proof.
  intros H. unfold shape0. rewrite (bind_run _ _ _ _ _ (load_ok _ _ _ H)). reflexivity.
Qed.

(** On a square lattice the evaluator succeeds, leaves the world as it was
    and returns half the sum of the cells' contributions. *)
Lemma calculate_energy_square (n : nat) (l : loc) (a : ndarray) (w : world) :
  heap w !! l = Some a -> square n a ->
  calculate_energy l w = Ok ((inject_Z (energy_sum n a) / 2)%Q, w).
Proof.
  intros Hl Hs. unfold calculate_energy.
  rewrite (bind_run _ _ _ _ _ (shape0_ok _ _ _ Hl)).
  destruct Hs as [Hlen Hrows]. rewrite Hlen.
  assert (Hs : square n a) by (split; assumption).
  erewrite bind_run.
  2:{ apply foldM_pure with
        (g := fun e i => e + sumZ (fun j => energy_term a (Z.of_nat n) i j) (range (Z.of_nat n))).
      intros i e Hi. apply in_range in Hi.
      erewrite foldM_pure with (g := fun e j => e + energy_term a (Z.of_nat n) i j).
      - now rewrite fold_left_sumZ.
      - intros j e' Hj. apply in_range in Hj.
        erewrite bind_run; [| eapply getitem_square; eauto].
        erewrite bind_run; [| eapply neighbors_at_square; eauto].
        reflexivity. }
  rewrite fold_left_sumZ. reflexivity.
Qed.

(** ** Toroidal indices *)

Lemma succ_mod_cases (N i : Z) :
  0 <= i < N -> (i + 1) mod N = if i + 1 =? N then 0 else i + 1.
Proof.
  intros H. destruct (Z.eqb_spec (i + 1) N) as [E|E].
  - rewrite E. apply Z_mod_same_full.
  - apply Z.mod_small. lia.
Qed.

Lemma pred_mod_cases (N i : Z) :
  0 <= i < N -> (i - 1) mod N = if i =? 0 then N - 1 else i - 1.
Proof.
  intros H. destruct (Z.eqb_spec i 0) as [E|E].
  - subst i. replace (0 - 1) with (N - 1 + (-1) * N) by lia.
    rewrite Z_mod_plus_full. apply Z.mod_small. lia.
  - apply Z.mod_small. lia.
Qed.

(** ** Sums over the grid *)

Lemma sum2_ext (N : Z) (g h : Z -> Z -> Z) :
  (forall i j, 0 <= i < N -> 0 <= j < N -> g i j = h i j) -> sum2 N g = sum2 N h.
Proof.
  intros H. unfold sum2. apply sumZ_ext. intros i Hi. apply sumZ_ext. intros j Hj.
  apply H; now apply in_range.
Qed.

Lemma sum2_add (N : Z) (g h : Z -> Z -> Z) :
  sum2 N (fun i j => g i j + h i j) = sum2 N g + sum2 N h.
Proof.
  unfold sum2. rewrite <- sumZ_add. apply sumZ_ext. intros i _. apply sumZ_add.
Qed.

Lemma sum2_scale (N c : Z) (g : Z -> Z -> Z) :
  sum2 N (fun i j => c * g i j) = c * sum2 N g.
Proof.
  unfold sum2. rewrite <- sumZ_scale. apply sumZ_ext. intros i _. apply sumZ_scale.
Qed.

Lemma NoDup_range (n : Z) : List.NoDup (range n).
Proof.
  unfold range. apply Finite.Injective_map_NoDup.
  - intros x y. lia.
  - apply List.seq_NoDup.
Qed.

Lemma sumZ_ind_out (a : Z) (g : Z -> Z) (xs : list Z) :
  ~ In a xs -> sumZ (fun i => ind i a * g i) xs = 0.
Proof.
  induction xs as [|x xs IH]; intros H; simpl; [reflexivity|].
  rewrite IH by (intros H'; apply H; now right).
  unfold ind. destruct (Z.eqb_spec x a); [|lia].
  exfalso. apply H. now left.
Qed.

Lemma sumZ_ind_in (a : Z) (g : Z -> Z) (xs : list Z) :
  List.NoDup xs -> In a xs -> sumZ (fun i => ind i a * g i) xs = g a.
Proof.
  induction 1 as [|x xs Hx Hnd IH]; intros Hin; simpl; [destruct Hin|].
  destruct Hin as [->|Hin].
  - rewrite sumZ_ind_out by assumption. unfold ind. rewrite Z.eqb_refl. lia.
  - rewrite IH by assumption. unfold ind. destruct (Z.eqb_spec x a); [|lia].
    subst x. contradiction.
Qed.

(** Summing against the indicator of one cell picks that cell. *)
Lemma sum2_ind (N a b : Z) (g : Z -> Z -> Z) :
  0 <= a < N -> 0 <= b < N ->
  sum2 N (fun i j => ind i a * ind j b * g i j) = g a b.
Proof.
  intros Ha Hb. unfold sum2.
  rewrite sumZ_ext with (g := fun i => ind i a * g i b).
  - apply (sumZ_ind_in a (fun i => g i b)); [apply NoDup_range | now apply in_range].
  - intros i _.
    rewrite sumZ_ext with (g := fun j => ind j b * (ind i a * g i j)).
    + apply (sumZ_ind_in b (fun j => ind i a * g i j));
        [apply NoDup_range | now apply in_range].
    + intros j _. lia.
Qed.

Lemma ind_succ (N i a : Z) :
  0 <= i < N -> 0 <= a < N -> ind ((i + 1) mod N) a = ind i ((a - 1) mod N).
Proof.
  intros Hi Ha. rewrite succ_mod_cases, pred_mod_cases by assumption. unfold ind.
  destruct (Z.eqb_spec (i + 1) N), (Z.eqb_spec a 0);
    repeat match goal with |- context [?x =? ?y] => destruct (Z.eqb_spec x y) end; lia.
Qed.

Lemma ind_pred (N i a : Z) :
  0 <= i < N -> 0 <= a < N -> ind ((i - 1) mod N) a = ind i ((a + 1) mod N).
Proof.
  intros Hi Ha. rewrite succ_mod_cases, pred_mod_cases by assumption. unfold ind.
  destruct (Z.eqb_spec (a + 1) N), (Z.eqb_spec i 0);
    repeat match goal with |- context [?x =? ?y] => destruct (Z.eqb_spec x y) end; lia.
Qed.

(** With at least two rows a cell is not its own neighbour. *)
Lemma ind_succ_self (N i a : Z) :
  2 <= N -> 0 <= i < N -> ind i a * ind ((i + 1) mod N) a = 0.
Proof.
  intros HN Hi. rewrite succ_mod_cases by assumption. unfold ind.
  destruct (Z.eqb_spec (i + 1) N);
    repeat match goal with |- context [?x =? ?y] => destruct (Z.eqb_spec x y) end; lia.
Qed.

Lemma ind_pred_self (N i a : Z) :
  2 <= N -> 0 <= i < N -> ind i a * ind ((i - 1) mod N) a = 0.
Proof.
  intros HN Hi. rewrite pred_mod_cases by assumption. unfold ind.
  destruct (Z.eqb_spec i 0);
    repeat match goal with |- context [?x =? ?y] => destruct (Z.eqb_spec x y) end; lia.
Qed.

Lemma ind_pick (f : Z -> Z -> Z) (x y a b : Z) :
  ind x a * ind y b * f x y = ind x a * ind y b * f a b.
Proof.
  unfold ind. destruct (Z.eqb_spec x a), (Z.eqb_spec y b); subst; lia.
Qed.

(** The algebra of one contribution when the spins are rescaled by
    [1 - 2 d], [d] being the indicator of the flipped cell. *)
Lemma flip_algebra (X Y1 Y2 Y3 Y4 F d0 d1 d2 d3 d4 : Z) :
  d0 * d1 = 0 -> d0 * d2 = 0 -> d0 * d3 = 0 -> d0 * d4 = 0 ->
  d1 * Y1 = d1 * F -> d2 * Y2 = d2 * F -> d3 * Y3 = d3 * F -> d4 * Y4 = d4 * F ->
  - (X - 2 * d0 * X) *
    ((Y1 - 2 * d1 * Y1) + (Y2 - 2 * d2 * Y2) + (Y3 - 2 * d3 * Y3) + (Y4 - 2 * d4 * Y4))
  = - X * (Y1 + Y2 + Y3 + Y4) + 2 * (d0 * (X * (Y1 + Y2 + Y3 + Y4)))
    + 2 * (d1 * (F * X)) + 2 * (d2 * (F * X)) + 2 * (d3 * (F * X)) + 2 * (d4 * (F * X)).
Proof.
  intros H1 H2 H3 H4 E1 E2 E3 E4.
  replace (- (X - 2 * d0 * X) *
    ((Y1 - 2 * d1 * Y1) + (Y2 - 2 * d2 * Y2) + (Y3 - 2 * d3 * Y3) + (Y4 - 2 * d4 * Y4)))
    with (- (X - 2 * d0 * X) *
      ((Y1 - 2 * (d1 * Y1)) + (Y2 - 2 * (d2 * Y2)) + (Y3 - 2 * (d3 * Y3)) + (Y4 - 2 * (d4 * Y4))))
    by ring.
  rewrite E1, E2, E3, E4.
  replace (- (X - 2 * d0 * X) *
    ((Y1 - 2 * (d1 * F)) + (Y2 - 2 * (d2 * F)) + (Y3 - 2 * (d3 * F)) + (Y4 - 2 * (d4 * F))))
    with (- X * (Y1 + Y2 + Y3 + Y4) + 2 * (d0 * (X * (Y1 + Y2 + Y3 + Y4)))
          + 2 * (d1 * (F * X)) + 2 * (d2 * (F * X)) + 2 * (d3 * (F * X)) + 2 * (d4 * (F * X))
          - 4 * F * X * (d0 * d1 + d0 * d2 + d0 * d3 + d0 * d4))
    by ring.
  rewrite H1, H2, H3, H4. ring.
Qed.

Section Flip.

Variables (N a0 b0 : Z) (f f' : Z -> Z -> Z).
Hypothesis HN : 2 <= N.
Hypothesis Ha : 0 <= a0 < N.
Hypothesis Hb : 0 <= b0 < N.
Hypothesis Hflip : forall i j, 0 <= i < N -> 0 <= j < N ->
  f' i j = if (i =? a0) && (j =? b0) then - f i j else f i j.

Lemma flip_scaled (i j : Z) :
  0 <= i < N -> 0 <= j < N -> f' i j = f i j - 2 * (ind i a0 * ind j b0) * f i j.
Proof.
  intros Hi Hj. rewrite Hflip by assumption. unfold ind.
  destruct (Z.eqb_spec i a0), (Z.eqb_spec j b0); simpl; lia.
Qed.

Lemma flip_term (i j : Z) :
  0 <= i < N -> 0 <= j < N ->
  - f' i j * nb4 N f' i j =
  - f i j * nb4 N f i j
  + 2 * (ind i a0 * ind j b0 * (f i j * nb4 N f i j))
  + 2 * (ind i ((a0 - 1) mod N) * ind j b0 * (f a0 b0 * f i j))
  + 2 * (ind i ((a0 + 1) mod N) * ind j b0 * (f a0 b0 * f i j))
  + 2 * (ind i a0 * ind j ((b0 - 1) mod N) * (f a0 b0 * f i j))
  + 2 * (ind i a0 * ind j ((b0 + 1) mod N) * (f a0 b0 * f i j)).
Proof.
  intros Hi Hj. assert (HN0 : 0 < N) by lia.
  pose proof (Z.mod_pos_bound (i + 1) _ HN0). pose proof (Z.mod_pos_bound (i - 1) _ HN0).
  pose proof (Z.mod_pos_bound (j + 1) _ HN0). pose proof (Z.mod_pos_bound (j - 1) _ HN0).
  unfold nb4. rewrite !flip_scaled by assumption.
  rewrite <- (ind_succ N i a0), <- (ind_pred N i a0),
          <- (ind_succ N j b0), <- (ind_pred N j b0) by assumption.
  apply flip_algebra.
  - transitivity (ind i a0 * ind ((i + 1) mod N) a0 * (ind j b0 * ind j b0)); [ring|].
    rewrite ind_succ_self by assumption. ring.
  - transitivity (ind i a0 * ind ((i - 1) mod N) a0 * (ind j b0 * ind j b0)); [ring|].
    rewrite ind_pred_self by assumption. ring.
  - transitivity (ind j b0 * ind ((j + 1) mod N) b0 * (ind i a0 * ind i a0)); [ring|].
    rewrite ind_succ_self by assumption. ring.
  - transitivity (ind j b0 * ind ((j - 1) mod N) b0 * (ind i a0 * ind i a0)); [ring|].
    rewrite ind_pred_self by assumption. ring.
  - apply ind_pick.
  - apply ind_pick.
  - apply ind_pick.
  - apply ind_pick.
Qed.

(** Negating one spin changes the sum of contributions by four times the
    spin times its neighbour sum. *)
Lemma flip_total :
  sum2 N (fun i j => - f' i j * nb4 N f' i j) =
  sum2 N (fun i j => - f i j * nb4 N f i j) + 4 * f a0 b0 * nb4 N f a0 b0.
Proof.
  assert (HN0 : 0 < N) by lia.
  pose proof (Z.mod_pos_bound (a0 + 1) _ HN0). pose proof (Z.mod_pos_bound (a0 - 1) _ HN0).
  pose proof (Z.mod_pos_bound (b0 + 1) _ HN0). pose proof (Z.mod_pos_bound (b0 - 1) _ HN0).
  erewrite sum2_ext; [| intros i j Hi Hj; apply flip_term; assumption].
  rewrite !sum2_add, !sum2_scale.
  rewrite !sum2_ind by assumption.
  unfold nb4. ring.
Qed.

End Flip.

(** ** Writing one cell *)

Lemma set_cell_square (n : nat) (a : ndarray) (i j v : Z) :
  square n a -> 0 <= i < Z.of_nat n -> 0 <= j < Z.of_nat n ->
  exists row, a !! Z.to_nat i = Some row /\
    set_cell a i j v = Some (<[Z.to_nat i := <[Z.to_nat j := v]> row]> a).
Proof.
  intros Hs Hi Hj.
  destruct (cell_of_square n a i j Hs Hi Hj) as (row & Hrow & Hlen & _ & _).
  exists row. split; [assumption|].
  destruct Hs as [Hl _]. unfold set_cell.
  rewrite norm_index_in by lia. simpl. rewrite Hrow. simpl.
  rewrite norm_index_in by lia. reflexivity.
Qed.

Lemma square_insert (n : nat) (a : ndarray) (r : nat) (row : list Z) :
  square n a -> length row = n -> square n (<[r := row]> a).
Proof.
  intros [Hl Hr] Hrow. split.
  - now rewrite length_insert.
  - apply Forall_insert; assumption.
Qed.

Lemma lattice_ok_set_cell (n : nat) (a a' : ndarray) (i j v : Z) :
  lattice_ok n a -> 0 <= i < Z.of_nat n -> 0 <= j < Z.of_nat n -> is_spin v ->
  set_cell a i j v = Some a' -> lattice_ok n a'.
Proof.
  intros [Hs Hsp] Hi Hj Hv Hset.
  destruct (set_cell_square n a i j v Hs Hi Hj) as (row & Hrow & E).
  rewrite E in Hset. injection Hset as <-.
  assert (Hlen : length row = n).
  { destruct Hs as [_ Hr]. rewrite Forall_forall in Hr. apply Hr.
    eapply list_elem_of_lookup_2; eauto. }
  split.
  - apply square_insert; [assumption|]. now rewrite length_insert.
  - apply Forall_insert; [assumption|]. apply Forall_insert; [|assumption].
    rewrite Forall_forall in Hsp. apply Hsp. eapply list_elem_of_lookup_2; eauto.
Qed.

Lemma cell_set_cell (n : nat) (a a' : ndarray) (i j v x y : Z) :
  square n a -> 0 <= i < Z.of_nat n -> 0 <= j < Z.of_nat n ->
  set_cell a i j v = Some a' ->
  0 <= x < Z.of_nat n -> 0 <= y < Z.of_nat n ->
  cell a' x y = if (x =? i) && (y =? j) then v else cell a x y.
Proof.
  intros Hs Hi Hj Hset Hx Hy.
  destruct (set_cell_square n a i j v Hs Hi Hj) as (row & Hrow & E).
  rewrite E in Hset. injection Hset as <-.
  assert (Hlen : length row = n).
  { destruct Hs as [_ Hr]. rewrite Forall_forall in Hr. apply Hr.
    eapply list_elem_of_lookup_2; eauto. }
  assert (Hs' : square n (<[Z.to_nat i := <[Z.to_nat j := v]> row]> a)).
  { apply square_insert; [assumption|]. now rewrite length_insert. }
  destruct (cell_of_square n _ x y Hs' Hx Hy) as (row' & Hrow' & _ & E' & _).
  destruct (cell_of_square n a x y Hs Hx Hy) as (row0 & Hrow0 & _ & E0 & _).
  unfold cell. rewrite E', E0.
  destruct Hs as [Hl _].
  destruct (Z.eqb_spec x i) as [->|Hne]; simpl.
  - rewrite list_lookup_insert_eq in Hrow' by lia. injection Hrow' as <-.
    rewrite Hrow in Hrow0. injection Hrow0 as <-.
    destruct (Z.eqb_spec y j) as [->|Hne'].
    + rewrite list_lookup_insert_eq by lia. reflexivity.
    + rewrite list_lookup_insert_ne by lia. reflexivity.
  - rewrite list_lookup_insert_ne in Hrow' by lia.
    rewrite Hrow0 in Hrow'. injection Hrow' as <-. reflexivity.
Qed.

Lemma setitem_ok (l : loc) (a a' : ndarray) (w : world) (i j v : Z) :
  heap w !! l = Some a -> set_cell a i j v = Some a' ->
  setitem l i j v w =
    Ok (tt, World (<[l := a']> (heap w)) (tape w) (cursor w) (log w)).
Proof.
  intros Hl Hset. unfold setitem. rewrite (bind_run _ _ _ _ _ (load_ok _ _ _ Hl)).
  now rewrite Hset.
Qed.

Lemma energy_sum_sum2 (n : nat) (a : ndarray) :
  energy_sum n a =
  sum2 (Z.of_nat n) (fun i j => - cell a i j * nb4 (Z.of_nat n) (cell a) i j).
Proof. reflexivity. Qed.

(** The effect on the evaluator's sum of negating the spin at [(i, j)]. *)
Lemma energy_sum_flip (n : nat) (a a' : ndarray) (i j : Z) :
  (2 <= n)%nat -> square n a -> 0 <= i < Z.of_nat n -> 0 <= j < Z.of_nat n ->
  set_cell a i j (cell a i j * -1) = Some a' ->
  energy_sum n a' = energy_sum n a + 4 * cell a i j * nbsum a (Z.of_nat n) i j.
Proof.
  intros Hn Hs Hi Hj Hset. rewrite !energy_sum_sum2.
  apply flip_total; try lia.
  intros x y Hx Hy. rewrite (cell_set_cell n a a' i j (cell a i j * -1) x y) by assumption.
  destruct ((x =? i) && (y =? j)) eqn:E; [|reflexivity].
  apply andb_prop in E as [->%Z.eqb_eq ->%Z.eqb_eq]. lia.
Qed.

(** * The energy evaluator *)

Lemma square_replicate (n : nat) (row : list Z) :
  length row = n -> square n (replicate n row).
Proof.
  intros H. split; [apply length_replicate|].
  apply Forall_forall. intros x Hx. apply elem_of_replicate in Hx as [-> _]. exact H.
Qed.

Lemma cell_replicate (n : nat) (row : list Z) (v i j : Z) :
  length row = n -> row !! Z.to_nat j = Some v ->
  0 <= i < Z.of_nat n -> 0 <= j < Z.of_nat n ->
  cell (replicate n row) i j = v.
Proof.
  intros Hlen Hv Hi Hj.
  destruct (cell_of_square n _ i j (square_replicate n row Hlen) Hi Hj)
    as (row' & Hrow' & _ & E & _).
  apply lookup_replicate in Hrow' as [-> _].
  unfold cell. now rewrite E, Hv.
Qed.

Lemma half_inject (z : Z) : (inject_Z (2 * z) / 2 == inject_Z z)%Q.
Proof. unfold Qeq, Qdiv, Qmult, Qinv, inject_Z. simpl. lia. Qed.

(** ** One turn of the torus *)

Lemma range_snoc (k : nat) :
  range (Z.of_nat (S k)) = range (Z.of_nat k) ++ [Z.of_nat k].
Proof.
  unfold range. rewrite !Nat2Z.id, seq_S, map_app. reflexivity.
Qed.

Lemma range_cons (k : nat) :
  range (Z.of_nat (S k)) = 0 :: map Z.succ (range (Z.of_nat k)).
Proof.
  unfold range. rewrite !Nat2Z.id. cbn [seq map]. f_equal.
  rewrite <- seq_shift, !map_map. apply map_ext. intros x. lia.
Qed.

Lemma sumZ_app (f : Z -> Z) (xs ys : list Z) :
  sumZ f (xs ++ ys) = sumZ f xs + sumZ f ys.
Proof. induction xs as [|x xs IH]; simpl; [reflexivity|]. rewrite IH. lia. Qed.

Lemma sumZ_cons (f : Z -> Z) (x : Z) (xs : list Z) :
  sumZ f (x :: xs) = f x + sumZ f xs.
Proof. reflexivity. Qed.

Lemma sumZ_nil (f : Z -> Z) : sumZ f [] = 0.
Proof. reflexivity. Qed.

Lemma sumZ_map (f : Z -> Z) (h : Z -> Z) (xs : list Z) :
  sumZ f (map h xs) = sumZ (fun x => f (h x)) xs.
Proof. induction xs as [|x xs IH]; simpl; [reflexivity|]. now rewrite IH. Qed.

(** A sum over one turn of the torus does not depend on where the turn
    starts. *)
Lemma sumZ_shift (n : nat) (f : Z -> Z) :
  sumZ (fun i => f ((i + 1) mod Z.of_nat n)) (range (Z.of_nat n)) =
  sumZ f (range (Z.of_nat n)).
Proof.
  destruct n as [|k]; [reflexivity|].
  rewrite range_snoc at 1. rewrite range_cons.
  rewrite sumZ_app, sumZ_cons, sumZ_cons, sumZ_nil, sumZ_map.
  replace (Z.of_nat k + 1) with (Z.of_nat (S k)) by lia.
  rewrite Z_mod_same_full.
  assert (E : sumZ (fun i => f ((i + 1) mod Z.of_nat (S k))) (range (Z.of_nat k)) =
              sumZ (fun x => f (Z.succ x)) (range (Z.of_nat k))).
  { apply sumZ_ext. intros i Hi. apply in_range in Hi.
    rewrite Z.mod_small by lia. f_equal. }
  rewrite E. lia.
Qed.

Lemma succ_pred_mod (N i : Z) : 0 <= i < N -> ((i + 1) mod N - 1) mod N = i.
Proof.
  intros H. rewrite succ_mod_cases by assumption.
  destruct (Z.eqb_spec (i + 1) N) as [E|E].
  - rewrite pred_mod_cases by lia. simpl. lia.
  - rewrite pred_mod_cases by lia. destruct (Z.eqb_spec (i + 1) 0); lia.
Qed.

(** Every cell meets each of its four neighbours once in the evaluator's
    loops, so every bond of the torus is met twice. *)
Lemma energy_sum_bonds (n : nat) (a : ndarray) :
  energy_sum n a = - (2 * bond_sum n a).
Proof.
  set (N := Z.of_nat n).
  set (A := sum2 N (fun i j => cell a i j * cell a ((i + 1) mod N) j)).
  set (C := sum2 N (fun i j => cell a i j * cell a i ((j + 1) mod N))).
  assert (HB : sum2 N (fun i j => cell a i j * cell a ((i - 1) mod N) j) = A).
  { unfold A, sum2, N.
    rewrite <- (sumZ_shift n (fun i => sumZ (fun j => cell a i j * cell a ((i - 1) mod Z.of_nat n) j)
                                           (range (Z.of_nat n)))).
    apply sumZ_ext. intros i Hi. apply in_range in Hi.
    apply sumZ_ext. intros j _. rewrite succ_pred_mod by assumption. lia. }
  assert (HD : sum2 N (fun i j => cell a i j * cell a i ((j - 1) mod N)) = C).
  { unfold C, sum2, N. apply sumZ_ext. intros i _.
    rewrite <- (sumZ_shift n (fun j => cell a i j * cell a i ((j - 1) mod Z.of_nat n))).
    apply sumZ_ext. intros j Hj. apply in_range in Hj.
    rewrite succ_pred_mod by assumption. lia. }
  transitivity (- (A + sum2 N (fun i j => cell a i j * cell a ((i - 1) mod N) j) + C
                   + sum2 N (fun i j => cell a i j * cell a i ((j - 1) mod N)))).
  - unfold A, C. rewrite <- !sum2_add.
    replace (- sum2 N (fun i j =>
               cell a i j * cell a ((i + 1) mod N) j + cell a i j * cell a ((i - 1) mod N) j
               + cell a i j * cell a i ((j + 1) mod N) + cell a i j * cell a i ((j - 1) mod N)))
      with (-1 * sum2 N (fun i j =>
               cell a i j * cell a ((i + 1) mod N) j + cell a i j * cell a ((i - 1) mod N) j
               + cell a i j * cell a i ((j + 1) mod N) + cell a i j * cell a i ((j - 1) mod N)))
      by lia.
    rewrite <- sum2_scale. apply sum2_ext. intros i j _ _.
    unfold energy_term, nbsum. fold N. ring.
  - rewrite HB, HD. unfold bond_sum. fold N. rewrite sum2_add. fold A C. lia.
Qed.

(** C3.  For every N >= 1 the evaluator, run on the N x N lattice of +1
    spins, returns -2 N^2 and leaves the world as it found it.  It gets
    there by the stated method: on every N x N array it returns half the
    sum, over the cells, of minus the cell times its four neighbours on
    the torus, which is minus the sum of the products along the bonds of the
    torus, each bond taken once. *)
Theorem all_positive_energy (n : nat) (l : loc) (w : world) :
  (1 <= n)%nat ->
  heap w !! l = Some (replicate n (replicate n 1)) ->
  (exists e, calculate_energy l w = Ok (e, w) /\
             (e == inject_Z (-2 * Z.of_nat n * Z.of_nat n))%Q) /\
  (forall (l' : loc) (a : ndarray) (w' : world),
     heap w' !! l' = Some a -> square n a ->
     exists e, calculate_energy l' w' = Ok (e, w') /\
       (e == inject_Z (sum2 (Z.of_nat n) (fun i j => (
                 - cell a i j *
                   (cell a ((i + 1) mod Z.of_nat n) j + cell a ((i - 1) mod Z.of_nat n) j +
                    cell a i ((j + 1) mod Z.of_nat n) + cell a i ((j - 1) mod Z.of_nat n)))%Z))
             / 2)%Q /\
       (e == inject_Z (- bond_sum n a))%Q).
Proof.
  intros Hn Hl.
  pose proof (square_replicate n (replicate n 1) (length_replicate _ _)) as Hs.
  split.
  - eexists. split; [eapply calculate_energy_square; eauto|].
    assert (E : energy_sum n (replicate n (replicate n 1))
                = 2 * (-2 * Z.of_nat n * Z.of_nat n)).
    { unfold energy_sum.
      rewrite sumZ_ext with (g := fun _ => -4 * Z.of_nat n).
      - rewrite sumZ_const, length_range. lia.
      - intros i Hi. apply in_range in Hi.
        rewrite sumZ_ext with (g := fun _ => -4).
        + rewrite sumZ_const, length_range. lia.
        + intros j Hj. apply in_range in Hj.
          assert (Hn0 : 0 < Z.of_nat n) by lia.
          pose proof (Z.mod_pos_bound (i + 1) _ Hn0). pose proof (Z.mod_pos_bound (i - 1) _ Hn0).
          pose proof (Z.mod_pos_bound (j + 1) _ Hn0). pose proof (Z.mod_pos_bound (j - 1) _ Hn0).
          unfold energy_term, nbsum.
          rewrite !(cell_replicate n (replicate n 1) 1)
            by (try apply length_replicate; try (apply lookup_replicate_2; lia); lia).
          reflexivity. }
    rewrite E. apply half_inject.
  - intros l' a w' Hl' Hsq.
    exists (inject_Z (energy_sum n a) / 2)%Q.
    split; [eapply calculate_energy_square; eauto|].
    split; [reflexivity|].
    rewrite energy_sum_bonds.
    replace (- (2 * bond_sum n a)) with (2 * - bond_sum n a) by lia.
    apply half_inject.
Qed.

Lemma all_positive_energy_witness :
  (exists e, calculate_energy 0%nat (World [replicate 3 (replicate 3 1)] (fun _ => 0%N) 0 [])
             = Ok (e, World [replicate 3 (replicate 3 1)] (fun _ => 0%N) 0 []) /\
             (e == inject_Z (-2 * Z.of_nat 3 * Z.of_nat 3))%Q) /\
  (forall (l' : loc) (a : ndarray) (w' : world),
     heap w' !! l' = Some a -> square 3 a ->
     exists e, calculate_energy l' w' = Ok (e, w') /\
       (e == inject_Z (sum2 (Z.of_nat 3) (fun i j => (
                 - cell a i j *
                   (cell a ((i + 1) mod Z.of_nat 3) j + cell a ((i - 1) mod Z.of_nat 3) j +
                    cell a i ((j + 1) mod Z.of_nat 3) + cell a i ((j - 1) mod Z.of_nat 3)))%Z))
             / 2)%Q /\
       (e == inject_Z (- bond_sum 3 a))%Q).
Proof.
  apply (all_positive_energy 3 0%nat (World [replicate 3 (replicate 3 1)] (fun _ => 0%N) 0 []));
    [lia | reflexivity].
Defined.

(** Decides [square] and [lattice_ok] on a literal grid. *)
Ltac solve_lattice_ok :=
  repeat first [ reflexivity | apply Forall_nil_2 | apply Forall_cons_2
               | (unfold is_spin; lia) | split ].

Lemma half_diff (s d : Z) :
  (inject_Z (s + 4 * d) / 2 - inject_Z s / 2 == inject_Z (2 * d))%Q.
Proof. unfold Qeq, Qminus, Qplus, Qopp, Qdiv, Qmult, Qinv, inject_Z. simpl. lia. Qed.

(** C2, amended.  On a lattice with at least two rows, for every cell
    (i, j): with [spin] the cell read by the sweep and [neighbors] the sum of
    its four toroidal neighbours, 2 * spin * neighbors is exactly the energy
    the evaluator returns after the cell is negated in place, minus the
    energy it returns before. *)
Theorem delta_E_is_energy_change (n : nat) (l : loc) (a : ndarray) (w : world) (i j : Z) :
  (2 <= n)%nat ->
  heap w !! l = Some a -> lattice_ok n a ->
  0 <= i < Z.of_nat n -> 0 <= j < Z.of_nat n ->
  exists spin neighbors e w' e',
    getitem l i j w = Ok (spin, w) /\
    neighbors_at l (Z.of_nat n) i j w = Ok (neighbors, w) /\
    calculate_energy l w = Ok (e, w) /\
    setitem l i j (spin * -1) w = Ok (tt, w') /\
    calculate_energy l w' = Ok (e', w') /\
    (e' - e == inject_Z (2 * spin * neighbors))%Q.
Proof.
  intros Hn Hl [Hs _] Hi Hj.
  destruct (set_cell_square n a i j (cell a i j * -1) Hs Hi Hj) as (row & Hrow & Hset).
  assert (Hlen : length row = n).
  { destruct Hs as [_ Hr]. rewrite Forall_forall in Hr. apply Hr.
    eapply list_elem_of_lookup_2; eauto. }
  set (a' := <[Z.to_nat i := <[Z.to_nat j := cell a i j * -1]> row]> a) in *.
  assert (Hs' : square n a').
  { apply square_insert; [assumption|]. now rewrite length_insert. }
  set (w' := World (<[l := a']> (heap w)) (tape w) (cursor w) (log w)).
  assert (Hl' : heap w' !! l = Some a').
  { simpl. apply list_lookup_insert_eq. eapply lookup_lt_Some; eauto. }
  exists (cell a i j), (nbsum a (Z.of_nat n) i j),
    (inject_Z (energy_sum n a) / 2)%Q, w', (inject_Z (energy_sum n a') / 2)%Q.
  repeat split.
  - eapply getitem_square; eauto.
  - eapply neighbors_at_square; eauto.
  - eapply calculate_energy_square; eauto.
  - eapply setitem_ok; eauto.
  - eapply calculate_energy_square; eauto.
  - rewrite (energy_sum_flip n a a' i j Hn Hs Hi Hj Hset).
    replace (4 * cell a i j * nbsum a (Z.of_nat n) i j)
      with (4 * (cell a i j * nbsum a (Z.of_nat n) i j)) by ring.
    replace (2 * cell a i j * nbsum a (Z.of_nat n) i j)
      with (2 * (cell a i j * nbsum a (Z.of_nat n) i j)) by ring.
    apply half_diff.
Qed.

Lemma delta_E_is_energy_change_witness :
  exists spin neighbors e w' e',
    getitem 0%nat 0 1 (World [[[1; -1]; [1; 1]]] (fun _ => 0%N) 0 []) =
      Ok (spin, World [[[1; -1]; [1; 1]]] (fun _ => 0%N) 0 []) /\
    neighbors_at 0%nat (Z.of_nat 2) 0 1 (World [[[1; -1]; [1; 1]]] (fun _ => 0%N) 0 []) =
      Ok (neighbors, World [[[1; -1]; [1; 1]]] (fun _ => 0%N) 0 []) /\
    calculate_energy 0%nat (World [[[1; -1]; [1; 1]]] (fun _ => 0%N) 0 []) =
      Ok (e, World [[[1; -1]; [1; 1]]] (fun _ => 0%N) 0 []) /\
    setitem 0%nat 0 1 (spin * -1) (World [[[1; -1]; [1; 1]]] (fun _ => 0%N) 0 []) =
      Ok (tt, w') /\
    calculate_energy 0%nat w' = Ok (e', w') /\
    (e' - e == inject_Z (2 * spin * neighbors))%Q.
Proof.
  apply (delta_E_is_energy_change 2 0%nat [[1; -1]; [1; 1]]
           (World [[[1; -1]; [1; 1]]] (fun _ => 0%N) 0 []) 0 1).
  - lia.
  - reflexivity.
  - solve_lattice_ok.
  - lia.
  - lia.
Defined.

(** C2 as stated fails on the 1 x 1 lattice, where the cell is its own
    neighbour four times over: the formula gives 8, the energy is -2 before
    and after the flip. *)
Lemma delta_E_not_energy_change_1x1 :
  getitem 0%nat 0 0 (World [[[1]]] (fun _ => 0%N) 0 []) =
    Ok (1, World [[[1]]] (fun _ => 0%N) 0 []) /\
  neighbors_at 0%nat 1 0 0 (World [[[1]]] (fun _ => 0%N) 0 []) =
    Ok (4, World [[[1]]] (fun _ => 0%N) 0 []) /\
  calculate_energy 0%nat (World [[[1]]] (fun _ => 0%N) 0 []) =
    Ok ((-4 # 2)%Q, World [[[1]]] (fun _ => 0%N) 0 []) /\
  setitem 0%nat 0 0 (1 * -1) (World [[[1]]] (fun _ => 0%N) 0 []) =
    Ok (tt, World [[[-1]]] (fun _ => 0%N) 0 []) /\
  calculate_energy 0%nat (World [[[-1]]] (fun _ => 0%N) 0 []) =
    Ok ((-4 # 2)%Q, World [[[-1]]] (fun _ => 0%N) 0 []) /\
  ~ (((-4 # 2) - (-4 # 2)) == inject_Z (2 * 1 * 4))%Q.
Proof.
  repeat split; try reflexivity. intros H. discriminate H.
Qed.

(** ** Reading without writing *)

Section Agree.

(** Two runs, each with its own world and its own reference, that see the
    same array behind the reference. *)
Variables (l1 l2 : loc) (w1 w2 : world).
Hypothesis Hsame : heap w1 !! l1 = heap w2 !! l2.

Lemma agree_ret {A} (a : A) : agree w1 w2 (mret a) (mret a).
Proof. unfold agree. rewrite !ret_unfold. auto. Qed.

Lemma agree_raise {A} (e : exn) : agree w1 w2 (raise e : M A) (raise e).
Proof. reflexivity. Qed.

Lemma agree_bind {A B} (m1 m2 : M A) (f1 f2 : A -> M B) :
  agree w1 w2 m1 m2 -> (forall a, agree w1 w2 (f1 a) (f2 a)) ->
  agree w1 w2 (m1 ≫= f1) (m2 ≫= f2).
Proof.
  unfold agree. intros Hm Hf. rewrite !bind_unfold.
  destruct (m1 w1) as [[a1 w1']|e1], (m2 w2) as [[a2 w2']|e2]; try contradiction.
  - destruct Hm as (-> & -> & ->). apply Hf.
  - assumption.
Qed.

Lemma agree_foldM {A S} (body1 body2 : A -> S -> M S) (xs : list A) :
  (forall x s, agree w1 w2 (body1 x s) (body2 x s)) ->
  forall s, agree w1 w2 (foldM body1 xs s) (foldM body2 xs s).
Proof.
  intros Hb. induction xs as [|x xs IH]; intros s; simpl.
  - apply agree_ret.
  - apply agree_bind; [apply Hb | apply IH].
Qed.

Lemma agree_load : agree w1 w2 (load l1) (load l2).
Proof.
  unfold agree, load. rewrite Hsame. destruct (heap w2 !! l2); auto.
Qed.

Lemma agree_shape0 : agree w1 w2 (shape0 l1) (shape0 l2).
Proof. apply agree_bind; [apply agree_load | intros a; apply agree_ret]. Qed.

Lemma agree_getitem (i j : Z) : agree w1 w2 (getitem l1 i j) (getitem l2 i j).
Proof.
  apply agree_bind; [apply agree_load|]. intros a.
  destruct (cell_of a i j); [apply agree_ret | apply agree_raise].
Qed.

Lemma agree_neighbors_at (N i j : Z) :
  agree w1 w2 (neighbors_at l1 N i j) (neighbors_at l2 N i j).
Proof.
  repeat (apply agree_bind; [apply agree_getitem | intros ?]). apply agree_ret.
Qed.

Lemma agree_calculate_energy : agree w1 w2 (calculate_energy l1) (calculate_energy l2).
Proof.
  apply agree_bind; [apply agree_shape0 | intros N].
  apply agree_bind; [| intros e; apply agree_ret].
  apply agree_foldM. intros i e. apply agree_foldM. intros j e'.
  apply agree_bind; [apply agree_getitem | intros spin].
  apply agree_bind; [apply agree_neighbors_at | intros nb]. apply agree_ret.
Qed.

End Agree.

(** C10.  The evaluator is read-only and deterministic: run in two worlds on
    references that hold equal lattices, it either returns the same value in
    both and leaves each world exactly as it was (every cell of every array,
    the random stream and the log), or raises the same exception in both. *)
Theorem calculate_energy_frame (l1 l2 : loc) (w1 w2 : world) :
  heap w1 !! l1 = heap w2 !! l2 ->
  match calculate_energy l1 w1, calculate_energy l2 w2 with
  | Ok (e1, w1'), Ok (e2, w2') => e1 = e2 /\ w1' = w1 /\ w2' = w2
  | Raise x1, Raise x2 => x1 = x2
  | _, _ => False
  end.
Proof. intros H. exact (agree_calculate_energy l1 l2 w1 w2 H). Qed.

Lemma calculate_energy_frame_witness :
  match calculate_energy 0%nat (World [[[1; -1]; [1; 1]]] (fun _ => 0%N) 0 []),
        calculate_energy 1%nat
          (World [[[1]]; [[1; -1]; [1; 1]]] (fun _ => 5%N) 7 [RuntimeWarning InvalidValue])
  with
  | Ok (e1, w1'), Ok (e2, w2') =>
      e1 = e2 /\ w1' = World [[[1; -1]; [1; 1]]] (fun _ => 0%N) 0 [] /\
      w2' = World [[[1]]; [[1; -1]; [1; 1]]] (fun _ => 5%N) 7 [RuntimeWarning InvalidValue]
  | Raise x1, Raise x2 => x1 = x2
  | _, _ => False
  end.
Proof.
  apply (calculate_energy_frame 0%nat 1%nat
           (World [[[1; -1]; [1; 1]]] (fun _ => 0%N) 0 [])
           (World [[[1]]; [[1; -1]; [1; 1]]] (fun _ => 5%N) 7 [RuntimeWarning InvalidValue])).
  reflexivity.
Defined.

(** * Float arithmetic *)

Lemma digits2_pos_bounds (p : positive) :
  2 ^ (Z.pos (digits2_pos p) - 1) <= Z.pos p < 2 ^ Z.pos (digits2_pos p).
Proof.
  induction p as [p IH|p IH|]; cbn [digits2_pos].
  - rewrite Pos2Z.inj_succ.
    replace (Z.succ (Z.pos (digits2_pos p)) - 1) with (Z.succ (Z.pos (digits2_pos p) - 1)) by lia.
    rewrite !Z.pow_succ_r by lia. lia.
  - rewrite Pos2Z.inj_succ.
    replace (Z.succ (Z.pos (digits2_pos p)) - 1) with (Z.succ (Z.pos (digits2_pos p) - 1)) by lia.
    rewrite !Z.pow_succ_r by lia. lia.
  - simpl. lia.
Qed.

(** A number below [2 ^ b] has at most [b] binary digits. *)
Lemma Zdigits2_le (m b : Z) : 0 <= m < 2 ^ b -> 0 <= b -> 0 <= Zdigits2 m <= b.
Proof.
  intros [H0 H1] Hb. destruct m as [|p|p]; simpl; [lia| |lia].
  pose proof (digits2_pos_bounds p) as [Hlo _].
  split; [lia|].
  destruct (Z_lt_le_dec b (Z.pos (digits2_pos p))) as [Hlt|]; [|assumption].
  exfalso. assert (2 ^ b <= 2 ^ (Z.pos (digits2_pos p) - 1))
    by (apply Z.pow_le_mono_r; lia). lia.
Qed.

Lemma iter_pos_nat {A} (f : A -> A) (p : positive) (x : A) :
  SpecFloat.iter_pos f p x = Nat.iter (Pos.to_nat p) f x.
Proof.
  revert x. induction p as [p IH|p IH|]; intros x; cbn [SpecFloat.iter_pos].
  - rewrite !IH, Pos2Nat.inj_xI.
    replace (2 * Pos.to_nat p)%nat with (Pos.to_nat p + Pos.to_nat p)%nat by lia.
    rewrite Nat.iter_succ_r, Nat.iter_add. reflexivity.
  - rewrite !IH, Pos2Nat.inj_xO.
    replace (2 * Pos.to_nat p)%nat with (Pos.to_nat p + Pos.to_nat p)%nat by lia.
    rewrite Nat.iter_add. reflexivity.
  - reflexivity.
Qed.

Lemma shr_1_nonneg (m : Z) (r s : bool) :
  0 <= m ->
  shr_1 (Build_shr_record m r s) = Build_shr_record (m / 2) (Z.odd m) (r || s).
Proof.
  intros H. rewrite <- Z.div2_div.
  destruct m as [|[p|p|]|p]; try reflexivity. lia.
Qed.

(** [k] right shifts of a non-negative mantissa: the quotient by [2 ^ k],
    and a round or sticky bit only when the division is not exact. *)
Lemma shr_iter (m0 : Z) (k : nat) (r s : bool) :
  0 <= m0 ->
  let mrs := Nat.iter k shr_1 (Build_shr_record m0 r s) in
  shr_m mrs = m0 / 2 ^ Z.of_nat k /\
  (r = false -> s = false -> shr_r mrs || shr_s mrs = true -> m0 mod 2 ^ Z.of_nat k <> 0).
Proof.
  intros H0. cbv zeta. induction k as [|k IH]; [|rewrite !Nat.iter_succ].
  - simpl. split; [now rewrite Z.div_1_r|]. intros -> ->. discriminate.
  - destruct IH as [Em Hbits].
    destruct (Nat.iter k shr_1 (Build_shr_record m0 r s)) as [m r' s'] eqn:E.
    cbn [shr_m shr_r shr_s] in *.
    assert (Hm : 0 <= m) by (subst m; apply Z.div_pos; lia).
    rewrite (shr_1_nonneg m r' s' Hm). cbn [shr_m shr_r shr_s].
    assert (Hp : 0 < 2 ^ Z.of_nat k) by (apply Z.pow_pos_nonneg; lia).
    replace (Z.of_nat (S k)) with (Z.of_nat k + 1) by lia.
    rewrite Z.pow_add_r by lia. change (2 ^ 1) with 2.
    split.
    + subst m. rewrite Z.div_div by lia. reflexivity.
    + intros Hr Hs Hb Hdiv.
      apply Z.mod_divide in Hdiv; [|lia]. destruct Hdiv as [q Hq].
      apply orb_prop in Hb as [Hodd|Hold].
      * subst m. rewrite Hq in Hodd.
        replace (q * (2 ^ Z.of_nat k * 2)) with (2 * q * 2 ^ Z.of_nat k) in Hodd by ring.
        rewrite Z.div_mul in Hodd by lia.
        rewrite Z.odd_mul in Hodd. discriminate.
      * apply (Hbits Hr Hs Hold). rewrite Hq.
        replace (q * (2 ^ Z.of_nat k * 2)) with (2 * q * 2 ^ Z.of_nat k) by ring.
        apply Z.mod_mul. lia.
Qed.

Lemma round_nearest_even_le (m : Z) (l : location) :
  m <= round_nearest_even m l <= m + 1.
Proof.
  destruct l as [|[]]; simpl; try lia. destruct (Z.even m); lia.
Qed.

Lemma round_nearest_even_exact (m : Z) (r s : bool) :
  r || s = false ->
  round_nearest_even m (loc_of_shr_record (Build_shr_record m r s)) = m.
Proof. destruct r, s; simpl; congruence. Qed.

Lemma fexp_64 (e : Z) : fexp 53 1024 e = fexp64 e.
Proof. reflexivity. Qed.

(** One alignment step on a non-negative mantissa. *)
Lemma shr_fexp_nonneg (m e : Z) (l : location) :
  0 <= m ->
  let '(mrs, e1) := shr_fexp 53 1024 m e l in
  0 <= shr_m mrs /\
  0 <= round_nearest_even (shr_m mrs) (loc_of_shr_record mrs).
Proof.
  intros Hm. unfold shr_fexp, shr.
  assert (H0 : forall mrs, 0 <= shr_m mrs ->
            0 <= shr_m mrs /\ 0 <= round_nearest_even (shr_m mrs) (loc_of_shr_record mrs)).
  { intros mrs H. split; [assumption|].
    pose proof (round_nearest_even_le (shr_m mrs) (loc_of_shr_record mrs)). lia. }
  assert (Hinit : shr_m (shr_record_of_loc m l) = m) by (destruct l as [|[]]; reflexivity).
  destruct (fexp 53 1024 (Zdigits2 m + e) - e) as [|p|p].
  - apply H0. now rewrite Hinit.
  - apply H0. rewrite iter_pos_nat.
    destruct (shr_record_of_loc m l) as [m' r s] eqn:E. cbn [shr_m] in Hinit. subst m'.
    destruct (shr_iter m (Pos.to_nat p) r s Hm) as [-> _].
    apply Z.div_pos; [assumption|]. apply Z.pow_pos_nonneg; lia.
  - apply H0. now rewrite Hinit.
Qed.

(** Rounding a non-negative number gives a zero, a finite number or an
    infinity of the sign asked for. *)
Lemma binary_round_aux_sign (s : bool) (m e : Z) (l : location) :
  0 <= m ->
  binary_round_aux 53 1024 s m e l = S754_zero s \/
  binary_round_aux 53 1024 s m e l = S754_infinity s \/
  exists m' e', binary_round_aux 53 1024 s m e l = S754_finite s m' e'.
Proof.
  intros Hm. unfold binary_round_aux.
  pose proof (shr_fexp_nonneg m e l Hm) as H1.
  destruct (shr_fexp 53 1024 m e l) as [mrs' e'].
  destruct H1 as [_ H1].
  pose proof (shr_fexp_nonneg _ e' loc_Exact H1) as H2.
  destruct (shr_fexp 53 1024 _ e' loc_Exact) as [mrs'' e''].
  destruct H2 as [H2 _].
  destruct (shr_m mrs'') as [|p|p]; [now left| |lia].
  destruct (e'' <=? 1024 - 53); [right; right; eauto | right; now left].
Qed.

(** Rounding [m * 2 ^ e], for [e <= 0], when the number is at most an
    integer [V] below [2 ^ 53]: the result is at most [V] too. *)
Lemma shr_fexp_le (m e V : Z) :
  0 <= m -> e <= 0 -> 0 <= V < 2 ^ 53 -> m <= V * 2 ^ (- e) ->
  let '(mrs, e1) := shr_fexp 53 1024 m e loc_Exact in
  e <= e1 <= 0 /\ 0 <= shr_m mrs /\
  shr_m mrs <= V * 2 ^ (- e1) /\
  round_nearest_even (shr_m mrs) (loc_of_shr_record mrs) <= V * 2 ^ (- e1).
Proof.
  intros Hm He HV Hle. unfold shr_fexp, shr. rewrite fexp_64. cbn [shr_record_of_loc].
  assert (Hd : Zdigits2 m + e <= 53).
  { assert (Hlt : m < 2 ^ (53 - e)).
    { replace (53 - e) with (53 + - e) by lia. rewrite Z.pow_add_r by lia.
      assert (0 < 2 ^ (- e)) by (apply Z.pow_pos_nonneg; lia). nia. }
    pose proof (Zdigits2_le m (53 - e) (conj Hm Hlt)). lia. }
  destruct (fexp64 (Zdigits2 m + e) - e) as [|p|p] eqn:Ek.
  - cbn [shr_m loc_of_shr_record round_nearest_even]. repeat split; lia.
  - set (k := Z.pos p) in *.
    assert (Hk : 0 < k) by (unfold k; lia).
    assert (He1 : e + k <= 0) by (unfold fexp64 in Ek; lia).
    rewrite iter_pos_nat.
    destruct (shr_iter m (Pos.to_nat p) false false Hm) as [Em Hbits].
    rewrite positive_nat_Z in Em, Hbits. fold k in Em, Hbits.
    destruct (Nat.iter (Pos.to_nat p) shr_1 _) as [m1 r1 s1]. cbn [shr_m shr_r shr_s] in *.
    assert (Hp : 0 < 2 ^ k) by (apply Z.pow_pos_nonneg; lia).
    assert (Hsplit : V * 2 ^ (- e) = V * 2 ^ (- (e + k)) * 2 ^ k).
    { rewrite <- Z.mul_assoc, <- Z.pow_add_r by lia. do 2 f_equal. lia. }
    assert (Hm1 : m1 <= V * 2 ^ (- (e + k))).
    { subst m1. apply Z.div_le_upper_bound; [lia|]. lia. }
    split; [lia|]. split; [subst m1; apply Z.div_pos; lia|]. split; [exact Hm1|].
    destruct (r1 || s1) eqn:Eb.
    + pose proof (round_nearest_even_le m1 (loc_of_shr_record (Build_shr_record m1 r1 s1))).
      assert (m1 < V * 2 ^ (- (e + k))); [|lia].
      subst m1. apply Z.div_lt_upper_bound; [lia|].
      assert (m <> V * 2 ^ (- (e + k)) * 2 ^ k); [|lia].
      intros Heq. apply (Hbits eq_refl eq_refl eq_refl).
      rewrite Heq. apply Z.mod_mul. lia.
    + rewrite round_nearest_even_exact by assumption. exact Hm1.
  - cbn [shr_m loc_of_shr_record round_nearest_even]. repeat split; lia.
Qed.

Lemma binary_round_aux_le (s : bool) (m e V : Z) :
  0 <= m -> e <= 0 -> 0 <= V < 2 ^ 53 -> m <= V * 2 ^ (- e) ->
  binary_round_aux 53 1024 s m e loc_Exact = S754_zero s \/
  exists m' e', binary_round_aux 53 1024 s m e loc_Exact = S754_finite s m' e' /\
                e' <= 0 /\ Z.pos m' <= V * 2 ^ (- e').
Proof.
  intros Hm He HV Hle. unfold binary_round_aux.
  pose proof (shr_fexp_le m e V Hm He HV Hle) as H1.
  destruct (shr_fexp 53 1024 m e loc_Exact) as [mrs' e'].
  destruct H1 as (He' & Hm' & _ & Hr').
  assert (Hr0 : 0 <= round_nearest_even (shr_m mrs') (loc_of_shr_record mrs')).
  { pose proof (round_nearest_even_le (shr_m mrs') (loc_of_shr_record mrs')). lia. }
  pose proof (shr_fexp_le _ e' V Hr0 (proj2 He') HV Hr') as H2.
  destruct (shr_fexp 53 1024 _ e' loc_Exact) as [mrs'' e''].
  destruct H2 as (He'' & Hm'' & Hle'' & _).
  destruct (shr_m mrs'') as [|p|p]; [now left| |lia].
  right. destruct (Z.leb_spec e'' (1024 - 53)); [|lia].
  exists p, e''. repeat split; lia.
Qed.

Lemma pos_iter_xO (p q : positive) : Z.pos (Pos.iter xO p q) = Z.pos p * 2 ^ Z.pos q.
Proof.
  induction q as [|q IH] using Pos.peano_ind.
  - simpl. lia.
  - rewrite Pos.iter_succ, Pos2Z.inj_succ, Z.pow_succ_r by lia.
    rewrite Pos2Z.inj_xO, IH. ring.
Qed.

(** An integer below [2 ^ 53] converts to a float that is not above it. *)
Lemma f64_of_int_le (n : Z) :
  0 <= n < 2 ^ 53 ->
  f64_of_int n = S754_zero false \/
  exists m e, f64_of_int n = S754_finite false m e /\ e <= 0 /\ Z.pos m <= n * 2 ^ (- e).
Proof.
  intros Hn. destruct n as [|p|p]; [now left| |lia].
  unfold f64_of_int, binary_normalize, binary_round.
  pose proof (Zdigits2_le (Z.pos p) 53 Hn ltac:(lia)) as Hd. cbn [Zdigits2] in Hd.
  rewrite fexp_64. unfold shl_align, fexp64.
  replace (Z.pos (digits2_pos p) + 0) with (Z.pos (digits2_pos p)) by lia.
  rewrite Z.max_l by lia.
  destruct (Z.pos (digits2_pos p) - 53 - 0) as [|q|q] eqn:Eq.
  - apply binary_round_aux_le; try lia.
  - lia.
  - apply binary_round_aux_le; try lia.
    rewrite pos_iter_xO. replace (- (Z.pos (digits2_pos p) - 53)) with (Z.pos q) by lia. lia.
Qed.

Lemma within_unit_finite (s : bool) (m : positive) (e : Z) :
  within_unit (S754_finite s m e) -> s = false /\ e <= 0 /\ Z.pos m <= 2 ^ (- e).
Proof.
  intros (q & E & H0 & H1). cbn [value_of] in E. injection E as <-.
  assert (Hpow : (0 < 2 ^ e)%Q) by (apply Qpower_0_lt; reflexivity).
  assert (Hs : s = false).
  { destruct s; [|reflexivity]. exfalso.
    assert (H : (0 <= inject_Z (cond_Zopp true (Z.pos m)))%Q).
    { apply (Qmult_lt_0_le_reg_r _ _ (2 ^ e)%Q Hpow). now rewrite Qmult_0_l. }
    unfold Qle in H. simpl in H. lia. }
  subst s. cbn [cond_Zopp] in *. split; [reflexivity|].
  destruct (Z_lt_le_dec 0 e) as [He|He].
  - exfalso. change (2 ^ e)%Q with (inject_Z 2 ^ e)%Q in H1.
    rewrite <- Zpower_Qpower in H1 by lia.
    assert (2 ^ 1 <= 2 ^ e) by (apply Z.pow_le_mono_r; lia).
    unfold Qle in H1. simpl in H1. nia.
  - split; [assumption|].
    replace e with (- - e) in H1 by lia.
    change (2 ^ (- - e))%Q with (inject_Z 2 ^ (- - e))%Q in H1.
    rewrite Qpower_opp, <- Zpower_Qpower in H1 by lia.
    assert (Hp : 0 < 2 ^ (- e)) by (apply Z.pow_pos_nonneg; lia).
    destruct (2 ^ (- e)) as [|P|P]; try lia.
    unfold Qle in H1. simpl in H1. lia.
Qed.

Lemma within_unit_cases (x : float64) :
  within_unit x ->
  (exists s, x = S754_zero s) \/
  exists m e, x = S754_finite false m e /\ e <= 0 /\ Z.pos m <= 2 ^ (- e).
Proof.
  intros H. destruct x as [s|s| |s m e].
  - left. eauto.
  - destruct H as (q & E & _). destruct s; discriminate.
  - destruct H as (q & E & _). discriminate.
  - right. apply within_unit_finite in H as (-> & He & Hm). eauto.
Qed.

(** The count of positive spins that a ratio of [0, 1] asks for is in
    range. *)
Lemma num_blue_bounds (N : Z) (ratio : float64) :
  N * N < 2 ^ 53 -> within_unit ratio ->
  exists nb, num_blue_of N ratio = Ok nb /\ 0 <= nb <= N * N.
Proof.
  intros HN Hr. assert (H0 : 0 <= N * N) by nia.
  unfold num_blue_of.
  destruct (f64_of_int_le (N * N) (conj H0 HN)) as [->|(mn & en & -> & Hen & Hmn)].
  - apply within_unit_cases in Hr as [[s ->]|(mr & er & -> & _)]; exists 0; split;
      try reflexivity; lia.
  - apply within_unit_cases in Hr as [[s ->]|(mr & er & -> & Her & Hmr)].
    + exists 0. split; [reflexivity | lia].
    + unfold f64_mul, SFmul. cbn [xorb].
      assert (Hp1 : 0 < 2 ^ (- en)) by (apply Z.pow_pos_nonneg; lia).
      assert (Hp2 : 0 < 2 ^ (- er)) by (apply Z.pow_pos_nonneg; lia).
      destruct (binary_round_aux_le false (Z.pos (mn * mr)) (en + er) (N * N))
        as [->|(m' & e' & -> & He' & Hm')]; try lia.
      * replace (- (en + er)) with (- en + - er) by lia. rewrite Z.pow_add_r by lia.
        rewrite Pos2Z.inj_mul. nia.
      * exists 0. split; [reflexivity | lia].
      * cbn [int_of cond_Zopp].
        destruct (Z.leb_spec 0 e').
        -- replace e' with 0 in * by lia. eexists. split; [reflexivity|]. simpl in *. lia.
        -- eexists. split; [reflexivity|].
           assert (0 < 2 ^ (- e')) by (apply Z.pow_pos_nonneg; lia).
           split; [apply Z.div_pos; lia|]. apply Z.div_le_upper_bound; lia.
Qed.

(** * The initializer *)

Lemma map_replicate {A B} (f : A -> B) (n : nat) (x : A) :
  map f (replicate n x) = replicate n (f x).
Proof. induction n as [|n IH]; simpl; [reflexivity|]. now rewrite IH. Qed.

Lemma half_bounds (N : Z) : 0 <= N -> 0 <= N / 2 <= N.
Proof.
  intros H. split; [apply Z.div_pos; lia|].
  apply Z.div_le_upper_bound; lia.
Qed.

Lemma initialize_deterministic (N : Z) (ratio : float64) (w : world) :
  0 <= N ->
  initialize_lattice N ratio false w =
    Ok (length (heap w),
        World (heap w ++ [split_grid N]) (tape w) (cursor w) (log w)).
Proof.
  intros HN. pose proof (half_bounds N HN) as Hh.
  unfold initialize_lattice, np_ones.
  destruct (Z.ltb_spec N 0); [lia|]. simpl.
  rewrite bind_unfold, ret_unfold. unfold alloc.
  rewrite map_replicate. unfold fill_prefix, split_grid.
  rewrite length_replicate, drop_replicate.
  repeat f_equal; lia.
Qed.

Lemma split_grid_row (N : Z) :
  0 <= N ->
  length (replicate (Z.to_nat (N / 2)) (-1) ++ replicate (Z.to_nat (N - N / 2)) 1)
  = Z.to_nat N.
Proof.
  intros HN. pose proof (half_bounds N HN).
  rewrite length_app, !length_replicate. lia.
Qed.

Lemma split_grid_cell (N i j : Z) :
  0 <= i < N -> 0 <= j < N ->
  cell (split_grid N) i j = if j <? N / 2 then -1 else 1.
Proof.
  intros Hi Hj. assert (HN : 0 <= N) by lia. pose proof (half_bounds N HN).
  unfold split_grid. apply cell_replicate; try lia.
  - now apply split_grid_row.
  - destruct (Z.ltb_spec j (N / 2)).
    + rewrite lookup_app_l by (rewrite length_replicate; lia).
      apply lookup_replicate_2. lia.
    + rewrite lookup_app_r by (rewrite length_replicate; lia).
      apply lookup_replicate_2. rewrite length_replicate. lia.
Qed.

(** C9.  For every N >= 1 and whatever the ratio, the deterministic mode
    allocates one new N x N array, draws nothing from the generator, and
    the array has -1 in every cell whose column is below N/2 (integer
    division) and +1 in every other cell; for N = 2 it is
    [[-1, 1], [-1, 1]]. *)
Theorem deterministic_split (N : Z) (ratio : float64) (w : world) :
  1 <= N ->
  initialize_lattice N ratio false w =
    Ok (length (heap w),
        World (heap w ++ [split_grid N]) (tape w) (cursor w) (log w)) /\
  square (Z.to_nat N) (split_grid N) /\
  (forall i j, 0 <= i < N -> 0 <= j < N ->
     cell (split_grid N) i j = if j <? N / 2 then -1 else 1) /\
  split_grid 2 = [[-1; 1]; [-1; 1]].
Proof.
  intros HN. repeat split.
  - apply initialize_deterministic. lia.
  - apply length_replicate.
  - apply Forall_forall. intros row Hrow.
    apply elem_of_replicate in Hrow as [-> _]. apply split_grid_row. lia.
  - intros i j Hi Hj. now apply split_grid_cell.
Qed.

Lemma deterministic_split_witness :
  initialize_lattice 2 (fraction 7 10) false (World [] (fun _ => 0%N) 0 []) =
    Ok (length (heap (World [] (fun _ => 0%N) 0 [])),
        World (heap (World [] (fun _ => 0%N) 0 []) ++ [split_grid 2])
          (tape (World [] (fun _ => 0%N) 0 [])) (cursor (World [] (fun _ => 0%N) 0 []))
          (log (World [] (fun _ => 0%N) 0 []))) /\
  square (Z.to_nat 2) (split_grid 2) /\
  (forall i j, 0 <= i < 2 -> 0 <= j < 2 ->
     cell (split_grid 2) i j = if j <? 2 / 2 then -1 else 1) /\
  split_grid 2 = [[-1; 1]; [-1; 1]].
Proof.
  apply (deterministic_split 2 (fraction 7 10) (World [] (fun _ => 0%N) 0 [])). lia.
Defined.

(** ** The shuffle is a permutation *)

Lemma count_occ_insert (xs : list Z) (i : nat) (old v x : Z) :
  xs !! i = Some old ->
  (count_occ Z.eq_dec (<[i := v]> xs) x + hit old x =
   count_occ Z.eq_dec xs x + hit v x)%nat.
Proof.
  revert i. induction xs as [|y xs IH]; intros [|i] H; simpl in *; try discriminate.
  - injection H as ->. unfold hit.
    destruct (Z.eq_dec v x), (Z.eq_dec old x); lia.
  - specialize (IH i H). destruct (Z.eq_dec y x); lia.
Qed.

Lemma swap_Permutation (xs : list Z) (i j : nat) : Permutation xs (swap xs i j).
Proof.
  unfold swap. destruct (xs !! i) as [a|] eqn:Ei; [|reflexivity].
  destruct (xs !! j) as [b|] eqn:Ej; [|reflexivity].
  apply (Permutation_count_occ Z.eq_dec). intros x.
  pose proof (count_occ_insert xs j b a x Ej) as H1.
  assert (Ei' : <[j := a]> xs !! i = Some a).
  { destruct (Nat.eq_dec j i) as [->|Hne].
    - apply list_lookup_insert_eq. eapply lookup_lt_Some; eauto.
    - now rewrite list_lookup_insert_ne. }
  pose proof (count_occ_insert (<[j := a]> xs) i a b x Ei') as H2.
  lia.
Qed.

Lemma shuffle_from_spec (i : nat) :
  forall (xs : list Z) (w : world),
  exists xs', shuffle_from i xs w =
                Ok (xs', World (heap w) (tape w) (cursor w + i) (log w)) /\
              Permutation xs xs'.
Proof.
  induction i as [|i IH]; intros xs w; cbn [shuffle_from].
  - exists xs. split; [|reflexivity]. rewrite ret_unfold.
    destruct w; simpl. now rewrite Nat.add_0_r.
  - erewrite bind_run by reflexivity.
    destruct (IH (swap xs (S i) (N.to_nat (tape w (cursor w)) mod S (S i)))
                 (World (heap w) (tape w) (S (cursor w)) (log w)))
      as (xs' & E & P).
    exists xs'. split.
    + rewrite E. simpl. repeat f_equal. lia.
    + etransitivity; [apply swap_Permutation | exact P].
Qed.

Lemma shuffle_spec (xs : list Z) (w : world) :
  exists xs', shuffle xs w =
                Ok (xs', World (heap w) (tape w) (cursor w + (length xs - 1)) (log w)) /\
              Permutation xs xs'.
Proof. apply shuffle_from_spec. Qed.

(** ** Reshaping *)

Lemma rows_of_spec (r c : nat) :
  forall xs : list Z, length xs = (r * c)%nat ->
    length (rows_of r c xs) = r /\
    Forall (fun row => length row = c) (rows_of r c xs) /\
    concat (rows_of r c xs) = xs.
Proof.
  induction r as [|r IH]; intros xs Hlen; simpl in *.
  - repeat split; [constructor|]. symmetry. now apply length_zero_iff_nil.
  - destruct (IH (drop c xs)) as (Hl & Hr & Hc).
    { rewrite length_drop. lia. }
    repeat split.
    + now rewrite Hl.
    + constructor; [|assumption]. rewrite length_take. lia.
    + rewrite Hc. apply take_drop.
Qed.

Lemma count_occ_replicate (n : nat) (v x : Z) :
  count_occ Z.eq_dec (replicate n v) x = (n * hit v x)%nat.
Proof.
  induction n as [|n IH]; simpl; [reflexivity|]. rewrite IH. unfold hit.
  destruct (Z.eq_dec v x); lia.
Qed.

(** ** The number of positive spins *)

Lemma py_int_run (x : float64) (w : world) :
  py_int x w = match int_of x with Ok z => Ok (z, w) | Raise e => Raise e end.
Proof. destruct x as [s|s| |s m e]; reflexivity. Qed.

(** The random mode up to the shuffle: the count of positive spins is
    computed, the array built and shuffled, whatever its length. *)
Lemma initialize_random_unfold (N : Z) (ratio : float64) (nb : Z) (w : world) :
  num_blue_of N ratio = Ok nb ->
  exists spins,
    Permutation (unshuffled N nb) spins /\
    initialize_lattice N ratio true w =
      (reshape spins N N ≫= alloc)
        (World (heap w) (tape w) (cursor w + (length (unshuffled N nb) - 1)) (log w)).
Proof.
  intros Hnb.
  destruct (shuffle_spec (unshuffled N nb) w) as (spins & E & P).
  exists spins. split; [assumption|].
  unfold initialize_lattice, py_float. unfold num_blue_of in Hnb.
  destruct (f64_of_int (N * N)) as [s|s| |s m e] eqn:Ef; try discriminate;
    rewrite bind_unfold, ret_unfold, bind_unfold, py_int_run, Hnb;
    fold (unshuffled N nb); now rewrite (bind_run _ _ _ _ _ E).
Qed.

(** When Python cannot compute the count, the initializer raises what the
    conversion raises, before anything is drawn. *)
Lemma initialize_random_no_count (N : Z) (ratio : float64) (e : exn) (w : world) :
  num_blue_of N ratio = Raise e -> initialize_lattice N ratio true w = Raise e.
Proof.
  intros Hnb. unfold initialize_lattice, py_float. unfold num_blue_of in Hnb.
  destruct (f64_of_int (N * N)) as [s|s| |s m e'] eqn:Ef;
    try (injection Hnb as <-; reflexivity);
    rewrite bind_unfold, ret_unfold, bind_unfold, py_int_run, Hnb; reflexivity.
Qed.

Lemma unshuffled_spins (N nb : Z) : Forall is_spin (unshuffled N nb).
Proof.
  apply Forall_app. split; apply Forall_forall; intros x Hx;
    apply elem_of_replicate in Hx as [-> _]; [now left | now right].
Qed.

Lemma reshape_ok (xs : list Z) (N : Z) (w : world) :
  0 <= N -> N * N = Z.of_nat (length xs) ->
  reshape xs N N w = Ok (rows_of (Z.to_nat N) (Z.to_nat N) xs, w).
Proof.
  intros HN Hlen. unfold reshape.
  destruct (Z.ltb_spec N 0); [lia|]. simpl.
  destruct (Z.eqb_spec (N * N) (Z.of_nat (length xs))); [reflexivity | contradiction].
Qed.

Lemma reshape_inv (xs : list Z) (N : Z) (w w' : world) (a : ndarray) :
  reshape xs N N w = Ok (a, w') ->
  0 <= N /\ N * N = Z.of_nat (length xs) /\ w' = w /\
  a = rows_of (Z.to_nat N) (Z.to_nat N) xs.
Proof.
  unfold reshape. destruct (Z.ltb_spec N 0); simpl; [discriminate|].
  destruct (Z.eqb_spec (N * N) (Z.of_nat (length xs))); [|discriminate].
  rewrite ret_unfold. intros [= <- <-]. repeat split; assumption.
Qed.

Lemma lattice_ok_rows_of (n : nat) (xs : list Z) :
  length xs = (n * n)%nat -> Forall is_spin xs -> lattice_ok n (rows_of n n xs).
Proof.
  intros Hlen Hsp. destruct (rows_of_spec n n xs Hlen) as (Hl & Hr & Hc).
  repeat split; try assumption.
  apply Forall_concat. now rewrite Hc.
Qed.

(** The random mode returns exactly when the count can be computed and
    numpy's reshape accepts the shape; the grid then has that many positive
    spins. *)
Lemma initialize_random_ok (N : Z) (ratio : float64) (nb : Z) (w : world) :
  num_blue_of N ratio = Ok nb -> 0 <= N -> 0 <= nb <= N * N ->
  exists grid c,
    initialize_lattice N ratio true w =
      Ok (length (heap w), World (heap w ++ [grid]) (tape w) c (log w)) /\
    lattice_ok (Z.to_nat N) grid /\
    Z.of_nat (count_spin 1 grid) = nb /\
    Z.of_nat (count_spin (-1) grid) = N * N - nb.
Proof.
  intros Hnb HN Hb.
  destruct (initialize_random_unfold N ratio nb w Hnb) as (spins & P & E).
  assert (Hlen : length spins = (Z.to_nat N * Z.to_nat N)%nat).
  { rewrite <- (Permutation_length P). unfold unshuffled.
    rewrite length_app, !length_replicate. nia. }
  exists (rows_of (Z.to_nat N) (Z.to_nat N) spins). eexists.
  split; [|split; [|split]].
  - rewrite E. erewrite bind_run by (apply reshape_ok; nia). reflexivity.
  - apply lattice_ok_rows_of; [assumption|].
    eapply Permutation_Forall; [exact P | apply unshuffled_spins].
  - unfold count_spin. destruct (rows_of_spec _ _ spins Hlen) as (_ & _ & ->).
    rewrite <- (proj1 (Permutation_count_occ Z.eq_dec _ _) P). unfold unshuffled.
    rewrite count_occ_app, !count_occ_replicate. unfold hit. simpl. lia.
  - unfold count_spin. destruct (rows_of_spec _ _ spins Hlen) as (_ & _ & ->).
    rewrite <- (proj1 (Permutation_count_occ Z.eq_dec _ _) P). unfold unshuffled.
    rewrite count_occ_app, !count_occ_replicate. unfold hit. simpl. lia.
Qed.


Lemma initialize_deterministic_raises (N : Z) (ratio : float64) (w : world) :
  N < 0 -> initialize_lattice N ratio false w = Raise ValueError.
Proof.
  intros H. unfold initialize_lattice, np_ones.
  destruct (Z.ltb_spec N 0); [reflexivity | lia].
Qed.

(** C4, amended.  For every N >= 1 whose square is below 2^53 and every
    float ratio in [0, 1], the random mode allocates one N x N array with
    exactly int(N^2 * ratio) cells equal to +1, the product taken in float64
    and truncated toward zero rather than rounded, and exactly
    N^2 - int(N^2 * ratio) cells equal to -1, whatever the random stream. *)
Theorem random_init_counts (N : Z) (ratio : float64) (w : world) :
  1 <= N -> N * N < 2 ^ 53 -> within_unit ratio ->
  exists num_blue grid c,
    num_blue_of N ratio = Ok num_blue /\
    initialize_lattice N ratio true w =
      Ok (length (heap w), World (heap w ++ [grid]) (tape w) c (log w)) /\
    lattice_ok (Z.to_nat N) grid /\
    Z.of_nat (count_spin 1 grid) = num_blue /\
    Z.of_nat (count_spin (-1) grid) = N * N - num_blue.
Proof.
  intros HN Hsq Hr.
  destruct (num_blue_bounds N ratio Hsq Hr) as (nb & Hnb & Hb).
  destruct (initialize_random_ok N ratio nb w Hnb ltac:(lia) Hb)
    as (grid & c & E & Hok & H1 & H2).
  exists nb, grid, c. auto.
Qed.

Lemma random_init_counts_witness :
  exists num_blue grid c,
    num_blue_of 3 (fraction 1 3) = Ok num_blue /\
    initialize_lattice 3 (fraction 1 3) true (World [] (fun k => N.of_nat (7 * k + 3)) 0 []) =
      Ok (length (heap (World [] (fun k => N.of_nat (7 * k + 3)) 0 [])),
          World (heap (World [] (fun k => N.of_nat (7 * k + 3)) 0 []) ++ [grid])
                (tape (World [] (fun k => N.of_nat (7 * k + 3)) 0 [])) c
                (log (World [] (fun k => N.of_nat (7 * k + 3)) 0 []))) /\
    lattice_ok (Z.to_nat 3) grid /\
    Z.of_nat (count_spin 1 grid) = num_blue /\
    Z.of_nat (count_spin (-1) grid) = 3 * 3 - num_blue.
Proof.
  apply (random_init_counts 3 (fraction 1 3) (World [] (fun k => N.of_nat (7 * k + 3)) 0 [])).
  - lia.
  - lia.
  - eexists. split; [vm_compute; reflexivity|]. split; vm_compute; discriminate.
Defined.

(** C4 as stated fails for N = 1 and ratio 0.75: round(0.75) is 1, but the
    single cell is -1, so the grid has no positive cell.  The count is the
    truncated float64 product: 3 for N = 3 and ratio 1/3, 750 for N = 50 and
    ratio 0.3.  Past 2^53 the square itself is rounded on its way to a
    float: for N = 268435459 and ratio 1.0 line 24 yields N^2 + 7, more
    than the grid has cells. *)
Lemma random_init_truncates :
  initialize_lattice 1 (fraction 3 4) true (World [] (fun _ => 0%N) 0 []) =
    Ok (0%nat, World [[[-1]]] (fun _ => 0%N) 0 []) /\
  count_spin 1 [[-1]] = 0%nat /\
  py_round (f64_mul (f64_of_int (1 * 1)) (fraction 3 4)) (World [] (fun _ => 0%N) 0 []) =
    Ok (1, World [] (fun _ => 0%N) 0 []) /\
  num_blue_of 1 (fraction 3 4) = Ok 0 /\
  num_blue_of 3 (fraction 1 3) = Ok 3 /\
  num_blue_of 50 (fraction 3 10) = Ok 750 /\
  num_blue_of 268435459 (fraction 1 1) = Ok (268435459 * 268435459 + 7).
Proof. repeat split; vm_compute; reflexivity. Qed.

(** * The Metropolis updater *)

Lemma pick_range (n : nat) (r : N) : (1 <= n)%nat -> 0 <= pick n r < Z.of_nat n.
Proof. intros H. apply Z.mod_pos_bound. lia. Qed.

(** Every position of the axis is the value of some raw draw. *)
Lemma pick_onto (n : nat) (x : Z) : 0 <= x < Z.of_nat n -> pick n (Z.to_N x) = x.
Proof. intros H. unfold pick. rewrite Z2N.id by lia. apply Z.mod_small. lia. Qed.

Lemma unit_of_range (r : N) : (0 <= unit_of r)%Q /\ (unit_of r < 1)%Q.
Proof.
  unfold unit_of, Qle, Qlt. simpl.
  pose proof (Z.mod_pos_bound (Z.of_N r) (2 ^ 53) ltac:(lia)). lia.
Qed.

Lemma randint_run (n : nat) (w : world) :
  (1 <= n)%nat ->
  randint 0 (Z.of_nat n) w = Ok (pick n (tape w (cursor w)), advance 1 w).
Proof.
  intros Hn. unfold randint. destruct (Z.leb_spec (Z.of_nat n) 0); [lia|].
  erewrite bind_run by reflexivity. rewrite ret_unfold. unfold pick, advance.
  rewrite Z.sub_0_r, Z.add_0_l, Nat.add_1_r. reflexivity.
Qed.

Lemma advance_advance (j k : nat) (w : world) :
  advance j (advance k w) = advance (k + j) w.
Proof. unfold advance. simpl. f_equal. lia. Qed.

Lemma randint_pair_run (n : nat) (w : world) :
  (1 <= n)%nat ->
  randint_pair 0 (Z.of_nat n) w =
    Ok ((pick n (tape w (cursor w)), pick n (tape w (cursor w + 1))), advance 2 w).
Proof.
  intros Hn. unfold randint_pair.
  rewrite (bind_run _ _ _ _ _ (randint_run n w Hn)).
  rewrite (bind_run _ _ _ _ _ (randint_run n (advance 1 w) Hn)).
  rewrite advance_advance. reflexivity.
Qed.

Lemma selected_run (n : nat) (w : world) :
  (1 <= n)%nat ->
  selected n w = Some (pick n (tape w (cursor w)), pick n (tape w (cursor w + 1))).
Proof. intros Hn. unfold selected. now rewrite randint_pair_run. Qed.

Lemma rand_run (w : world) :
  rand w = Ok (unit_of (tape w (cursor w)), advance 1 w).
Proof.
  unfold rand. erewrite bind_run by reflexivity. rewrite ret_unfold.
  unfold advance. rewrite Nat.add_1_r. reflexivity.
Qed.

Lemma with_log_nil (w : world) : with_log [] w = w.
Proof. unfold with_log. rewrite app_nil_r. now destruct w. Qed.

Lemma with_log_app (evs1 evs2 : list event) (w : world) :
  with_log evs2 (with_log evs1 w) = with_log (evs1 ++ evs2) w.
Proof. unfold with_log. simpl. now rewrite app_assoc. Qed.

Lemma true_divide_run (x : Z) (t : float64) (w : world) :
  true_divide x t w = Ok (fst (quotient x t), with_log (snd (quotient x t)) w).
Proof.
  unfold true_divide, quotient.
  destruct (division_warning _ _ _); cbn [fst snd].
  - reflexivity.
  - rewrite bind_unfold, !ret_unfold. now rewrite with_log_nil.
Qed.

Lemma np_exp_run (np_exp_finite : Q -> float) (x : float) (w : world) :
  np_exp np_exp_finite x w =
    Ok (fst (exponential np_exp_finite x), with_log (snd (exponential np_exp_finite x)) w).
Proof.
  unfold np_exp, exponential.
  destruct x as [q| | |]; cbn [fst snd]; try (rewrite ret_unfold, with_log_nil; reflexivity).
  destruct (np_exp_finite q); cbn [fst snd];
    try (rewrite ret_unfold, with_log_nil; reflexivity).
  reflexivity.
Qed.

Lemma negate_cell_square (n : nat) (a : ndarray) (i j : Z) :
  square n a -> 0 <= i < Z.of_nat n -> 0 <= j < Z.of_nat n ->
  set_cell a i j (cell a i j * -1) = Some (negate_cell a i j).
Proof.
  intros Hs Hi Hj. unfold negate_cell.
  replace (cell a i j * -1) with (- cell a i j) by lia.
  destruct (set_cell_square n a i j (- cell a i j) Hs Hi Hj) as (row & _ & ->).
  reflexivity.
Qed.

Lemma cell_is_spin (n : nat) (a : ndarray) (i j : Z) :
  lattice_ok n a -> 0 <= i < Z.of_nat n -> 0 <= j < Z.of_nat n ->
  is_spin (cell a i j).
Proof.
  intros [Hs Hsp] Hi Hj.
  destruct (cell_of_square n a i j Hs Hi Hj) as (row & Hrow & _ & E & [v Hv]).
  unfold cell. rewrite E, Hv. simpl.
  rewrite Forall_forall in Hsp.
  specialize (Hsp row ltac:(eapply list_elem_of_lookup_2; eauto)).
  rewrite Forall_forall in Hsp. apply Hsp. eapply list_elem_of_lookup_2; eauto.
Qed.

Lemma lattice_ok_negate_cell (n : nat) (a : ndarray) (i j : Z) :
  lattice_ok n a -> 0 <= i < Z.of_nat n -> 0 <= j < Z.of_nat n ->
  lattice_ok n (negate_cell a i j).
Proof.
  intros Hok Hi Hj.
  pose proof (negate_cell_square n a i j (proj1 Hok) Hi Hj) as Hset.
  eapply lattice_ok_set_cell; try exact Hset; try assumption.
  destruct (cell_is_spin n a i j Hok Hi Hj) as [-> | ->]; [now right | now left].
Qed.

(** The cost of a flip on a valid lattice is a small integer. *)
Lemma delta_E_bounds (n : nat) (a : ndarray) (i j : Z) :
  lattice_ok n a -> 0 <= i < Z.of_nat n -> 0 <= j < Z.of_nat n ->
  - 8 <= 2 * cell a i j * nbsum a (Z.of_nat n) i j <= 8.
Proof.
  intros Hok Hi Hj. assert (Hn : 0 < Z.of_nat n) by lia.
  pose proof (Z.mod_pos_bound (i + 1) _ Hn). pose proof (Z.mod_pos_bound (i - 1) _ Hn).
  pose proof (Z.mod_pos_bound (j + 1) _ Hn). pose proof (Z.mod_pos_bound (j - 1) _ Hn).
  unfold nbsum.
  pose proof (cell_is_spin n a i j Hok Hi Hj) as Hc0.
  pose proof (cell_is_spin n a ((i + 1) mod Z.of_nat n) j Hok ltac:(lia) Hj) as Hc1.
  pose proof (cell_is_spin n a ((i - 1) mod Z.of_nat n) j Hok ltac:(lia) Hj) as Hc2.
  pose proof (cell_is_spin n a i ((j + 1) mod Z.of_nat n) Hok Hi ltac:(lia)) as Hc3.
  pose proof (cell_is_spin n a i ((j - 1) mod Z.of_nat n) Hok Hi ltac:(lia)) as Hc4.
  unfold is_spin in *. nia.
Qed.

Section Sweep.

Variable np_exp_finite : Q -> float.

Lemma metropolis_trial_run (l : loc) (n : nat) (T : float64) (a : ndarray) (w : world) :
  (1 <= n)%nat -> heap w !! l = Some a -> square n a ->
  metropolis_trial np_exp_finite l (Z.of_nat n) T w =
    Ok (tt, trial_outcome np_exp_finite l n T a w).
Proof.
  intros Hn Hl Hs. unfold metropolis_trial, trial_outcome.
  pose proof (pick_range n (tape w (cursor w)) Hn) as Hi.
  pose proof (pick_range n (tape w (cursor w + 1)) Hn) as Hj.
  set (i := pick n (tape w (cursor w))) in *.
  set (j := pick n (tape w (cursor w + 1))) in *.
  rewrite (bind_run _ _ _ _ _ (randint_pair_run n w Hn)). fold i j.
  assert (Hl2 : heap (advance 2 w) !! l = Some a) by exact Hl.
  rewrite (bind_run _ _ _ _ _ (getitem_square n l a _ i j Hl2 Hs Hi Hj)).
  rewrite (bind_run _ _ _ _ _ (neighbors_at_square n l a _ i j Hl2 Hs Hi Hj)).
  pose proof (negate_cell_square n a i j Hs Hi Hj) as Hset.
  destruct (2 * cell a i j * nbsum a (Z.of_nat n) i j <? 0).
  - rewrite bind_unfold, ret_unfold.
    rewrite (bind_run _ _ _ _ _ (getitem_square n l a _ i j Hl2 Hs Hi Hj)).
    now rewrite (setitem_ok l a _ _ i j _ Hl2 Hset).
  - rewrite bind_unfold.
    rewrite (bind_run _ _ _ _ _ (rand_run _)), advance_advance. simpl Nat.add.
    rewrite (bind_run _ _ _ _ _ (true_divide_run _ _ _)).
    rewrite (bind_run _ _ _ _ _ (np_exp_run _ _ _)), ret_unfold.
    rewrite with_log_app.
    change (tape (advance 2 w) (cursor (advance 2 w))) with (tape w (cursor w + 2)).
    unfold acceptance. cbn [fst snd].
    destruct (float_lt _ _); [|reflexivity].
    set (w' := with_log _ _).
    assert (Hl3 : heap w' !! l = Some a) by exact Hl.
    rewrite (bind_run _ _ _ _ _ (getitem_square n l a _ i j Hl3 Hs Hi Hj)).
    now rewrite (setitem_ok l a _ _ i j _ Hl3 Hset).
Qed.

End Sweep.

(** ** What a sweep leaves alone *)

Lemma frame_at_refl (l : loc) (w : world) : frame_at l w w.
Proof. repeat split; auto. exists []. now rewrite app_nil_r. Qed.

Lemma frame_at_trans (l : loc) (w1 w2 w3 : world) :
  frame_at l w1 w2 -> frame_at l w2 w3 -> frame_at l w1 w3.
Proof.
  intros (L1 & H1 & T1 & C1 & e1 & E1) (L2 & H2 & T2 & C2 & e2 & E2).
  repeat split; try congruence; try lia.
  - intros l' Hne. rewrite H2, H1 by assumption. reflexivity.
  - exists (e1 ++ e2). rewrite E2, E1. now rewrite app_assoc.
Qed.

Lemma frame_at_with_array (l : loc) (a : ndarray) (w w' : world) :
  frame_at l w w' -> frame_at l w (with_array l a w').
Proof.
  intros (L & H & T & C & E). unfold with_array. repeat split; simpl; auto.
  - now rewrite length_insert.
  - intros l' Hne. rewrite list_lookup_insert_ne by congruence. now apply H.
Qed.

Lemma frame_at_advance (l : loc) (k : nat) (evs : list event) (w : world) :
  frame_at l w (with_log evs (advance k w)).
Proof. repeat split; simpl; auto; [lia | now exists evs]. Qed.

Section SweepFacts.

Variable np_exp_finite : Q -> float.
Variables (l : loc) (n : nat) (T : float64).
Hypothesis Hn : (1 <= n)%nat.

Lemma trial_outcome_frame (a : ndarray) (w : world) :
  frame_at l w (trial_outcome np_exp_finite l n T a w).
Proof.
  unfold trial_outcome.
  destruct (_ <? 0).
  - apply frame_at_with_array.
    replace (advance 2 w) with (with_log [] (advance 2 w)).
    + apply frame_at_advance.
    + unfold with_log. simpl. now rewrite app_nil_r.
  - destruct (float_lt _ _).
    + apply frame_at_with_array, frame_at_advance.
    + apply frame_at_advance.
Qed.

Lemma trial_outcome_lattice_ok (a : ndarray) (w : world) :
  heap w !! l = Some a -> lattice_ok n a ->
  exists a', heap (trial_outcome np_exp_finite l n T a w) !! l = Some a' /\
             lattice_ok n a'.
Proof.
  intros Hl Hok.
  assert (Hlt : (l < length (heap w))%nat) by (eapply lookup_lt_Some; eauto).
  pose proof (pick_range n (tape w (cursor w)) Hn) as Hi.
  pose proof (pick_range n (tape w (cursor w + 1)) Hn) as Hj.
  pose proof (lattice_ok_negate_cell n a _ _ Hok Hi Hj) as Hneg.
  unfold trial_outcome.
  destruct (_ <? 0); [| destruct (float_lt _ _)].
  - eexists. split; [|exact Hneg]. simpl. now apply list_lookup_insert_eq.
  - eexists. split; [|exact Hneg]. simpl. now apply list_lookup_insert_eq.
  - exists a. split; [exact Hl | exact Hok].
Qed.

Lemma trials_frame (k : nat) (w w' : world) : trials np_exp_finite l n T k w w' -> frame_at l w w'.
Proof.
  induction 1 as [w|k w a w' Hl _ IH]; [apply frame_at_refl|].
  eapply frame_at_trans; [apply trial_outcome_frame | exact IH].
Qed.

Lemma trials_lattice_ok (k : nat) (w w' : world) :
  trials np_exp_finite l n T k w w' ->
  forall a, heap w !! l = Some a -> lattice_ok n a ->
  exists a', heap w' !! l = Some a' /\ lattice_ok n a'.
Proof.
  induction 1 as [w|k w a0 w' Hl0 _ IH]; intros a Hl Hok; [eauto|].
  rewrite Hl in Hl0. injection Hl0 as <-.
  destruct (trial_outcome_lattice_ok a w Hl Hok) as (a1 & Hl1 & Hok1).
  eapply IH; eauto.
Qed.

Lemma foldM_trials {A} (xs : list A) :
  forall (w : world) (a : ndarray),
    heap w !! l = Some a -> lattice_ok n a ->
    exists w',
      foldM (fun _ _ => metropolis_trial np_exp_finite l (Z.of_nat n) T) xs tt w
        = Ok (tt, w') /\
      trials np_exp_finite l n T (length xs) w w'.
Proof.
  induction xs as [|x xs IH]; intros w a Hl Hok; simpl.
  - exists w. split; [reflexivity | constructor].
  - rewrite (bind_run _ _ _ _ _
               (metropolis_trial_run np_exp_finite l n T a w Hn Hl (proj1 Hok))).
    destruct (trial_outcome_lattice_ok a w Hl Hok) as (a1 & Hl1 & Hok1).
    destruct (IH _ a1 Hl1 Hok1) as (w' & E & Ht).
    exists w'. split; [exact E | econstructor; eauto].
Qed.

End SweepFacts.

(** A sweep on a valid lattice: it returns the reference it was given and
    the world after exactly [n * n] trials. *)
Lemma metropolis_step_run (np_exp_finite : Q -> float) (l : loc) (n : nat) (T : float64)
    (a : ndarray) (w : world) :
  heap w !! l = Some a -> lattice_ok n a ->
  exists w', metropolis_step np_exp_finite l T w = Ok (l, w') /\
             trials np_exp_finite l n T (n * n) w w'.
Proof.
  intros Hl Hok. unfold metropolis_step.
  rewrite (bind_run _ _ _ _ _ (shape0_ok _ _ _ Hl)).
  destruct Hok as [[Hlen Hrows] Hsp]. rewrite Hlen.
  assert (Hok : lattice_ok n a) by (repeat split; assumption).
  destruct n as [|n'].
  - exists w. split; [reflexivity | constructor].
  - destruct (foldM_trials np_exp_finite l (S n') T ltac:(lia)
                (range (Z.of_nat (S n') ^ 2)) w a Hl Hok) as (w' & E & Ht).
    exists w'. split.
    + now rewrite (bind_run _ _ _ _ _ E).
    + rewrite length_range in Ht.
      replace (Z.to_nat (Z.of_nat (S n') ^ 2)) with (S n' * S n')%nat in Ht by nia.
      exact Ht.
Qed.

(** ** The sweep, trial by trial *)

Section Contract.

Variable np_exp_finite : Q -> float.
Variables (l : loc) (n : nat) (T : float64).
Hypothesis Hn : (1 <= n)%nat.

Lemma trial_outcome_flip_trial (a : ndarray) (w : world) :
  heap w !! l = Some a -> flip_trial np_exp_finite l n T w (trial_outcome np_exp_finite l n T a w).
Proof.
  intros Hl. unfold trial_outcome.
  pose proof (selected_run n w Hn) as Hsel.
  destruct (Z.ltb_spec (2 * cell a (pick n (tape w (cursor w)))
                              (pick n (tape w (cursor w + 1))) *
                        nbsum a (Z.of_nat n) (pick n (tape w (cursor w)))
                              (pick n (tape w (cursor w + 1)))) 0) as [Hneg|Hpos].
  - eapply flip_downhill; eauto.
  - destruct (float_lt _ _) eqn:E.
    + eapply flip_accepted; eauto.
    + eapply flip_rejected; eauto.
Qed.

Lemma trials_sweep (k : nat) (w w' : world) :
  trials np_exp_finite l n T k w w' -> sweep np_exp_finite l n T k w w'.
Proof.
  induction 1 as [w|k w a w' Hl _ IH]; [constructor|].
  econstructor; [apply trial_outcome_flip_trial; eassumption | exact IH].
Qed.

End Contract.

(** The cells of a lattice after one spin is negated. *)
Lemma negate_cell_cells (n : nat) (a : ndarray) (i j x y : Z) :
  square n a -> 0 <= i < Z.of_nat n -> 0 <= j < Z.of_nat n ->
  0 <= x < Z.of_nat n -> 0 <= y < Z.of_nat n ->
  cell (negate_cell a i j) x y =
    if (x =? i) && (y =? j) then - cell a i j else cell a x y.
Proof.
  intros Hs Hi Hj Hx Hy.
  pose proof (negate_cell_square n a i j Hs Hi Hj) as Hset.
  rewrite (cell_set_cell n a _ i j (cell a i j * -1) x y) by assumption.
  destruct ((x =? i) && (y =? j)); lia.
Qed.

(** ** The chance of a cell *)

Lemma selected_with_draws (n : nat) (x y : N) (w : world) :
  (1 <= n)%nat -> selected n (with_draws x y w) = Some (pick n x, pick n y).
Proof.
  intros Hn. rewrite selected_run by assumption. unfold with_draws. cbn [tape cursor].
  rewrite Nat.eqb_refl.
  replace (cursor w + 1 =? cursor w)%nat with false by (symmetry; apply Nat.eqb_neq; lia).
  replace (cursor w + 1 =? S (cursor w))%nat with true by (symmetry; apply Nat.eqb_eq; lia).
  reflexivity.
Qed.

Lemma length_filter_row {A B} (p : A -> bool) (q : B -> bool) (x : A) (ys : list B) :
  length (List.filter (fun xy => p (fst xy) && q (snd xy)) (map (fun y => (x, y)) ys)) =
  if p x then length (List.filter q ys) else 0%nat.
Proof.
  induction ys as [|y ys IH]; cbn [map List.filter fst snd]; [now destruct (p x)|].
  destruct (p x), (q y); cbn [andb length] in *; lia.
Qed.

Lemma length_filter_pairs {A B} (p : A -> bool) (q : B -> bool) (xs : list A) (ys : list B) :
  length (List.filter (fun xy => p (fst xy) && q (snd xy)) (list_prod xs ys)) =
  (length (List.filter p xs) * length (List.filter q ys))%nat.
Proof.
  induction xs as [|x xs IH]; [reflexivity|].
  cbn [list_prod List.filter]. rewrite List.filter_app, length_app, IH, length_filter_row.
  destruct (p x); cbn [length]; lia.
Qed.

Lemma length_filter_seq (i : Z) (s k : nat) :
  length (List.filter (fun x => Z.of_N x =? i) (map N.of_nat (seq s k))) =
  if (Z.of_nat s <=? i) && (i <? Z.of_nat (s + k)) then 1%nat else 0%nat.
Proof.
  revert s. induction k as [|k IH]; intros s; cbn [seq map List.filter].
  - destruct (Z.leb_spec (Z.of_nat s) i), (Z.ltb_spec i (Z.of_nat (s + 0))); simpl; lia.
  - rewrite nat_N_Z.
    destruct (Z.eqb_spec (Z.of_nat s) i) as [E|E]; cbn [length]; rewrite IH.
    + destruct (Z.leb_spec (Z.of_nat (S s)) i), (Z.ltb_spec i (Z.of_nat (S s + k))),
        (Z.leb_spec (Z.of_nat s) i), (Z.ltb_spec i (Z.of_nat (s + S k))); simpl; lia.
    + destruct (Z.leb_spec (Z.of_nat (S s)) i), (Z.ltb_spec i (Z.of_nat (S s + k))),
        (Z.leb_spec (Z.of_nat s) i), (Z.ltb_spec i (Z.of_nat (s + S k))); simpl; lia.
Qed.

(** Of the [n * n] equally likely outcomes of the generator, one selects a
    given cell. *)
Lemma chance_of_cell (n : nat) (w : world) (i j : Z) :
  (1 <= n)%nat -> 0 <= i < Z.of_nat n -> 0 <= j < Z.of_nat n ->
  chance (selects n w i j) (draw_pairs n) = 1 # Pos.of_nat (n * n).
Proof.
  intros Hn Hi Hj. unfold chance, draw_pairs.
  rewrite length_prod, !length_map, !length_seq. f_equal.
  rewrite (List.filter_ext_in _
             (fun xy => (Z.of_N (fst xy) =? i) && (Z.of_N (snd xy) =? j))).
  - rewrite (length_filter_pairs (fun x => Z.of_N x =? i) (fun y => Z.of_N y =? j)).
    rewrite !length_filter_seq. change (Z.of_nat 0) with 0. cbn [Nat.add].
    destruct (Z.leb_spec 0 i), (Z.ltb_spec i (Z.of_nat n)),
      (Z.leb_spec 0 j), (Z.ltb_spec j (Z.of_nat n)); simpl; lia.
  - intros [x y] Hin. apply in_prod_iff in Hin as [Hx Hy].
    apply in_map_iff in Hx as (a & <- & Ha). apply in_map_iff in Hy as (b & <- & Hb).
    apply in_seq in Ha. apply in_seq in Hb.
    unfold selects. cbn [fst snd]. rewrite selected_with_draws by assumption.
    unfold pick. rewrite !nat_N_Z, !Z.mod_small by lia. reflexivity.
Qed.

(** C1.  For every valid lattice of size N >= 1 behind a reference and
    every T > 0, one call of the updater returns that same reference after
    exactly N * N trial flips on the array behind it, each as [flip_trial]
    words it: the cell is what the generator's call returns on fresh draws, a
    negative delta_E is accepted, otherwise a fresh uniform draw is compared
    with exp(-delta_E / T), and acceptance negates that one cell.  Nothing
    else in the store changes.  At every trial the cell is picked uniformly:
    of the N * N outcomes of [randint(0, N, size=2)], which numpy's contract
    makes equally likely whatever was drawn before, exactly one selects a
    given cell, so each cell has chance 1 / N^2, trial after trial (with
    replacement). *)
Theorem metropolis_step_is_sweep (np_exp_finite : Q -> float) (l : loc) (n : nat)
    (T : float64) (a : ndarray) (w : world) :
  (1 <= n)%nat -> above_zero T ->
  heap w !! l = Some a -> lattice_ok n a ->
  exists w',
    metropolis_step np_exp_finite l T w = Ok (l, w') /\
    sweep np_exp_finite l n T (n * n) w w' /\
    frame_at l w w' /\
    (forall (w0 : world) (i j : Z), 0 <= i < Z.of_nat n -> 0 <= j < Z.of_nat n ->
       chance (selects n w0 i j) (draw_pairs n) = 1 # Pos.of_nat (n * n)).
Proof.
  intros Hn HT Hl Hok.
  destruct (metropolis_step_run np_exp_finite l n T a w Hl Hok) as (w' & E & Ht).
  exists w'. split; [exact E|].
  split; [now apply trials_sweep|]. split; [eapply trials_frame; eauto|].
  intros w0 i j Hi Hj. now apply chance_of_cell.
Qed.

Lemma metropolis_step_is_sweep_witness :
  exists w',
    metropolis_step exp_approx 0%nat (fraction 1 1)
      (World [[[1; 1]; [1; 1]]] (fun k => N.of_nat k) 0 []) = Ok (0%nat, w') /\
    sweep exp_approx 0%nat 2 (fraction 1 1) (2 * 2)
      (World [[[1; 1]; [1; 1]]] (fun k => N.of_nat k) 0 []) w' /\
    frame_at 0%nat (World [[[1; 1]; [1; 1]]] (fun k => N.of_nat k) 0 []) w' /\
    (forall (w0 : world) (i j : Z), 0 <= i < Z.of_nat 2 -> 0 <= j < Z.of_nat 2 ->
       chance (selects 2 w0 i j) (draw_pairs 2) = 1 # Pos.of_nat (2 * 2)).
Proof.
  apply (metropolis_step_is_sweep exp_approx 0%nat 2 (fraction 1 1) [[1; 1]; [1; 1]]
           (World [[[1; 1]; [1; 1]]] (fun k => N.of_nat k) 0 [])).
  - lia.
  - reflexivity.
  - reflexivity.
  - solve_lattice_ok.
Defined.

(** ** Temperature zero *)

Lemma float_lt_unit_zero (r : N) : float_lt (unit_of r) (Finite 0) = false.
Proof.
  unfold float_lt. destruct (unit_of_range r) as [H _].
  destruct (Qcompare_spec (unit_of r) 0) as [E|E|E]; try reflexivity.
  exfalso. apply Qlt_not_le in E. contradiction.
Qed.

(** The negated cost of an uphill flip on a valid lattice, as a float. *)
Lemma f64_of_int_small_negative (x : Z) :
  - 8 <= x < 0 -> exists m e, f64_of_int x = S754_finite true m e.
Proof.
  intros H.
  assert (E : x = -1 \/ x = -2 \/ x = -3 \/ x = -4 \/ x = -5 \/ x = -6 \/ x = -7 \/ x = -8)
    by lia.
  repeat destruct E as [->|E]; try subst x; vm_compute; eauto.
Qed.

(** Division by a zero of sign [s]: NaN for 0 / 0, and otherwise the
    infinity whose sign is that of the dividend times that of the zero. *)
Lemma quotient_zero_divisor (x : Z) (s : bool) :
  - 8 <= x <= 0 ->
  quotient x (S754_zero s) =
    if x =? 0 then (S754_nan, [RuntimeWarning InvalidValue])
    else (S754_infinity (negb s), [RuntimeWarning DivideByZero]).
Proof.
  intros H. destruct (Z.eqb_spec x 0) as [->|Hx]; [reflexivity|].
  destruct (f64_of_int_small_negative x ltac:(lia)) as (m & e & E).
  unfold quotient. rewrite E. reflexivity.
Qed.

Lemma acceptance_zero (np_exp_finite : Q -> float) (delta_E : Z) (s : bool) :
  0 <= delta_E <= 8 ->
  acceptance np_exp_finite delta_E (S754_zero s) =
    if delta_E =? 0 then (NaN, [RuntimeWarning InvalidValue])
    else (if s then PInf else Finite 0, [RuntimeWarning DivideByZero]).
Proof.
  intros H. unfold acceptance. rewrite quotient_zero_divisor by lia.
  replace (- delta_E =? 0) with (delta_E =? 0)
    by (destruct (Z.eqb_spec delta_E 0), (Z.eqb_spec (- delta_E) 0); lia).
  destruct (delta_E =? 0); [reflexivity|]. destruct s; reflexivity.
Qed.

(** C5, amended.  The updater has no guard for T = 0.  At T = 0 a trial
    with delta_E >= 0 draws its uniform number and evaluates
    -delta_E / T all the same, and numpy logs the division by zero (an
    invalid value for delta_E = 0).  For delta_E = 0 the quotient is NaN and
    the trial is rejected.  For delta_E > 0 the sign of the zero decides: at
    T = +0.0 the quotient is -inf, its exponential 0, and the trial is
    rejected, the lattice left as it was; at T = -0.0 the quotient is +inf
    and the flip is made. *)
Theorem zero_temperature_unguarded (np_exp_finite : Q -> float) (l : loc) (n : nat)
    (negative_zero : bool) (a : ndarray) (w : world) (delta_E : Z) :
  (1 <= n)%nat ->
  heap w !! l = Some a -> lattice_ok n a ->
  delta_E = 2 * cell a (pick n (tape w (cursor w))) (pick n (tape w (cursor w + 1))) *
            nbsum a (Z.of_nat n) (pick n (tape w (cursor w)))
                  (pick n (tape w (cursor w + 1))) ->
  0 <= delta_E ->
  metropolis_trial np_exp_finite l (Z.of_nat n) (S754_zero negative_zero) w =
    Ok (tt,
        if (0 <? delta_E) && negative_zero
        then with_array l
               (negate_cell a (pick n (tape w (cursor w))) (pick n (tape w (cursor w + 1))))
               (with_log [RuntimeWarning DivideByZero] (advance 3 w))
        else with_log [RuntimeWarning (if delta_E =? 0 then InvalidValue else DivideByZero)]
               (advance 3 w)).
Proof.
  intros Hn Hl Hok -> Hpos.
  rewrite (metropolis_trial_run np_exp_finite l n _ a w Hn Hl (proj1 Hok)).
  pose proof (delta_E_bounds n a _ _ Hok (pick_range n (tape w (cursor w)) Hn)
                (pick_range n (tape w (cursor w + 1)) Hn)) as Hb.
  unfold trial_outcome.
  set (dE := 2 * _ * _) in *.
  destruct (Z.ltb_spec dE 0) as [Hneg|_]; [lia|].
  rewrite acceptance_zero by lia.
  destruct (Z.eqb_spec dE 0) as [E|E]; cbn [fst snd].
  - destruct (Z.ltb_spec 0 dE); [lia|]. reflexivity.
  - destruct (Z.ltb_spec 0 dE); [|lia]. destruct negative_zero; cbn [andb fst snd].
    + reflexivity.
    + now rewrite float_lt_unit_zero.
Qed.

Lemma zero_temperature_unguarded_witness :
  metropolis_trial exp_approx 0%nat (Z.of_nat 2) (S754_zero false)
    (World [[[1; 1]; [1; 1]]] (fun k => N.of_nat k) 0 []) =
  Ok (tt,
      if (0 <? 8) && false
      then with_array 0%nat
             (negate_cell [[1; 1]; [1; 1]]
                (pick 2 (tape (World [[[1; 1]; [1; 1]]] (fun k => N.of_nat k) 0 [])
                           (cursor (World [[[1; 1]; [1; 1]]] (fun k => N.of_nat k) 0 []))))
                (pick 2 (tape (World [[[1; 1]; [1; 1]]] (fun k => N.of_nat k) 0 [])
                           (cursor (World [[[1; 1]; [1; 1]]] (fun k => N.of_nat k) 0 []) + 1))))
             (with_log [RuntimeWarning DivideByZero]
                (advance 3 (World [[[1; 1]; [1; 1]]] (fun k => N.of_nat k) 0 [])))
      else with_log [RuntimeWarning (if 8 =? 0 then InvalidValue else DivideByZero)]
             (advance 3 (World [[[1; 1]; [1; 1]]] (fun k => N.of_nat k) 0 []))).
Proof.
  apply (zero_temperature_unguarded exp_approx 0%nat 2 false [[1; 1]; [1; 1]]
           (World [[[1; 1]; [1; 1]]] (fun k => N.of_nat k) 0 []) 8).
  - lia.
  - reflexivity.
  - solve_lattice_ok.
  - reflexivity.
  - lia.
Defined.

(** C5 as stated fails: at T = 0.0, on the 1 x 1 lattice (delta_E = 8), the
    trial consumes the uniform draw and performs the division by zero, which
    the log records; no guard skips it.  At T = -0.0 the same trial makes
    the flip. *)
Lemma zero_temperature_divides :
  metropolis_trial exp_approx 0%nat 1 (S754_zero false) (World [[[1]]] (fun _ => 0%N) 0 []) =
    Ok (tt, World [[[1]]] (fun _ => 0%N) 3 [RuntimeWarning DivideByZero]) /\
  metropolis_step exp_approx 0%nat (S754_zero false) (World [[[1]]] (fun _ => 0%N) 0 []) =
    Ok (0%nat, World [[[1]]] (fun _ => 0%N) 3 [RuntimeWarning DivideByZero]) /\
  metropolis_trial exp_approx 0%nat 1 (S754_zero true) (World [[[1]]] (fun _ => 0%N) 0 []) =
    Ok (tt, World [[[-1]]] (fun _ => 0%N) 3 [RuntimeWarning DivideByZero]).
Proof. repeat split; reflexivity. Qed.

(** * The lattice invariant *)

Lemma lattice_ok_split_grid (N : Z) : 0 <= N -> lattice_ok (Z.to_nat N) (split_grid N).
Proof.
  intros HN. repeat split.
  - apply length_replicate.
  - apply Forall_forall. intros row Hrow.
    apply elem_of_replicate in Hrow as [-> _]. now apply split_grid_row.
  - apply Forall_forall. intros row Hrow.
    apply elem_of_replicate in Hrow as [-> _].
    apply Forall_app. split; apply Forall_forall; intros x Hx;
      apply elem_of_replicate in Hx as [-> _]; [now right | now left].
Qed.

(** Whatever the arguments, when the initializer returns it has appended
    one valid N x N array to the store and returns the reference to it. *)
Lemma initialize_lattice_inv (N : Z) (ratio : float64) (randomize : bool)
    (w w0 : world) (l : loc) :
  initialize_lattice N ratio randomize w = Ok (l, w0) ->
  0 <= N /\ l = length (heap w) /\ tape w0 = tape w /\ log w0 = log w /\
  exists grid, heap w0 = heap w ++ [grid] /\ lattice_ok (Z.to_nat N) grid.
Proof.
  destruct randomize.
  - destruct (num_blue_of N ratio) as [nb|e] eqn:Hnb.
    + destruct (initialize_random_unfold N ratio nb w Hnb) as (spins & P & ->).
      intros H. apply bind_ok in H as (grid & w1 & Hre & Hal).
      apply reshape_inv in Hre as (HN & Hlen & -> & ->).
      unfold alloc in Hal. simpl in Hal. injection Hal as <- <-.
      repeat split; try assumption; try reflexivity.
      eexists. split; [reflexivity|].
      apply lattice_ok_rows_of; [lia|].
      eapply Permutation_Forall; [exact P | apply unshuffled_spins].
    + rewrite (initialize_random_no_count N ratio e w Hnb). discriminate.
  - destruct (Z.ltb_spec N 0) as [Hneg|HN].
    + rewrite (initialize_deterministic_raises N ratio w Hneg). discriminate.
    + rewrite (initialize_deterministic N ratio w HN). intros [= <- <-].
      repeat split; try assumption; try reflexivity.
      eexists. split; [reflexivity|]. now apply lattice_ok_split_grid.
Qed.

(** C8.  Whenever the initializer returns, in either mode, the array behind
    the returned reference is N x N with every cell +1 or -1, and it stays so
    under every sequence of sweeps, at whatever temperatures, and after every
    single trial inside a sweep: each sweep returns the same reference, and
    the array behind it is again N x N with every cell +1 or -1. *)
Theorem lattice_invariant (np_exp_finite : Q -> float) (N : Z) (ratio : float64)
    (randomize : bool) (w w0 : world) (l : loc) (Ts : list float64) :
  initialize_lattice N ratio randomize w = Ok (l, w0) ->
  exists w' a,
    foldM (fun T l' => metropolis_step np_exp_finite l' T) Ts l w0 = Ok (l, w') /\
    heap w' !! l = Some a /\ lattice_ok (Z.to_nat N) a /\
    (forall T k wk, (1 <= Z.to_nat N)%nat ->
       trials np_exp_finite l (Z.to_nat N) T k w' wk ->
       exists ak, heap wk !! l = Some ak /\ lattice_ok (Z.to_nat N) ak).
Proof.
  intros Hinit.
  apply initialize_lattice_inv in Hinit as (HN & -> & _ & _ & grid & Hheap & Hok).
  assert (Hl : heap w0 !! length (heap w) = Some grid).
  { rewrite Hheap. now apply list_lookup_middle. }
  clear Hheap. revert w0 grid Hl Hok.
  induction Ts as [|T Ts IH]; intros w0 grid Hl Hok.
  - exists w0, grid. split; [reflexivity|]. split; [assumption|]. split; [assumption|].
    intros T k wk Hn Ht. eapply trials_lattice_ok; eauto.
  - destruct (metropolis_step_run np_exp_finite _ _ T grid w0 Hl Hok) as (w1 & E & Ht).
    cbn [foldM]. rewrite (bind_run _ _ _ _ _ E).
    destruct (Nat.eq_dec (Z.to_nat N) 0%nat) as [E0|Hn].
    + rewrite E0 in Ht. inversion Ht; subst. now apply IH with (grid := grid).
    + assert (Hn1 : (1 <= Z.to_nat N)%nat) by lia.
      destruct (trials_lattice_ok np_exp_finite _ _ T Hn1 _ _ _ Ht grid Hl Hok)
        as (a1 & Hl1 & Hok1).
      now apply IH with (grid := a1).
Qed.

Lemma lattice_invariant_witness :
  exists w' a,
    foldM (fun T l' => metropolis_step exp_approx l' T) [fraction 1 1; fraction 5 2] 0%nat
      (World [split_grid 2] (fun k => N.of_nat (3 * k)) 0 []) = Ok (0%nat, w') /\
    heap w' !! 0%nat = Some a /\ lattice_ok (Z.to_nat 2) a /\
    (forall T k wk, (1 <= Z.to_nat 2)%nat ->
       trials exp_approx 0%nat (Z.to_nat 2) T k w' wk ->
       exists ak, heap wk !! 0%nat = Some ak /\ lattice_ok (Z.to_nat 2) ak).
Proof.
  apply (lattice_invariant exp_approx 2 (fraction 1 2) false
           (World [] (fun k => N.of_nat (3 * k)) 0 [])
           (World [split_grid 2] (fun k => N.of_nat (3 * k)) 0 []) 0%nat
           [fraction 1 1; fraction 5 2]).
  reflexivity.
Defined.

(** * The orchestrator *)

(** A sweep on a valid lattice succeeds at every temperature and leaves a
    valid lattice behind the same reference. *)
Lemma metropolis_step_ok (np_exp_finite : Q -> float) (l : loc) (n : nat) (T : float64)
    (a : ndarray) (w : world) :
  heap w !! l = Some a -> lattice_ok n a ->
  exists w' a', metropolis_step np_exp_finite l T w = Ok (l, w') /\
                frame_at l w w' /\ heap w' !! l = Some a' /\ lattice_ok n a'.
Proof.
  intros Hl Hok.
  destruct (metropolis_step_run np_exp_finite l n T a w Hl Hok) as (w' & E & Ht).
  destruct n as [|n'].
  - inversion Ht; subst. exists w', a.
    split; [exact E|]. split; [apply frame_at_refl|]. split; assumption.
  - destruct (trials_lattice_ok np_exp_finite l (S n') T ltac:(lia) _ _ _ Ht a Hl Hok)
      as (a' & Hl' & Hok').
    exists w', a'. split; [exact E|]. split; [eapply trials_frame; eauto|]. auto.
Qed.

Lemma np_copy_run (l : loc) (a : ndarray) (w : world) :
  heap w !! l = Some a ->
  np_copy l w = Ok (length (heap w), World (heap w ++ [a]) (tape w) (cursor w) (log w)).
Proof.
  intros Hl. unfold np_copy. now rewrite (bind_run _ _ _ _ _ (load_ok _ _ _ Hl)).
Qed.

Lemma range_nonpos (n : Z) : n <= 0 -> range n = [].
Proof. intros H. unfold range. now replace (Z.to_nat n) with 0%nat by lia. Qed.

Lemma range_pos (n : Z) : 1 <= n -> exists rest, range n = 0 :: rest.
Proof.
  intros H. unfold range. destruct (Z.to_nat n) as [|k] eqn:E; [lia|].
  simpl. eauto.
Qed.

Lemma foldM_preserves {A S} (body : A -> S -> M S) (P : S -> world -> Prop) :
  (forall x s w s' w', P s w -> body x s w = Ok (s', w') -> P s' w') ->
  forall xs s w s' w', P s w -> foldM body xs s w = Ok (s', w') -> P s' w'.
Proof.
  intros Hb. induction xs as [|x xs IH]; intros s w s' w' HP H; simpl in H.
  - rewrite ret_unfold in H. now injection H as <- <-.
  - apply bind_ok in H as (s1 & w1 & E1 & E2). eauto.
Qed.

Lemma bind_raise {A B} (m : M A) (f : A -> M B) (w : world) (e : exn) :
  m w = Raise e -> (m ≫= f) w = Raise e.
Proof. intros H. now rewrite bind_unfold, H. Qed.

Section FirstStep.

Variable np_exp_finite : Q -> float.
Variables (N steps output_interval : Z) (ratio : float64).

(** The pass for step 0 on a valid lattice: the sweep, the energy and the
    copy succeed, then [0 % output_interval] either divides by zero or is 0,
    and the display branch calls the undefined name. *)
Lemma simulate_step_first (n : nat) (T : float64) (l : loc) (a : ndarray)
    (energy : list Q) (states : list loc) (w : world) :
  heap w !! l = Some a -> lattice_ok n a ->
  simulate_step np_exp_finite T output_interval 0 (l, energy, states) w =
    Raise (first_step_error output_interval).
Proof.
  intros Hl Hok. unfold simulate_step.
  destruct (metropolis_step_ok np_exp_finite l n T a w Hl Hok) as (w1 & a1 & E1 & _ & Hl1 & Hok1).
  rewrite (bind_run _ _ _ _ _ E1).
  rewrite (bind_run _ _ _ _ _ (calculate_energy_square n l a1 w1 Hl1 (proj1 Hok1))).
  rewrite (bind_run _ _ _ _ _ (np_copy_run l a1 w1 Hl1)).
  unfold first_step_error, py_mod.
  destruct (Z.eqb_spec output_interval 0) as [E|E]; [reflexivity|].
  rewrite bind_unfold, ret_unfold. rewrite Z.mod_0_l by assumption. reflexivity.
Qed.

(** With at least one step, a temperature run stops at step 0 whenever the
    initializer has returned. *)
Lemma simulate_temperature_first (T : float64) (dicts : results) (w w0 : world) (l : loc) :
  1 <= steps ->
  initialize_lattice N ratio true w = Ok (l, w0) ->
  simulate_temperature np_exp_finite N steps output_interval ratio T dicts w =
    Raise (first_step_error output_interval).
Proof.
  intros Hsteps Hinit. destruct dicts as [[final animations] energies].
  unfold simulate_temperature. rewrite (bind_run _ _ _ _ _ Hinit).
  apply initialize_lattice_inv in Hinit as (_ & -> & _ & _ & grid & Hheap & Hok).
  assert (Hl : heap w0 !! length (heap w) = Some grid).
  { rewrite Hheap. now apply list_lookup_middle. }
  destruct (range_pos steps Hsteps) as (rest & ->).
  apply bind_raise. cbn [foldM]. apply bind_raise.
  eapply simulate_step_first; eauto.
Qed.

(** With at least one step, no temperature run returns. *)
Lemma simulate_temperature_never_returns (T : float64) (dicts dicts' : results)
    (w w' : world) :
  1 <= steps ->
  simulate_temperature np_exp_finite N steps output_interval ratio T dicts w
    <> Ok (dicts', w').
Proof.
  intros Hsteps H.
  destruct (initialize_lattice N ratio true w) as [[l w0]|e] eqn:Hinit.
  - rewrite (simulate_temperature_first T dicts w w0 l Hsteps Hinit) in H. discriminate.
  - destruct dicts as [[final animations] energies].
    unfold simulate_temperature in H. rewrite (bind_raise _ _ _ _ Hinit) in H. discriminate.
Qed.

(** Without steps, a temperature run that returns has added three entries
    for its key: a new lattice, no snapshot, no energy. *)
Lemma simulate_temperature_no_steps (T : float64) (dicts dicts' : results)
    (w w' : world) :
  steps <= 0 ->
  simulate_temperature np_exp_finite N steps output_interval ratio T dicts w
    = Ok (dicts', w') ->
  initialize_lattice N ratio true w = Ok (length (heap w), w') /\
  dicts' = (dict_set (fst (fst dicts)) T (length (heap w)),
            dict_set (snd (fst dicts)) T [], dict_set (snd dicts) T []).
Proof.
  intros Hsteps H. destruct dicts as [[final animations] energies].
  unfold simulate_temperature in H. rewrite range_nonpos in H by assumption.
  apply bind_ok in H as (l & w0 & Hinit & H).
  cbn [foldM] in H. rewrite bind_unfold, !ret_unfold in H. injection H as <- <-.
  pose proof (initialize_lattice_inv _ _ _ _ _ _ Hinit) as (_ & -> & _).
  split; [assumption | reflexivity].
Qed.

End FirstStep.

Lemma Forall_dict_set {V} (P : float64 * V -> Prop) (d : list (float64 * V))
    (k : float64) (v : V) :
  Forall P d -> (forall k', P (k', v)) -> Forall P (dict_set d k v).
Proof.
  intros Hd Hv. induction Hd as [|[k' v'] d Hx Hd IH]; cbn [dict_set].
  - constructor; [apply Hv | constructor].
  - destruct (SFeqb k' k); constructor; auto.
Qed.

(** Whatever the arguments, a result of the orchestrator holds no snapshot
    and no energy, and there is a result only without steps or without
    temperatures. *)
Lemma simulate_phase_separation_inv (np_exp_finite : Q -> float) (N : Z)
    (temperatures : list float64) (steps output_interval : Z) (ratio : float64)
    (w w' : world) (dicts : results) :
  simulate_phase_separation np_exp_finite N temperatures steps output_interval ratio w
    = Ok (dicts, w') ->
  nothing_recorded dicts /\ (steps <= 0 \/ temperatures = []).
Proof.
  intros H. unfold simulate_phase_separation in H.
  destruct (Z_le_gt_dec steps 0) as [Hsteps|Hsteps].
  - split; [|now left].
    apply (foldM_preserves
             (simulate_temperature np_exp_finite N steps output_interval ratio)
             (fun d _ => nothing_recorded d))
      with (xs := temperatures) (s := (([], [], []) : results)) (w := w) (w' := w');
      [| split; constructor | exact H].
    intros T [[final animations] energies] w1 d' w1' [Ha He] Hrun.
      apply simulate_temperature_no_steps in Hrun as [_ ->]; [|assumption].
      cbn [fst snd]. split; apply Forall_dict_set; auto.
  - destruct temperatures as [|T Ts].
    + cbn [foldM] in H. rewrite ret_unfold in H. injection H as <- <-.
      split; [split; constructor | now right].
    + cbn [foldM] in H. apply bind_ok in H as (d1 & w1 & H1 & _).
      exfalso. eapply simulate_temperature_never_returns; [|exact H1]. lia.
Qed.

(** With an N and a ratio that the initializer accepts and at least one
    step, the orchestrator stops at step 0 of the first temperature. *)
Lemma simulate_phase_separation_first (np_exp_finite : Q -> float) (N : Z)
    (T : float64) (temperatures : list float64) (steps output_interval : Z)
    (ratio : float64) (w : world) :
  0 <= N -> N * N < 2 ^ 53 -> within_unit ratio -> 1 <= steps ->
  simulate_phase_separation np_exp_finite N (T :: temperatures) steps output_interval
    ratio w = Raise (first_step_error output_interval).
Proof.
  intros HN Hsq Hr Hsteps.
  destruct (num_blue_bounds N ratio Hsq Hr) as (nb & Hnb & Hb).
  destruct (initialize_random_ok N ratio nb w Hnb HN Hb) as (grid & c & Hinit & _).
  unfold simulate_phase_separation. cbn [foldM]. apply bind_raise.
  eapply simulate_temperature_first; eauto.
Qed.


(** C7, a defect of the code.  The step loop calls [clear_output], a name
    the notebook neither imports nor defines, whenever the step index is a
    multiple of the display interval, which step 0 always is.  So with N >= 0
    (N^2 below 2^53), a ratio in [0, 1], at least one temperature, at least
    one step and a non-zero interval, the orchestrator raises NameError at
    the first step of the first temperature, after it has taken the first
    energy and the first snapshot, and returns nothing.  Whatever its
    arguments, a result it does return holds no snapshot and no energy, so
    no recorded snapshot is ever there to be evaluated against its recorded
    energy. *)
Theorem snapshots_never_returned (np_exp_finite : Q -> float) (N : Z) (T : float64)
    (temperatures : list float64) (steps output_interval : Z) (ratio : float64)
    (w : world) :
  0 <= N -> N * N < 2 ^ 53 -> within_unit ratio -> 1 <= steps -> output_interval <> 0 ->
  simulate_phase_separation np_exp_finite N (T :: temperatures) steps output_interval
    ratio w = Raise NameError /\
  (forall (N' : Z) (temperatures' : list float64) (steps' output_interval' : Z)
          (ratio' : float64) (w0 w' : world) (dicts : results),
     simulate_phase_separation np_exp_finite N' temperatures' steps' output_interval'
       ratio' w0 = Ok (dicts, w') ->
     nothing_recorded dicts).
Proof.
  intros HN Hsq Hr Hsteps Hoi. split.
  - rewrite (simulate_phase_separation_first np_exp_finite N T temperatures steps
               output_interval ratio w HN Hsq Hr Hsteps).
    unfold first_step_error. now destruct (Z.eqb_spec output_interval 0).
  - intros N' temperatures' steps' output_interval' ratio' w0 w' dicts H.
    now apply simulate_phase_separation_inv in H as [H _].
Qed.

Lemma snapshots_never_returned_witness :
  simulate_phase_separation exp_approx 50
    (fraction 1 1 :: [fraction 2 1; fraction 3 1; fraction 4 1]) 100 10 (fraction 1 2)
    (World [] (fun k => N.of_nat (k * k + 7 * k + 1)) 0 []) = Raise NameError /\
  (forall (N' : Z) (temperatures' : list float64) (steps' output_interval' : Z)
          (ratio' : float64) (w0 w' : world) (dicts : results),
     simulate_phase_separation exp_approx N' temperatures' steps' output_interval'
       ratio' w0 = Ok (dicts, w') ->
     nothing_recorded dicts).
Proof.
  apply (snapshots_never_returned exp_approx 50 (fraction 1 1)
           [fraction 2 1; fraction 3 1; fraction 4 1] 100 10 (fraction 1 2)
           (World [] (fun k => N.of_nat (k * k + 7 * k + 1)) 0 [])).
  - lia.
  - lia.
  - eexists. split; [vm_compute; reflexivity|]. split; vm_compute; discriminate.
  - lia.
  - lia.
Defined.

(** * Arguments outside the contract *)





(** * Further properties of the evaluator *)

(** A sum of even terms of bounded half is even, with a bounded half. *)
Lemma sumZ_even_bounded (c : Z) (f : Z -> Z) (xs : list Z) :
  (forall x, In x xs -> exists y, f x = 2 * y /\ - c <= y <= c) ->
  exists z, sumZ f xs = 2 * z /\
            - c * Z.of_nat (length xs) <= z <= c * Z.of_nat (length xs).
Proof.
  induction xs as [|x xs IH]; intros H.
  - exists 0. simpl. lia.
  - destruct (H x (or_introl eq_refl)) as (y & Ey & Hy).
    destruct IH as (z & Ez & Hz); [intros x' Hx'; apply H; now right|].
    exists (y + z). cbn [sumZ fold_right length]. fold (sumZ f xs).
    rewrite Ey, Ez. lia.
Qed.

Lemma spin_product_even_bounded (x a b c d : Z) :
  is_spin x -> is_spin a -> is_spin b -> is_spin c -> is_spin d ->
  exists y, - x * (a + b + c + d) = 2 * y /\ - 2 <= y <= 2.
Proof.
  intros [-> | ->] [-> | ->] [-> | ->] [-> | ->] [-> | ->];
    first [ exists 2; lia | exists 1; lia | exists 0; lia
          | exists (-1); lia | exists (-2); lia ].
Qed.

Lemma energy_term_even_bounded (n : nat) (a : ndarray) (i j : Z) :
  lattice_ok n a -> 0 <= i < Z.of_nat n -> 0 <= j < Z.of_nat n ->
  exists y, energy_term a (Z.of_nat n) i j = 2 * y /\ - 2 <= y <= 2.
Proof.
  intros Hok Hi Hj. assert (Hn : 0 < Z.of_nat n) by lia.
  pose proof (Z.mod_pos_bound (i + 1) _ Hn). pose proof (Z.mod_pos_bound (i - 1) _ Hn).
  pose proof (Z.mod_pos_bound (j + 1) _ Hn). pose proof (Z.mod_pos_bound (j - 1) _ Hn).
  unfold energy_term, nbsum.
  apply spin_product_even_bounded; apply (cell_is_spin n); assumption.
Qed.

Lemma energy_sum_even_bounded (n : nat) (a : ndarray) :
  lattice_ok n a ->
  exists z, energy_sum n a = 2 * z /\
            - 2 * Z.of_nat n * Z.of_nat n <= z <= 2 * Z.of_nat n * Z.of_nat n.
Proof.
  intros Hok. unfold energy_sum.
  destruct (sumZ_even_bounded (2 * Z.of_nat n)
              (fun i => sumZ (fun j => energy_term a (Z.of_nat n) i j) (range (Z.of_nat n)))
              (range (Z.of_nat n))) as (z & Ez & Hz).
  - intros i Hi. apply in_range in Hi.
    destruct (sumZ_even_bounded 2 (fun j => energy_term a (Z.of_nat n) i j)
                (range (Z.of_nat n))) as (y & Ey & Hy).
    + intros j Hj. apply in_range in Hj. now apply energy_term_even_bounded.
    + exists y. rewrite length_range in Hy. split; [exact Ey | lia].
  - exists z. rewrite length_range in Hz. split; [exact Ez | lia].
Qed.

(** X1.  On every valid N x N lattice the evaluator returns a whole number
    between -2 N^2 and 2 N^2, and leaves the world as it was. *)
Theorem energy_is_bounded_integer (n : nat) (l : loc) (a : ndarray) (w : world) :
  heap w !! l = Some a -> lattice_ok n a ->
  exists e z, calculate_energy l w = Ok (e, w) /\ (e == inject_Z z)%Q /\
              - 2 * Z.of_nat n * Z.of_nat n <= z <= 2 * Z.of_nat n * Z.of_nat n.
Proof.
  intros Hl Hok. destruct (energy_sum_even_bounded n a Hok) as (z & Ez & Hz).
  exists (inject_Z (energy_sum n a) / 2)%Q, z.
  split; [eapply calculate_energy_square; eauto; apply Hok|].
  split; [|exact Hz]. rewrite Ez. apply half_inject.
Qed.

Lemma energy_is_bounded_integer_witness :
  exists e z,
    calculate_energy 0%nat (World [[[1; -1]; [1; 1]]] (fun _ => 0%N) 0 []) =
      Ok (e, World [[[1; -1]; [1; 1]]] (fun _ => 0%N) 0 []) /\
    (e == inject_Z z)%Q /\
    - 2 * Z.of_nat 2 * Z.of_nat 2 <= z <= 2 * Z.of_nat 2 * Z.of_nat 2.
Proof.
  apply (energy_is_bounded_integer 2 0%nat [[1; -1]; [1; 1]]
           (World [[[1; -1]; [1; 1]]] (fun _ => 0%N) 0 [])).
  - reflexivity.
  - solve_lattice_ok.
Defined.

Lemma cell_of_negated (a : ndarray) (i j : Z) :
  cell_of (map (map Z.opp) a) i j = Z.opp <$> cell_of a i j.
Proof.
  unfold cell_of. rewrite length_map.
  destruct (norm_index (length a) i) as [r|]; [|reflexivity]. simpl.
  change (map (map Z.opp) a) with (map Z.opp <$> a). rewrite list_lookup_fmap.
  destruct (a !! r) as [row|]; [|reflexivity]. simpl.
  rewrite length_map.
  destruct (norm_index (length row) j) as [c|]; [|reflexivity]. simpl.
  change (map Z.opp row) with (Z.opp <$> row). now rewrite list_lookup_fmap.
Qed.

Lemma cell_negated (a : ndarray) (i j : Z) :
  cell (map (map Z.opp) a) i j = - cell a i j.
Proof.
  unfold cell. rewrite cell_of_negated. now destruct (cell_of a i j).
Qed.

Lemma square_negated (n : nat) (a : ndarray) :
  square n a -> square n (map (map Z.opp) a).
Proof.
  intros [Hl Hr]. split; [now rewrite length_map|].
  apply Forall_forall. intros row Hrow.
  apply list_elem_of_In, in_map_iff in Hrow as (row0 & <- & Hin).
  rewrite length_map. rewrite Forall_forall in Hr. apply Hr. now apply list_elem_of_In.
Qed.

(** X2.  Negating every spin of a square lattice does not change what the
    evaluator returns. *)
Theorem energy_spin_flip_symmetry (n : nat) (l l' : loc) (a : ndarray) (w w' : world) :
  heap w !! l = Some a -> heap w' !! l' = Some (map (map Z.opp) a) -> square n a ->
  exists e, calculate_energy l w = Ok (e, w) /\ calculate_energy l' w' = Ok (e, w').
Proof.
  intros Hl Hl' Hs. exists (inject_Z (energy_sum n a) / 2)%Q.
  split; [eapply calculate_energy_square; eauto|].
  rewrite (calculate_energy_square n l' _ w' Hl' (square_negated n a Hs)).
  assert (E : energy_sum n (map (map Z.opp) a) = energy_sum n a).
  { unfold energy_sum. apply sumZ_ext. intros i _.
    apply sumZ_ext. intros j _. unfold energy_term, nbsum.
    rewrite !cell_negated. ring. }
  now rewrite E.
Qed.

Lemma energy_spin_flip_symmetry_witness :
  exists e,
    calculate_energy 0%nat
      (World [[[1; -1; 1]; [1; 1; -1]; [-1; -1; -1]]] (fun _ => 0%N) 0 []) =
      Ok (e, World [[[1; -1; 1]; [1; 1; -1]; [-1; -1; -1]]] (fun _ => 0%N) 0 []) /\
    calculate_energy 1%nat
      (World [[]; map (map Z.opp) [[1; -1; 1]; [1; 1; -1]; [-1; -1; -1]]]
             (fun _ => 0%N) 0 []) =
      Ok (e, World [[]; map (map Z.opp) [[1; -1; 1]; [1; 1; -1]; [-1; -1; -1]]]
                   (fun _ => 0%N) 0 []).
Proof.
  apply (energy_spin_flip_symmetry 3 0%nat 1%nat [[1; -1; 1]; [1; 1; -1]; [-1; -1; -1]]
           (World [[[1; -1; 1]; [1; 1; -1]; [-1; -1; -1]]] (fun _ => 0%N) 0 [])
           (World [[]; map (map Z.opp) [[1; -1; 1]; [1; 1; -1]; [-1; -1; -1]]]
                  (fun _ => 0%N) 0 [])).
  - reflexivity.
  - reflexivity.
  - solve_lattice_ok.
Defined.

(** ** Arrays that are not square *)

Lemma getitem_rectangular (r c : nat) (l : loc) (a : ndarray) (w : world) (i j : Z) :
  heap w !! l = Some a -> rectangular r c a ->
  0 <= i < Z.of_nat r -> 0 <= j ->
  getitem l i j w = Raise IndexError \/ exists v, getitem l i j w = Ok (v, w).
Proof.
  intros Hl _ _ _. unfold getitem. rewrite (bind_run _ _ _ _ _ (load_ok _ _ _ Hl)).
  destruct (cell_of a i j); [right; eauto | left; reflexivity].
Qed.

Lemma getitem_beyond_columns (r c : nat) (l : loc) (a : ndarray) (w : world) (i j : Z) :
  heap w !! l = Some a -> rectangular r c a ->
  0 <= i < Z.of_nat r -> Z.of_nat c <= j ->
  getitem l i j w = Raise IndexError.
Proof.
  intros Hl [Hlen Hrows] Hi Hj. unfold getitem.
  rewrite (bind_run _ _ _ _ _ (load_ok _ _ _ Hl)).
  unfold cell_of. rewrite norm_index_in by lia. simpl.
  destruct (lookup_lt_is_Some_2 a (Z.to_nat i)) as [row Hrow]; [lia|].
  rewrite Hrow. simpl.
  assert (Hc : length row = c).
  { rewrite Forall_forall in Hrows. apply Hrows. eapply list_elem_of_lookup_2; eauto. }
  unfold norm_index. rewrite Hc.
  destruct (Z.ltb_spec j (Z.of_nat c)); [lia|]. rewrite andb_false_r.
  destruct (Z.ltb_spec j 0); [lia|]. rewrite andb_false_r. reflexivity.
Qed.

(** X3.  On an array with fewer columns than rows the evaluator raises
    IndexError (at the very first cell: its last neighbour, column
    [(0 - 1) % N], is beyond the row). *)
Theorem calculate_energy_fewer_columns (r c : nat) (l : loc) (a : ndarray) (w : world) :
  heap w !! l = Some a -> rectangular r c a -> (c < r)%nat ->
  calculate_energy l w = Raise IndexError.
Proof.
  intros Hl Hrect Hcr. unfold calculate_energy.
  rewrite (bind_run _ _ _ _ _ (shape0_ok _ _ _ Hl)).
  destruct Hrect as [Hlen Hrows]. rewrite Hlen.
  assert (Hrect : rectangular r c a) by (split; assumption).
  destruct (range_pos (Z.of_nat r) ltac:(lia)) as (rest & ->).
  apply bind_raise. cbn [foldM]. apply bind_raise. apply bind_raise.
  assert (Hr : 0 < Z.of_nat r) by lia.
  pose proof (Z.mod_pos_bound (0 + 1) _ Hr). pose proof (Z.mod_pos_bound (0 - 1) _ Hr).
  assert (Hlast : (0 - 1) mod Z.of_nat r = Z.of_nat r - 1).
  { rewrite pred_mod_cases by lia. reflexivity. }
  destruct (getitem_rectangular r c l a w 0 0 Hl Hrect ltac:(lia) ltac:(lia))
    as [E | (spin & E)]; [now apply bind_raise|].
  rewrite (bind_run _ _ _ _ _ E). apply bind_raise. unfold neighbors_at.
  destruct (getitem_rectangular r c l a w ((0 + 1) mod Z.of_nat r) 0 Hl Hrect
              ltac:(lia) ltac:(lia)) as [E1 | (v1 & E1)]; [now apply bind_raise|].
  rewrite (bind_run _ _ _ _ _ E1).
  destruct (getitem_rectangular r c l a w ((0 - 1) mod Z.of_nat r) 0 Hl Hrect
              ltac:(lia) ltac:(lia)) as [E2 | (v2 & E2)]; [now apply bind_raise|].
  rewrite (bind_run _ _ _ _ _ E2).
  destruct (getitem_rectangular r c l a w 0 ((0 + 1) mod Z.of_nat r) Hl Hrect
              ltac:(lia) ltac:(lia)) as [E3 | (v3 & E3)]; [now apply bind_raise|].
  rewrite (bind_run _ _ _ _ _ E3).
  apply bind_raise. apply (getitem_beyond_columns r c l a w); try assumption; lia.
Qed.

Lemma calculate_energy_fewer_columns_witness :
  calculate_energy 0%nat (World [[[1; -1]; [1; 1]; [-1; 1]]] (fun _ => 0%N) 0 []) =
    Raise IndexError.
Proof.
  apply (calculate_energy_fewer_columns 3 2 0%nat [[1; -1]; [1; 1]; [-1; 1]]
           (World [[[1; -1]; [1; 1]; [-1; 1]]] (fun _ => 0%N) 0 [])).
  - reflexivity.
  - solve_lattice_ok.
  - lia.
Defined.

Lemma cell_of_rectangular (r c : nat) (a : ndarray) (i j : Z) :
  rectangular r c a -> 0 <= i < Z.of_nat r -> 0 <= j < Z.of_nat c ->
  cell_of a i j = Some (cell a i j) /\
  cell (map (take r) a) i j = if j <? Z.of_nat r then cell a i j else 0.
Proof.
  intros [Hlen Hrows] Hi Hj.
  destruct (lookup_lt_is_Some_2 a (Z.to_nat i)) as [row Hrow]; [lia|].
  assert (Hc : length row = c).
  { rewrite Forall_forall in Hrows. apply Hrows. eapply list_elem_of_lookup_2; eauto. }
  destruct (lookup_lt_is_Some_2 row (Z.to_nat j)) as [v Hv]; [lia|].
  assert (E : cell_of a i j = Some v).
  { unfold cell_of. rewrite norm_index_in by lia. simpl. rewrite Hrow. simpl.
    rewrite norm_index_in by lia. exact Hv. }
  split; [unfold cell; now rewrite E|].
  unfold cell at 1. unfold cell_of. rewrite length_map, norm_index_in by lia. simpl.
  change (map (take r) a) with (take r <$> a). rewrite list_lookup_fmap, Hrow. simpl.
  rewrite length_take, Hc.
  destruct (Z.ltb_spec j (Z.of_nat r)).
  - rewrite norm_index_in by lia. simpl. rewrite lookup_take_lt by lia.
    unfold cell. now rewrite E, Hv.
  - unfold norm_index.
    destruct (Z.ltb_spec j (Z.of_nat (r `min` c))); [lia|]. rewrite andb_false_r.
    destruct (Z.ltb_spec j 0); [lia|]. now rewrite andb_false_r.
Qed.

(** X4.  On an array with more columns than rows the evaluator does not
    fail: it reads only the leading N x N block, N the number of rows, and
    returns the energy of that block taken as a torus of its own. *)
Theorem calculate_energy_ignores_extra_columns (r c : nat) (l l' : loc) (a : ndarray)
    (w w' : world) :
  heap w !! l = Some a -> rectangular r c a -> (r <= c)%nat ->
  heap w' !! l' = Some (map (take r) a) ->
  exists e, calculate_energy l w = Ok (e, w) /\ calculate_energy l' w' = Ok (e, w').
Proof.
  intros Hl Hrect Hrc Hl'.
  assert (Hs' : square r (map (take r) a)).
  { destruct Hrect as [Hlen Hrows]. split; [now rewrite length_map|].
    apply Forall_forall. intros row Hrow.
    apply list_elem_of_In, in_map_iff in Hrow as (row0 & <- & Hin).
    rewrite length_take. rewrite Forall_forall in Hrows.
    rewrite (Hrows row0) by now apply list_elem_of_In. lia. }
  exists (inject_Z (energy_sum r (map (take r) a)) / 2)%Q.
  split; [|eapply calculate_energy_square; eauto].
  assert (Hcell : forall i j, 0 <= i < Z.of_nat r -> 0 <= j < Z.of_nat r ->
            getitem l i j w = Ok (cell (map (take r) a) i j, w)).
  { intros i j Hi Hj.
    destruct (cell_of_rectangular r c a i j Hrect Hi ltac:(lia)) as [E1 E2].
    rewrite E2. destruct (Z.ltb_spec j (Z.of_nat r)); [|lia].
    eapply getitem_ok; eauto. }
  unfold calculate_energy.
  rewrite (bind_run _ _ _ _ _ (shape0_ok _ _ _ Hl)).
  destruct Hrect as [Hlen Hrows]. rewrite Hlen.
  erewrite bind_run.
  2:{ apply foldM_pure with
        (g := fun e i => e + sumZ (fun j => energy_term (map (take r) a) (Z.of_nat r) i j)
                                  (range (Z.of_nat r))).
      intros i e Hi. apply in_range in Hi.
      erewrite foldM_pure
        with (g := fun e j => e + energy_term (map (take r) a) (Z.of_nat r) i j).
      - now rewrite fold_left_sumZ.
      - intros j e' Hj. apply in_range in Hj.
        assert (Hr : 0 < Z.of_nat r) by lia.
        pose proof (Z.mod_pos_bound (i + 1) _ Hr). pose proof (Z.mod_pos_bound (i - 1) _ Hr).
        pose proof (Z.mod_pos_bound (j + 1) _ Hr). pose proof (Z.mod_pos_bound (j - 1) _ Hr).
        rewrite (bind_run _ _ _ _ _ (Hcell i j Hi Hj)).
        assert (Hnb : neighbors_at l (Z.of_nat r) i j w =
                      Ok (nbsum (map (take r) a) (Z.of_nat r) i j, w)).
        { unfold neighbors_at, nbsum.
          repeat (erewrite bind_run; [| apply Hcell; assumption]). reflexivity. }
        rewrite (bind_run _ _ _ _ _ Hnb). reflexivity. }
  rewrite fold_left_sumZ. reflexivity.
Qed.

Lemma calculate_energy_ignores_extra_columns_witness :
  exists e,
    calculate_energy 0%nat
      (World [[[1; -1; 7]; [1; 1; 9]]] (fun _ => 0%N) 0 []) =
      Ok (e, World [[[1; -1; 7]; [1; 1; 9]]] (fun _ => 0%N) 0 []) /\
    calculate_energy 0%nat
      (World [map (take 2) [[1; -1; 7]; [1; 1; 9]]] (fun _ => 0%N) 0 []) =
      Ok (e, World [map (take 2) [[1; -1; 7]; [1; 1; 9]]] (fun _ => 0%N) 0 []).
Proof.
  apply (calculate_energy_ignores_extra_columns 2 3 0%nat 0%nat [[1; -1; 7]; [1; 1; 9]]
           (World [[[1; -1; 7]; [1; 1; 9]]] (fun _ => 0%N) 0 [])
           (World [map (take 2) [[1; -1; 7]; [1; 1; 9]]] (fun _ => 0%N) 0 [])).
  - reflexivity.
  - solve_lattice_ok.
  - lia.
  - reflexivity.
Defined.

(** ** The empty lattice *)

(** X5.  For N = 0 the whole engine runs on an empty grid: the initializer
    (the deterministic mode with any ratio, the random mode with any finite
    ratio) returns a new empty array, on which the evaluator returns 0 and a
    sweep at any temperature does nothing at all, drawing no random number.
    With a ratio that is NaN or infinite the random mode raises ValueError:
    the product 0 * ratio is NaN, which [int] refuses. *)
Theorem empty_lattice_pipeline (np_exp_finite : Q -> float) (ratio : float64)
    (randomize : bool) (T : float64) (w : world) :
  if randomize && negb (is_finite ratio)
  then initialize_lattice 0 ratio randomize w = Raise ValueError
  else exists w0 e,
    initialize_lattice 0 ratio randomize w = Ok (length (heap w), w0) /\
    heap w0 = heap w ++ [[]] /\
    calculate_energy (length (heap w)) w0 = Ok (e, w0) /\ (e == 0)%Q /\
    metropolis_step np_exp_finite (length (heap w)) T w0 = Ok (length (heap w), w0).
Proof.
  assert (Hrun : forall w0,
            initialize_lattice 0 ratio randomize w = Ok (length (heap w), w0) ->
            heap w0 = heap w ++ [[]] ->
            exists w0 e,
              initialize_lattice 0 ratio randomize w = Ok (length (heap w), w0) /\
              heap w0 = heap w ++ [[]] /\
              calculate_energy (length (heap w)) w0 = Ok (e, w0) /\ (e == 0)%Q /\
              metropolis_step np_exp_finite (length (heap w)) T w0
                = Ok (length (heap w), w0)).
  { intros w0 E Hheap.
    assert (Hl : heap w0 !! length (heap w) = Some []).
    { rewrite Hheap. now apply list_lookup_middle. }
    exists w0, (inject_Z 0 / 2)%Q. split; [exact E|]. split; [exact Hheap|].
    split; [|split].
    - unfold calculate_energy. rewrite (bind_run _ _ _ _ _ (shape0_ok _ _ _ Hl)). reflexivity.
    - reflexivity.
    - unfold metropolis_step. rewrite (bind_run _ _ _ _ _ (shape0_ok _ _ _ Hl)). reflexivity. }
  destruct randomize; cbn [andb].
  - destruct ratio as [s|s| |s m e]; cbn [is_finite negb].
    + destruct (initialize_random_ok 0 (S754_zero s) 0 w eq_refl) as (grid & c & E & [[Hlen _] _] & _);
        try lia.
      destruct grid; [|discriminate]. eapply Hrun; [exact E | reflexivity].
    + apply initialize_random_no_count. reflexivity.
    + apply initialize_random_no_count. reflexivity.
    + destruct (initialize_random_ok 0 (S754_finite s m e) 0 w eq_refl)
        as (grid & c & E & [[Hlen _] _] & _); try lia.
      destruct grid; [|discriminate]. eapply Hrun; [exact E | reflexivity].
  - eapply Hrun; [apply initialize_deterministic; lia | reflexivity].
Qed.

(** * Energy along a sweep *)

Lemma half_le (x y : Z) : x <= y -> (inject_Z x / 2 <= inject_Z y / 2)%Q.
Proof. intros H. unfold Qle, Qdiv, Qmult, Qinv, inject_Z. simpl. lia. Qed.

Lemma half_shift (s d : Z) :
  (inject_Z (s + 2 * d) / 2 == inject_Z s / 2 + inject_Z d)%Q.
Proof. unfold Qeq, Qplus, Qdiv, Qmult, Qinv, inject_Z. simpl. lia. Qed.

(** The evaluator's sum after the spin at [(i, j)] is negated. *)
Lemma energy_sum_negate_cell (n : nat) (a : ndarray) (i j : Z) :
  (2 <= n)%nat -> square n a -> 0 <= i < Z.of_nat n -> 0 <= j < Z.of_nat n ->
  energy_sum n (negate_cell a i j) =
    energy_sum n a + 2 * (2 * cell a i j * nbsum a (Z.of_nat n) i j).
Proof.
  intros Hn Hs Hi Hj.
  rewrite (energy_sum_flip n a _ i j Hn Hs Hi Hj (negate_cell_square n a i j Hs Hi Hj)).
  ring.
Qed.

(** On the 1 x 1 lattice the cell is its own four neighbours, and the
    cost of flipping it is always computed as 8. *)
Lemma delta_E_1x1 (a : ndarray) (r1 r2 : N) :
  lattice_ok 1 a ->
  2 * cell a (pick 1 r1) (pick 1 r2) * nbsum a (Z.of_nat 1) (pick 1 r1) (pick 1 r2) = 8.
Proof.
  intros Hok.
  assert (E : forall r, pick 1 r = 0) by (intros r; unfold pick; apply Z.mod_1_r).
  rewrite !E. unfold nbsum. change (Z.of_nat 1) with 1. rewrite !Z.mod_1_r.
  destruct (cell_is_spin 1 a 0 0 Hok ltac:(lia) ltac:(lia)) as [-> | ->]; reflexivity.
Qed.

Section TrialEnergy.

Variable np_exp_finite : Q -> float.
Variables (l : loc) (n : nat) (T : float64).
Hypothesis Hn : (1 <= n)%nat.

(** The array behind [l] after a trial: the one before, or the one before
    with the picked spin negated; the latter whenever [delta_E < 0]. *)
Lemma trial_outcome_array (a : ndarray) (w : world) :
  heap w !! l = Some a ->
  let i := pick n (tape w (cursor w)) in
  let j := pick n (tape w (cursor w + 1)) in
  (2 * cell a i j * nbsum a (Z.of_nat n) i j < 0 ->
   heap (trial_outcome np_exp_finite l n T a w) !! l = Some (negate_cell a i j)) /\
  (heap (trial_outcome np_exp_finite l n T a w) !! l = Some a \/
   heap (trial_outcome np_exp_finite l n T a w) !! l = Some (negate_cell a i j)).
Proof.
  intros Hl i j.
  assert (Hlt : (l < length (heap w))%nat) by (eapply lookup_lt_Some; eauto).
  unfold trial_outcome. fold i j.
  destruct (Z.ltb_spec (2 * cell a i j * nbsum a (Z.of_nat n) i j) 0) as [Hneg|Hpos].
  - split; [intros _|right]; simpl; now apply list_lookup_insert_eq.
  - split; [lia|].
    destruct (float_lt _ _); [right | left]; simpl;
      [now apply list_lookup_insert_eq | exact Hl].
Qed.

(** At temperature +0.0 a trial that would not lower the energy leaves the
    array as it is. *)
Lemma trial_outcome_zero_rejects (a : ndarray) (w : world) :
  T = S754_zero false -> heap w !! l = Some a -> lattice_ok n a ->
  0 <= 2 * cell a (pick n (tape w (cursor w))) (pick n (tape w (cursor w + 1))) *
       nbsum a (Z.of_nat n) (pick n (tape w (cursor w)))
             (pick n (tape w (cursor w + 1))) ->
  heap (trial_outcome np_exp_finite l n T a w) !! l = Some a.
Proof.
  intros -> Hl Hok Hpos.
  pose proof (delta_E_bounds n a _ _ Hok (pick_range n (tape w (cursor w)) Hn)
                (pick_range n (tape w (cursor w + 1)) Hn)) as Hb.
  unfold trial_outcome.
  set (dE := 2 * _ * _) in *.
  destruct (Z.ltb_spec dE 0); [lia|].
  rewrite acceptance_zero by lia.
  destruct (dE =? 0); cbn [fst snd]; [exact Hl|].
  rewrite float_lt_unit_zero. exact Hl.
Qed.

Lemma trial_outcome_zero_energy (a : ndarray) (w : world) :
  T = S754_zero false -> heap w !! l = Some a -> lattice_ok n a ->
  exists a', heap (trial_outcome np_exp_finite l n T a w) !! l = Some a' /\
             lattice_ok n a' /\ energy_sum n a' <= energy_sum n a.
Proof.
  intros HT Hl Hok.
  pose proof (pick_range n (tape w (cursor w)) Hn) as Hi.
  pose proof (pick_range n (tape w (cursor w + 1)) Hn) as Hj.
  destruct (Z.lt_ge_cases
              (2 * cell a (pick n (tape w (cursor w))) (pick n (tape w (cursor w + 1))) *
               nbsum a (Z.of_nat n) (pick n (tape w (cursor w)))
                     (pick n (tape w (cursor w + 1)))) 0) as [Hneg|Hpos].
  - destruct (trial_outcome_array a w Hl) as [Hflip _]. specialize (Hflip Hneg).
    eexists. split; [exact Hflip|]. split; [now apply lattice_ok_negate_cell|].
    destruct (Nat.eq_dec n 1%nat) as [->|Hn2].
    + rewrite (delta_E_1x1 a _ _ Hok) in Hneg. lia.
    + rewrite energy_sum_negate_cell; try assumption; [lia | lia | apply Hok].
  - exists a. split; [now apply trial_outcome_zero_rejects|]. split; [assumption | lia].
Qed.

Lemma trials_zero_energy (k : nat) (w w' : world) :
  T = S754_zero false ->
  trials np_exp_finite l n T k w w' ->
  forall a, heap w !! l = Some a -> lattice_ok n a ->
  exists a', heap w' !! l = Some a' /\ lattice_ok n a' /\
             energy_sum n a' <= energy_sum n a.
Proof.
  intros HT. induction 1 as [w|k w a0 w' Hl0 _ IH]; intros a Hl Hok.
  - exists a. repeat split; try assumption; try apply Hok. lia.
  - rewrite Hl in Hl0. injection Hl0 as <-.
    destruct (trial_outcome_zero_energy a w HT Hl Hok) as (a1 & Hl1 & Hok1 & Hle1).
    destruct (IH a1 Hl1 Hok1) as (a2 & Hl2 & Hok2 & Hle2).
    exists a2. split; [assumption|]. split; [assumption | lia].
Qed.

End TrialEnergy.

(** X6.  One trial on a valid lattice with at least two rows changes the
    energy the evaluator returns by exactly [delta_E] or not at all, and by
    [delta_E] whenever [delta_E < 0] (a downhill flip is always made);
    [delta_E] lies between -8 and 8. *)
Theorem trial_energy_accounting (np_exp_finite : Q -> float) (l : loc) (n : nat)
    (T : float64) (a : ndarray) (w : world) (delta_E : Z) :
  (2 <= n)%nat -> heap w !! l = Some a -> lattice_ok n a ->
  delta_E = 2 * cell a (pick n (tape w (cursor w))) (pick n (tape w (cursor w + 1))) *
            nbsum a (Z.of_nat n) (pick n (tape w (cursor w)))
                  (pick n (tape w (cursor w + 1))) ->
  exists e w' e',
    calculate_energy l w = Ok (e, w) /\
    metropolis_trial np_exp_finite l (Z.of_nat n) T w = Ok (tt, w') /\
    calculate_energy l w' = Ok (e', w') /\
    (e' == e \/ e' == e + inject_Z delta_E)%Q /\
    (delta_E < 0 -> (e' == e + inject_Z delta_E)%Q) /\
    - 8 <= delta_E <= 8.
Proof.
  intros Hn Hl Hok HdE.
  assert (Hn1 : (1 <= n)%nat) by lia.
  pose proof (pick_range n (tape w (cursor w)) Hn1) as Hi.
  pose proof (pick_range n (tape w (cursor w + 1)) Hn1) as Hj.
  pose proof (lattice_ok_negate_cell n a _ _ Hok Hi Hj) as Hokneg.
  pose proof (energy_sum_negate_cell n a _ _ Hn (proj1 Hok) Hi Hj) as Esum.
  rewrite <- HdE in Esum.
  destruct (trial_outcome_array np_exp_finite l n T Hn1 a w Hl) as [Hdown Hcases].
  cbv zeta in Hdown, Hcases. rewrite <- HdE in Hdown.
  exists (inject_Z (energy_sum n a) / 2)%Q,
         (trial_outcome np_exp_finite l n T a w).
  assert (Hflipped : forall w1,
            heap w1 !! l = Some (negate_cell a (pick n (tape w (cursor w)))
                                             (pick n (tape w (cursor w + 1)))) ->
            calculate_energy l w1 =
              Ok ((inject_Z (energy_sum n a + 2 * delta_E) / 2)%Q, w1)).
  { intros w1 H1. rewrite <- Esum. eapply calculate_energy_square; eauto. apply Hokneg. }
  assert (Hbounds : - 8 <= delta_E <= 8) by (subst delta_E; now apply delta_E_bounds).
  destruct (Z.lt_ge_cases delta_E 0) as [Hneg|Hpos].
  - eexists. split; [eapply calculate_energy_square; eauto; apply Hok|].
    split; [apply metropolis_trial_run; auto; apply Hok|].
    split; [apply Hflipped, Hdown, Hneg|].
    split; [right; apply half_shift|]. split; [intros _; apply half_shift | exact Hbounds].
  - destruct Hcases as [Hsame | Hflip].
    + eexists. split; [eapply calculate_energy_square; eauto; apply Hok|].
      split; [apply metropolis_trial_run; auto; apply Hok|].
      split; [eapply calculate_energy_square; eauto; apply Hok|].
      split; [left; reflexivity|]. split; [lia | exact Hbounds].
    + eexists. split; [eapply calculate_energy_square; eauto; apply Hok|].
      split; [apply metropolis_trial_run; auto; apply Hok|].
      split; [apply Hflipped, Hflip|].
      split; [right; apply half_shift|]. split; [lia | exact Hbounds].
Qed.

Lemma trial_energy_accounting_witness :
  exists e w' e',
    calculate_energy 0%nat (World [[[1; -1]; [-1; 1]]] (fun k => N.of_nat k) 0 []) =
      Ok (e, World [[[1; -1]; [-1; 1]]] (fun k => N.of_nat k) 0 []) /\
    metropolis_trial exp_approx 0%nat (Z.of_nat 2) (fraction 1 1)
      (World [[[1; -1]; [-1; 1]]] (fun k => N.of_nat k) 0 []) = Ok (tt, w') /\
    calculate_energy 0%nat w' = Ok (e', w') /\
    (e' == e \/ e' == e + inject_Z (-8))%Q /\
    (-8 < 0 -> (e' == e + inject_Z (-8))%Q) /\
    - 8 <= -8 <= 8.
Proof.
  apply (trial_energy_accounting exp_approx 0%nat 2 (fraction 1 1) [[1; -1]; [-1; 1]]
           (World [[[1; -1]; [-1; 1]]] (fun k => N.of_nat k) 0 []) (-8)).
  - lia.
  - reflexivity.
  - solve_lattice_ok.
  - reflexivity.
Defined.

(** X7.  At temperature +0.0 (the float 0.0, or the int 0) a sweep never
    raises the energy: on every valid lattice the evaluator returns after
    the sweep at most what it returned before. *)
Theorem zero_temperature_sweep_lowers_energy (np_exp_finite : Q -> float) (l : loc)
    (n : nat) (a : ndarray) (w : world) :
  heap w !! l = Some a -> lattice_ok n a ->
  exists e w' e',
    calculate_energy l w = Ok (e, w) /\
    metropolis_step np_exp_finite l (S754_zero false) w = Ok (l, w') /\
    calculate_energy l w' = Ok (e', w') /\
    (e' <= e)%Q.
Proof.
  intros Hl Hok.
  destruct (metropolis_step_run np_exp_finite l n (S754_zero false) a w Hl Hok)
    as (w' & E & Ht).
  assert (Hend : exists a', heap w' !! l = Some a' /\ lattice_ok n a' /\
                            energy_sum n a' <= energy_sum n a).
  { destruct n as [|n'].
    - inversion Ht; subst. exists a. repeat split; try assumption; try apply Hok. lia.
    - eapply trials_zero_energy; eauto. lia. }
  destruct Hend as (a' & Hl' & Hok' & Hle).
  exists (inject_Z (energy_sum n a) / 2)%Q, w', (inject_Z (energy_sum n a') / 2)%Q.
  split; [eapply calculate_energy_square; eauto; apply Hok|].
  split; [exact E|].
  split; [eapply calculate_energy_square; eauto; apply Hok'|].
  now apply half_le.
Qed.

Lemma zero_temperature_sweep_lowers_energy_witness :
  exists e w' e',
    calculate_energy 0%nat
      (World [[[1; -1; 1]; [-1; 1; 1]; [1; 1; -1]]] (fun k => N.of_nat (2 * k)) 0 []) =
      Ok (e, World [[[1; -1; 1]; [-1; 1; 1]; [1; 1; -1]]] (fun k => N.of_nat (2 * k)) 0 []) /\
    metropolis_step exp_approx 0%nat (S754_zero false)
      (World [[[1; -1; 1]; [-1; 1; 1]; [1; 1; -1]]] (fun k => N.of_nat (2 * k)) 0 []) =
      Ok (0%nat, w') /\
    calculate_energy 0%nat w' = Ok (e', w') /\
    (e' <= e)%Q.
Proof.
  apply (zero_temperature_sweep_lowers_energy exp_approx 0%nat 3
           [[1; -1; 1]; [-1; 1; 1]; [1; 1; -1]]
           (World [[[1; -1; 1]; [-1; 1; 1]; [1; 1; -1]]] (fun k => N.of_nat (2 * k)) 0 [])).
  - reflexivity.
  - solve_lattice_ok.
Defined.

Lemma energy_sum_ones (n : nat) :
  energy_sum n (replicate n (replicate n 1)) = - 4 * Z.of_nat n * Z.of_nat n.
Proof.
  unfold energy_sum.
  rewrite sumZ_ext with (g := fun _ => -4 * Z.of_nat n).
  - rewrite sumZ_const, length_range. lia.
  - intros i Hi. apply in_range in Hi.
    rewrite sumZ_ext with (g := fun _ => -4).
    + rewrite sumZ_const, length_range. lia.
    + intros j Hj. apply in_range in Hj.
      assert (Hn0 : 0 < Z.of_nat n) by lia.
      pose proof (Z.mod_pos_bound (i + 1) _ Hn0). pose proof (Z.mod_pos_bound (i - 1) _ Hn0).
      pose proof (Z.mod_pos_bound (j + 1) _ Hn0). pose proof (Z.mod_pos_bound (j - 1) _ Hn0).
      unfold energy_term, nbsum.
      rewrite !(cell_replicate n (replicate n 1) 1)
        by (try apply length_replicate; try (apply lookup_replicate_2; lia); lia).
      reflexivity.
Qed.

Lemma lattice_ok_ones (n : nat) : lattice_ok n (replicate n (replicate n 1)).
Proof.
  split; [apply square_replicate, length_replicate|].
  apply Forall_forall. intros row Hrow. apply elem_of_replicate in Hrow as [-> _].
  apply Forall_forall. intros x Hx. apply elem_of_replicate in Hx as [-> _]. now left.
Qed.

(** X8.  The all-positive lattice is a ground state: after a sweep at any
    temperature, the evaluator returns at least what it returned before. *)
Theorem sweep_from_all_positive (np_exp_finite : Q -> float) (l : loc) (n : nat)
    (T : float64) (w : world) :
  heap w !! l = Some (replicate n (replicate n 1)) ->
  exists e w' e',
    calculate_energy l w = Ok (e, w) /\
    metropolis_step np_exp_finite l T w = Ok (l, w') /\
    calculate_energy l w' = Ok (e', w') /\
    (e <= e')%Q.
Proof.
  intros Hl. pose proof (lattice_ok_ones n) as Hok.
  destruct (metropolis_step_ok np_exp_finite l n T _ w Hl Hok)
    as (w' & a' & E & _ & Hl' & Hok').
  destruct (energy_sum_even_bounded n a' Hok') as (z & Ez & Hz).
  exists (inject_Z (energy_sum n (replicate n (replicate n 1%Z))) / 2)%Q, w',
         (inject_Z (energy_sum n a') / 2)%Q.
  split; [eapply calculate_energy_square; eauto; apply Hok|].
  split; [exact E|].
  split; [eapply calculate_energy_square; eauto; apply Hok'|].
  apply half_le. rewrite energy_sum_ones. lia.
Qed.

Lemma sweep_from_all_positive_witness :
  exists e w' e',
    calculate_energy 0%nat
      (World [replicate 2 (replicate 2 1)] (fun k => N.of_nat k) 0 []) =
      Ok (e, World [replicate 2 (replicate 2 1)] (fun k => N.of_nat k) 0 []) /\
    metropolis_step exp_approx 0%nat (fraction 5 2)
      (World [replicate 2 (replicate 2 1)] (fun k => N.of_nat k) 0 []) = Ok (0%nat, w') /\
    calculate_energy 0%nat w' = Ok (e', w') /\
    (e <= e')%Q.
Proof.
  apply (sweep_from_all_positive exp_approx 0%nat 2 (fraction 5 2)
           (World [replicate 2 (replicate 2 1)] (fun k => N.of_nat k) 0 [])).
  reflexivity.
Defined.

(** * Populations of the deterministic pattern *)

Lemma count_occ_concat_replicate (n : nat) (row : list Z) (x : Z) :
  count_occ Z.eq_dec (concat (replicate n row)) x = (n * count_occ Z.eq_dec row x)%nat.
Proof.
  induction n as [|n IH]; simpl; [reflexivity|].
  rewrite count_occ_app, IH. reflexivity.
Qed.

(** X9.  In deterministic mode the N x N grid has exactly N * (N // 2) cells
    equal to -1 and N * (N - N // 2) cells equal to +1, whatever the ratio:
    the two populations are equal for even N, and for odd N the positive
    cells are N more. *)
Theorem deterministic_populations (N : Z) (ratio : float64) (w : world) :
  0 <= N ->
  exists grid,
    initialize_lattice N ratio false w =
      Ok (length (heap w), World (heap w ++ [grid]) (tape w) (cursor w) (log w)) /\
    Z.of_nat (count_spin (-1) grid) = N * (N / 2) /\
    Z.of_nat (count_spin 1 grid) = N * (N - N / 2) /\
    Z.of_nat (count_spin 1 grid) - Z.of_nat (count_spin (-1) grid) = N * (N mod 2).
Proof.
  intros HN. pose proof (half_bounds N HN) as Hh.
  exists (split_grid N). split; [now apply initialize_deterministic|].
  assert (Hm : Z.of_nat (count_spin (-1) (split_grid N)) = N * (N / 2)).
  { unfold count_spin, split_grid.
    rewrite count_occ_concat_replicate, count_occ_app, !count_occ_replicate.
    unfold hit. simpl. nia. }
  assert (Hp : Z.of_nat (count_spin 1 (split_grid N)) = N * (N - N / 2)).
  { unfold count_spin, split_grid.
    rewrite count_occ_concat_replicate, count_occ_app, !count_occ_replicate.
    unfold hit. simpl. nia. }
  split; [exact Hm|]. split; [exact Hp|].
  rewrite Hm, Hp. rewrite (Z.mod_eq N 2) by lia. ring.
Qed.

Lemma deterministic_populations_witness :
  exists grid,
    initialize_lattice 3 (fraction 1 2) false (World [] (fun _ => 0%N) 0 []) =
      Ok (length (heap (World [] (fun _ => 0%N) 0 [])),
          World (heap (World [] (fun _ => 0%N) 0 []) ++ [grid])
                (tape (World [] (fun _ => 0%N) 0 [])) (cursor (World [] (fun _ => 0%N) 0 []))
                (log (World [] (fun _ => 0%N) 0 []))) /\
    Z.of_nat (count_spin (-1) grid) = 3 * (3 / 2) /\
    Z.of_nat (count_spin 1 grid) = 3 * (3 - 3 / 2) /\
    Z.of_nat (count_spin 1 grid) - Z.of_nat (count_spin (-1) grid) = 3 * (3 mod 2).
Proof.
  apply (deterministic_populations 3 (fraction 1 2) (World [] (fun _ => 0%N) 0 [])). lia.
Defined.

(** * Negative temperature *)

Lemma below_zero_cases (T : float64) :
  below_zero T -> (exists m e, T = S754_finite true m e) \/ T = S754_infinity true.
Proof.
  unfold below_zero. destruct T as [s|[|]| |[|] m e]; try discriminate; eauto.
Qed.

Lemma value_of_finite_nonneg (m : positive) (e : Z) :
  exists q, value_of (S754_finite false m e) = Finite q /\ (0 <= q)%Q.
Proof.
  eexists. split; [reflexivity|]. cbn [cond_Zopp].
  apply Qmult_le_0_compat; [unfold Qle; simpl; lia|].
  apply Qpower_0_le. discriminate.
Qed.

(** The quotient of two negative floats is not negative. *)
Lemma f64_div_negatives (mx : positive) (ex : Z) (my : positive) (ey : Z) :
  value_of (f64_div (S754_finite true mx ex) (S754_finite true my ey)) = PInf \/
  exists q, value_of (f64_div (S754_finite true mx ex) (S754_finite true my ey)) = Finite q
            /\ (0 <= q)%Q.
Proof.
  unfold f64_div, SFdiv, SFdiv_core_binary. cbn [xorb].
  set (m' := match _ - _ - _ with Z.pos _ => _ | 0 => _ | Z.neg _ => _ end).
  assert (Hm' : 0 <= m').
  { unfold m'. destruct (_ - _ - _); try lia. apply Z.shiftl_nonneg. lia. }
  destruct (Z.div_eucl m' (Z.pos my)) as [q r] eqn:E.
  assert (Hq : 0 <= q).
  { replace q with (m' / Z.pos my) by (unfold Z.div; now rewrite E).
    apply Z.div_pos; lia. }
  destruct (binary_round_aux_sign false q
              (Z.min (fexp 53 1024 (Zdigits2 (Z.pos mx) + ex - (Zdigits2 (Z.pos my) + ey)))
                     (ex - ey))
              (new_location (Z.pos my) r) Hq) as [-> | [-> | (m1 & e1 & ->)]].
  - right. exists 0%Q. split; [reflexivity | discriminate].
  - now left.
  - right. apply value_of_finite_nonneg.
Qed.

(** Under a negative temperature the quotient [-delta_E / T] of an uphill
    trial on a valid lattice is not negative. *)
Lemma quotient_of_negative (x : Z) (T : float64) :
  below_zero T -> - 8 <= x <= 0 ->
  value_of (fst (quotient x T)) = PInf \/
  exists q, value_of (fst (quotient x T)) = Finite q /\ (0 <= q)%Q.
Proof.
  intros HT Hx. unfold quotient. cbn [fst].
  destruct (Z.eq_dec x 0) as [->|Hx0].
  - right. exists 0%Q. split; [|discriminate].
    apply below_zero_cases in HT as [(m & e & ->) | ->]; reflexivity.
  - destruct (f64_of_int_small_negative x ltac:(lia)) as (mx & ex & ->).
    apply below_zero_cases in HT as [(m & e & ->) | ->].
    + apply f64_div_negatives.
    + right. exists 0%Q. split; [reflexivity | discriminate].
Qed.

Lemma float_lt_unit_at_least_one (r : N) (y : float) :
  (y = PInf \/ exists e, y = Finite e /\ (1 <= e)%Q) -> float_lt (unit_of r) y = true.
Proof.
  intros [-> | (e & -> & He)]; [reflexivity|]. unfold float_lt.
  destruct (unit_of_range r) as [_ Hlt].
  assert (H : (unit_of r < e)%Q) by (eapply Qlt_le_trans; eauto).
  destruct (Qcompare_spec (unit_of r) e) as [E|E|E]; [|reflexivity|].
  - rewrite E in H. now apply Qlt_irrefl in H.
  - exfalso. apply (Qlt_irrefl e). eapply Qlt_trans; eauto.
Qed.

(** An exponential that is at least 1 on non-negative arguments is above
    every uniform draw there. *)
Lemma exponential_at_least_one (np_exp_finite : Q -> float) (x : float) (r : N) :
  exp_at_least_one np_exp_finite ->
  (x = PInf \/ exists q, x = Finite q /\ (0 <= q)%Q) ->
  float_lt (unit_of r) (fst (exponential np_exp_finite x)) = true.
Proof.
  intros Hexp [-> | (q & -> & Hq)]; [reflexivity|].
  apply float_lt_unit_at_least_one. unfold exponential.
  destruct (Hexp q Hq) as [-> | (e & -> & He)]; [now left|].
  right. eauto.
Qed.

(** X16.  At a negative temperature every trial flips the spin it picks,
    whatever the cost: when the exponential is at least 1 on non-negative
    arguments, a trial on a valid lattice leaves behind the reference the
    lattice with the picked cell negated. *)
Theorem negative_temperature_always_flips (np_exp_finite : Q -> float) (l : loc)
    (n : nat) (T : float64) (a : ndarray) (w : world) :
  exp_at_least_one np_exp_finite ->
  below_zero T -> (1 <= n)%nat -> heap w !! l = Some a -> lattice_ok n a ->
  exists w',
    metropolis_trial np_exp_finite l (Z.of_nat n) T w = Ok (tt, w') /\
    heap w' !! l = Some (negate_cell a (pick n (tape w (cursor w)))
                                       (pick n (tape w (cursor w + 1)))).
Proof.
  intros Hexp HT Hn Hl Hok.
  assert (Hlt : (l < length (heap w))%nat) by (eapply lookup_lt_Some; eauto).
  exists (trial_outcome np_exp_finite l n T a w).
  split; [apply metropolis_trial_run; auto; apply Hok|].
  pose proof (delta_E_bounds n a _ _ Hok (pick_range n (tape w (cursor w)) Hn)
                (pick_range n (tape w (cursor w + 1)) Hn)) as Hb.
  unfold trial_outcome.
  set (dE := 2 * _ * _) in *.
  destruct (Z.ltb_spec dE 0) as [Hneg|Hpos].
  - simpl. now apply list_lookup_insert_eq.
  - unfold acceptance. cbn [fst snd].
    rewrite (exponential_at_least_one np_exp_finite _ _ Hexp
               (quotient_of_negative (- dE) T HT ltac:(lia))).
    simpl. now apply list_lookup_insert_eq.
Qed.

Lemma taylor_lower_bound (fuel : nat) (x : Q) :
  (0 <= x)%Q ->
  forall (k : Z) (term : Q), 0 <= k -> (0 <= term)%Q ->
    (term <= taylor fuel x k term)%Q.
Proof.
  intros Hx. induction fuel as [|fuel IH]; intros k term Hk Hterm; simpl.
  - apply Qle_refl.
  - assert (Hnext : (0 <= Qred (term * x / inject_Z (k + 1)))%Q).
    { rewrite Qred_correct. apply Qle_shift_div_l.
      - unfold Qlt, inject_Z. simpl. lia.
      - rewrite Qmult_0_l. now apply Qmult_le_0_compat. }
    specialize (IH (k + 1) _ ltac:(lia) Hnext).
    rewrite <- (Qplus_0_r term) at 1. apply Qplus_le_r.
    eapply Qle_trans; eauto.
Qed.

Lemma exp_approx_at_least_one : exp_at_least_one exp_approx.
Proof.
  intros q Hq. right. unfold exp_approx.
  rewrite (proj2 (Qle_bool_iff 0 q) Hq).
  eexists. split; [reflexivity|]. rewrite Qred_correct.
  apply (taylor_lower_bound 20 q Hq 0 1); [lia | discriminate].
Qed.

Lemma negative_temperature_always_flips_witness :
  exists w',
    metropolis_trial exp_approx 0%nat (Z.of_nat 2) (fraction (-1) 1)
      (World [[[1; 1]; [1; 1]]] (fun k => N.of_nat k) 0 []) = Ok (tt, w') /\
    heap w' !! 0%nat =
      Some (negate_cell [[1; 1]; [1; 1]]
              (pick 2 (tape (World [[[1; 1]; [1; 1]]] (fun k => N.of_nat k) 0 [])
                            (cursor (World [[[1; 1]; [1; 1]]] (fun k => N.of_nat k) 0 []))))
              (pick 2 (tape (World [[[1; 1]; [1; 1]]] (fun k => N.of_nat k) 0 [])
                            (cursor (World [[[1; 1]; [1; 1]]] (fun k => N.of_nat k) 0 []) + 1)))).
Proof.
  apply (negative_temperature_always_flips exp_approx 0%nat 2 (fraction (-1) 1)
           [[1; 1]; [1; 1]]
           (World [[[1; 1]; [1; 1]]] (fun k => N.of_nat k) 0 [])).
  - exact exp_approx_at_least_one.
  - reflexivity.
  - lia.
  - reflexivity.
  - solve_lattice_ok.
Defined.

(** * Further properties of the orchestrator *)

(** X11.  With a display interval of 0, at least one step and at least one
    temperature, the orchestrator raises ZeroDivisionError (from
    [step % output_interval], after the first sweep), for every N >= 0 with
    N^2 below 2^53, every ratio in [0, 1] and every temperature. *)
Theorem zero_interval_raises (np_exp_finite : Q -> float) (N : Z) (T : float64)
    (temperatures : list float64) (steps : Z) (ratio : float64) (w : world) :
  0 <= N -> N * N < 2 ^ 53 -> within_unit ratio -> 1 <= steps ->
  simulate_phase_separation np_exp_finite N (T :: temperatures) steps 0 ratio w
    = Raise ZeroDivisionError.
Proof.
  intros HN Hsq Hr Hsteps.
  now rewrite (simulate_phase_separation_first np_exp_finite N T temperatures steps 0
                 ratio w HN Hsq Hr Hsteps).
Qed.

Lemma zero_interval_raises_witness :
  simulate_phase_separation exp_approx 2 (fraction 3 2 :: [fraction 2 1]) 3 0 (fraction 1 2)
    (World [] (fun k => N.of_nat (3 * k + 1)) 0 []) = Raise ZeroDivisionError.
Proof.
  apply (zero_interval_raises exp_approx 2 (fraction 3 2) [fraction 2 1] 3 (fraction 1 2)
           (World [] (fun k => N.of_nat (3 * k + 1)) 0 [])).
  - lia.
  - lia.
  - eexists. split; [vm_compute; reflexivity|]. split; vm_compute; discriminate.
  - lia.
Defined.

(** X18.  The orchestrator returns only when it has nothing to simulate:
    whatever the other arguments, a call that returns was given a step count
    <= 0 or no temperature.  (With a step and a temperature it raises: what
    the initializer raises, or ZeroDivisionError, or NameError.) *)
Theorem returns_only_without_steps (np_exp_finite : Q -> float) (N : Z)
    (temperatures : list float64) (steps output_interval : Z) (ratio : float64)
    (w w' : world) (dicts : results) :
  simulate_phase_separation np_exp_finite N temperatures steps output_interval ratio w
    = Ok (dicts, w') ->
  steps <= 0 \/ temperatures = [].
Proof. intros H. now apply simulate_phase_separation_inv in H as [_ H]. Qed.

Lemma returns_only_without_steps_witness :
  0 <= 0 \/ [fraction 1 1; fraction 2 1] = [].
Proof.
  apply (returns_only_without_steps exp_approx 2 [fraction 1 1; fraction 2 1] 0 10
           (fraction 1 2)
           (World [] (fun k => N.of_nat (5 * k + 1)) 0 [])
           (World [[[-1; -1]; [1; 1]]; [[1; -1]; [-1; 1]]]
                  (fun k => N.of_nat (5 * k + 1)) 6 [])
           ([(fraction 1 1, 0%nat); (fraction 2 1, 1%nat)],
            [(fraction 1 1, []); (fraction 2 1, [])],
            [(fraction 1 1, []); (fraction 2 1, [])])).
  vm_compute. reflexivity.
Defined.

(** ** One lattice per temperature *)

Lemma in_dict_set_values {V} (d : list (float64 * V)) (k : float64) (v x : V) :
  In x (map snd (dict_set d k v)) -> x = v \/ In x (map snd d).
Proof.
  induction d as [|[k' v'] d IH]; cbn [dict_set map snd In].
  - intros [<-|[]]. now left.
  - destruct (SFeqb k' k); cbn [map snd In].
    + intros [<-|H]; auto.
    + intros [<-|H]; auto. destruct (IH H); auto.
Qed.

Lemma NoDup_dict_set {V} (d : list (float64 * V)) (k : float64) (v : V) :
  List.NoDup (map snd d) -> ~ In v (map snd d) -> List.NoDup (map snd (dict_set d k v)).
Proof.
  induction d as [|[k' v'] d IH]; cbn [dict_set map snd]; intros Hnd Hv.
  - constructor; [intros [] | constructor].
  - inversion Hnd as [|? ? Hv' Hd]; subst.
    destruct (SFeqb k' k); cbn [map snd].
    + constructor; [|assumption]. intros H. apply Hv. now right.
    + constructor.
      * intros H. apply in_dict_set_values in H as [->|H]; [|contradiction].
        apply Hv. now left.
      * apply IH; [assumption|]. intros H. apply Hv. now right.
Qed.

(** The final lattices of a result, in the world [w]: each a valid lattice
    of the store, no two the same object. *)
Lemma simulate_phase_separation_lattices (np_exp_finite : Q -> float) (N : Z)
    (temperatures : list float64) (steps output_interval : Z) (ratio : float64)
    (w w' : world) (dicts : results) :
  simulate_phase_separation np_exp_finite N temperatures steps output_interval ratio w
    = Ok (dicts, w') ->
  List.NoDup (map snd (fst (fst dicts))) /\
  Forall (fun entry => exists a, heap w' !! snd entry = Some a /\
                                 lattice_ok (Z.to_nat N) a) (fst (fst dicts)).
Proof.
  intros H.
  destruct (simulate_phase_separation_inv _ _ _ _ _ _ _ _ _ H) as [_ [Hsteps | ->]].
  - unfold simulate_phase_separation in H.
    assert (Hinv : List.NoDup (map snd (fst (fst dicts))) /\
                   Forall (fun entry : float64 * nat =>
                             (snd entry < length (heap w'))%nat /\
                             exists a, heap w' !! snd entry = Some a /\
                                       lattice_ok (Z.to_nat N) a) (fst (fst dicts))).
    { apply (foldM_preserves
               (simulate_temperature np_exp_finite N steps output_interval ratio)
               (fun d w1 =>
                  List.NoDup (map snd (fst (fst d))) /\
                  Forall (fun entry : float64 * nat =>
                            (snd entry < length (heap w1))%nat /\
                            exists a, heap w1 !! snd entry = Some a /\
                                      lattice_ok (Z.to_nat N) a) (fst (fst d))))
        with (xs := temperatures) (s := (([], [], []) : results)) (w := w) (w' := w');
        [| split; constructor | exact H].
      intros T d w1 d' w1' [Hnd Hall] Hrun.
      apply simulate_temperature_no_steps in Hrun as [Hinit ->]; [|assumption].
      apply initialize_lattice_inv in Hinit as (_ & _ & _ & _ & grid & Hheap & Hok).
      cbn [fst snd]. split.
      - apply NoDup_dict_set; [assumption|]. intros Hin.
        apply in_map_iff in Hin as (entry & E & Hin).
        rewrite Forall_forall in Hall.
        destruct (Hall entry ltac:(now apply list_elem_of_In)) as [Hlt _]. lia.
      - apply Forall_dict_set.
        + eapply Forall_impl; [exact Hall|]. intros entry (Hlt & a & Ha & Hoka).
          rewrite Hheap, length_app. split; [lia|].
          exists a. split; [|assumption]. now rewrite lookup_app_l.
        + intros k'. cbn [snd]. rewrite Hheap, length_app. split; [simpl; lia|].
          exists grid. split; [now apply list_lookup_middle | assumption]. }
    destruct Hinv as [Hnd Hall]. split; [assumption|].
    eapply Forall_impl; [exact Hall|]. intros entry (_ & Ha). exact Ha.
  - unfold simulate_phase_separation in H. cbn [foldM] in H. rewrite ret_unfold in H.
    injection H as <- <-. split; constructor.
Qed.

(** X15.  Temperature runs share no lattice: in every result of the
    orchestrator the final lattices recorded for the temperatures are
    different objects of the store, each a valid N x N lattice.  (Such a
    result exists only for a step count <= 0; the lattices are then as the
    initializer made them.) *)
Theorem final_lattices_are_distinct (np_exp_finite : Q -> float) (N : Z)
    (temperatures : list float64) (steps output_interval : Z) (ratio : float64)
    (w w' : world) (final_states : list (float64 * nat))
    (animations : list (float64 * list nat)) (energies : list (float64 * list Q)) :
  simulate_phase_separation np_exp_finite N temperatures steps output_interval ratio w
    = Ok ((final_states, animations, energies), w') ->
  List.NoDup (map snd final_states) /\
  Forall (fun entry => exists a, heap w' !! snd entry = Some a /\
                                 lattice_ok (Z.to_nat N) a) final_states.
Proof.
  intros H. exact (simulate_phase_separation_lattices _ _ _ _ _ _ _ _ _ H).
Qed.

Lemma final_lattices_are_distinct_witness :
  List.NoDup (map snd [(fraction 1 1, 0%nat); (fraction 2 1, 1%nat)]) /\
  Forall (fun entry : float64 * nat =>
            exists a,
              heap (World [[[-1; -1]; [1; 1]]; [[1; -1]; [-1; 1]]]
                          (fun k => N.of_nat (5 * k + 1)) 6 []) !! snd entry = Some a /\
              lattice_ok (Z.to_nat 2) a)
         [(fraction 1 1, 0%nat); (fraction 2 1, 1%nat)].
Proof.
  apply (final_lattices_are_distinct exp_approx 2 [fraction 1 1; fraction 2 1] 0 10
           (fraction 1 2)
           (World [] (fun k => N.of_nat (5 * k + 1)) 0 [])
           (World [[[-1; -1]; [1; 1]]; [[1; -1]; [-1; 1]]]
                  (fun k => N.of_nat (5 * k + 1)) 6 [])
           [(fraction 1 1, 0%nat); (fraction 2 1, 1%nat)]
           [(fraction 1 1, []); (fraction 2 1, [])]
           [(fraction 1 1, []); (fraction 2 1, [])]).
  vm_compute. reflexivity.
Defined.

